(** * webtransport-go: session multiplexer, stream adapters and error codes

    A shallow embedding of the Go package [webtransport] (files [conn.go],
    the stream adapters, the dialer and the session manager) together with
    the properties its specification states about it.

    Conventions of the embedding:
    - Go's unsigned integers are [Z] with the wrap-around written out;
    - a [[]byte] is a [list Z] of values below 256;
    - a Go pointer is a location into an explicit heap, and [nil] is
      [None];
    - a goroutine is a task record in the manager's state; every critical
      section (the code between [Lock] and [Unlock]) is one atomic step;
    - a run-time panic is an explicit outcome, never a silent default. *)

From Stdlib Require Import ZArith Lia.
From stdpp Require Import base option list gmap strings.

Local Open Scope Z_scope.

(** ** Machine integers *)

Definition uint8 (z : Z) : Z := z mod 2 ^ 8.
Definition uint32 (z : Z) : Z := z mod 2 ^ 32.
Definition uint64 (z : Z) : Z := z mod 2 ^ 64.

(** Go's [int] on a 64-bit platform: two's complement wrap-around. *)
Definition int (z : Z) : Z := (z + 2 ^ 63) mod 2 ^ 64 - 2 ^ 63.

Definition bytes := list Z.

(** ** QUIC variable-length integers *)

Module quicvarint.

Definition maxVarInt1 : Z := 63.
Definition maxVarInt2 : Z := 16383.
Definition maxVarInt4 : Z := 1073741823.
Definition maxVarInt8 : Z := 4611686018427387903.

(** Modelled from the spec: the package [quicvarint] of quic-go is an
    external dependency, its source is not in the repository.  The
    glossary describes a varint as QUIC's self-delimiting 1/2/4/8-byte
    variable-length integer encoding (RFC 9000, section 16): the two top
    bits of the first byte give the length, the remaining bits are the
    value in network byte order.  [Write buf i] appends the encoding of
    [i] to [buf]; a value that does not fit into 62 bits makes the
    library panic, which is [None] here. *)
Definition Write (buf : bytes) (i : Z) : option bytes :=
  if i <=? maxVarInt1 then
    Some (buf ++ [uint8 i])
  else if i <=? maxVarInt2 then
    Some (buf ++ [Z.lor (uint8 (Z.shiftr i 8)) 0x40; uint8 i])
  else if i <=? maxVarInt4 then
    Some (buf ++ [Z.lor (uint8 (Z.shiftr i 24)) 0x80; uint8 (Z.shiftr i 16);
                  uint8 (Z.shiftr i 8); uint8 i])
  else if i <=? maxVarInt8 then
    Some (buf ++ [Z.lor (uint8 (Z.shiftr i 56)) 0xc0; uint8 (Z.shiftr i 48);
                  uint8 (Z.shiftr i 40); uint8 (Z.shiftr i 32);
                  uint8 (Z.shiftr i 24); uint8 (Z.shiftr i 16);
                  uint8 (Z.shiftr i 8); uint8 i])
  else None.

(** Modelled from the spec: the reader of the same external package.
    [Read r] consumes one varint from the front of the byte reader [r]
    and returns its value with the rest of the reader; running out of
    bytes is the read error [None]. *)
Definition Read (r : bytes) : option (Z * bytes) :=
  match r with
  | [] => None
  | firstByte :: r1 =>
      let len := Z.shiftl 1 (Z.shiftr (Z.land firstByte 0xc0) 6) in
      let b1 := Z.land firstByte (0xff - 0xc0) in
      if len =? 1 then Some (b1, r1)
      else
        match r1 with
        | [] => None
        | b2 :: r2 =>
            if len =? 2 then Some (b2 + Z.shiftl b1 8, r2)
            else
              match r2 with
              | b3 :: b4 :: r4 =>
                  if len =? 4 then
                    Some (b4 + Z.shiftl b3 8 + Z.shiftl b2 16 + Z.shiftl b1 24, r4)
                  else
                    match r4 with
                    | b5 :: b6 :: b7 :: b8 :: r8 =>
                        Some (b8 + Z.shiftl b7 8 + Z.shiftl b6 16
                              + Z.shiftl b5 24 + Z.shiftl b4 32
                              + Z.shiftl b3 40 + Z.shiftl b2 48
                              + Z.shiftl b1 56, r8)
                    | _ => None
                    end
              | _ => None
              end
        end
  end.

End quicvarint.

(** ** Error codes *)

(** Modelled from the spec: the declaration of [webTransportFrameType]
    is not in the files at hand; sections 4.4 and 6 give the frame type
    of a WebTransport bidirectional stream as 0x41. *)
Definition webTransportFrameType : Z := 0x41.

(** Modelled from the spec: the declaration of [webTransportStreamType]
    is missing too; sections 4.4 and 6 give the stream type of a
    WebTransport unidirectional stream as 0x54. *)
Definition webTransportStreamType : Z := 0x54.

(** Modelled from the spec: the declaration of
    [WebTransportBufferedStreamRejectedErrorCode] is missing; section 6
    gives the reset code sent on early streams that time out. *)
Definition WebTransportBufferedStreamRejectedErrorCode : Z := 0x3994bd84.

(** Modelled from the spec: the first code of the range reserved for
    WebTransport in the HTTP/3 reset code space, [FIRST] in section 4.6. *)
Definition firstErrorCode : Z := 0x52e4a40fa8db.

(** Modelled from the spec: [webtransportCodeToHTTPCode] is called by the
    stream adapters but its definition is missing.  Section 4.6 gives
    [wt_to_http(code) = FIRST + code + floor(code / 0x1e)]. *)
Definition webtransportCodeToHTTPCode (n : Z) : Z :=
  firstErrorCode + n + n / 0x1e.

(** Modelled from the spec: the last code of the range, the image of the
    largest 32-bit application code (section 6 maps the codes of
    [0, 2^32)). *)
Definition lastErrorCode : Z := Eval cbv in webtransportCodeToHTTPCode (2 ^ 32 - 1).

(** Go's [error] values, as far as the package tells them apart.
    [MappingError] stands for the error value of
    [httpCodeToWebtransportCode], whose text is not in the files at hand;
    the specification calls it the mapping error. *)
Inductive error : Type :=
| quic_StreamError (StreamID ErrorCode : Z)   (* *quic.StreamError *)
| StreamError (ErrorCode : Z)                 (* *StreamError of this package *)
| MappingError                                (* the error of the reverse mapping *)
| errorString (s : string)                    (* errors.New, context errors, ... *)
| wrapError (format : string) (args : list Z) (err : error).
                                              (* fmt.Errorf with one %w verb *)

#[global] Instance error_eq_dec : EqDecision error.
Proof. solve_decision. Defined.

(** Modelled from the spec: [httpCodeToWebtransportCode] is missing as
    well.  Section 4.6 calls it the inverse of the forward mapping and says
    that invalid (gap) codes yield a mapping error; section 3 adds that
    values outside the range are not WebTransport codes.  Every 31st code
    of the range is a gap, the others are shifted back.  As in Go the
    function returns a pair of a code and an error. *)
Definition httpCodeToWebtransportCode (h : Z) : Z * option error :=
  if (h <? firstErrorCode) || (lastErrorCode <? h) then (0, Some MappingError)
  else
    let shifted := h - firstErrorCode in
    if shifted mod 0x1f =? 0x1e then (0, Some MappingError)
    else (shifted - shifted / 0x1f, None).

(** [errors.As(err, &streamErr)] for a target of type [*quic.StreamError]:
    the first stream error on the [Unwrap] chain of [err]. *)
Fixpoint errors_As_StreamError (err : error) : option (Z * Z) :=
  match err with
  | quic_StreamError id code => Some (id, code)
  | wrapError _ _ inner => errors_As_StreamError inner
  | _ => None
  end.

(** [errors.Is(err, target)]: [target] occurs on the [Unwrap] chain. *)
Fixpoint errors_Is (err target : error) : bool :=
  bool_decide (err = target) ||
  match err with
  | wrapError _ _ inner => errors_Is inner target
  | _ => false
  end.

Definition maybeConvertStreamError (err : option error) : option error :=
  match err with
  | None => None
  | Some e =>
      match errors_As_StreamError e with
      | Some (_, streamErr_ErrorCode) =>
          match httpCodeToWebtransportCode streamErr_ErrorCode with
          | (_, Some cerr) =>
              Some (wrapError
                      "stream reset, but failed to convert stream error %d: %w"
                      [streamErr_ErrorCode] cerr)
          | (errorCode, None) => Some (StreamError errorCode)
          end
      | None => Some e
      end
  end.

(** ** Results of Go calls *)

(** A call either returns or panics; a panic in any goroutine ends the
    program. *)
Inductive go (A : Type) : Type :=
| ret (a : A)
| panic (msg : string).
Arguments ret {A} a.
Arguments panic {A} msg.

#[global] Instance go_ret : MRet go := λ A a, ret a.
#[global] Instance go_bind : MBind go := λ A B k m,
  match m with
  | ret a => k a
  | panic msg => panic msg
  end.

Definition nil_dereference {A} : go A :=
  panic "invalid memory address or nil pointer dereference".

(** The pair [(value, error)] of a Go function with exactly one of them
    set. *)
Inductive result (A : Type) : Type :=
| Ok (a : A)
| Err (e : error).
Arguments Ok {A} a.
Arguments Err {A} e.

(** A blocking call that is followed through one scheduling step either
    has returned or is parked in its [select]. *)
Inductive call (A : Type) : Type :=
| Done (r : A)
| Parked.
Arguments Done {A} r.
Arguments Parked {A}.

(** ** Contexts and channels *)

(** A [context.Context] is observed through [Err()]: [None] while it is
    live, the reason once it is done. *)
Definition context := option error.

Definition context_Canceled : error := errorString "context canceled".

Definition cancel (ctx : context) : context :=
  match ctx with
  | None => Some context_Canceled
  | Some e => Some e
  end.

Definition ctx_Done (ctx : context) : bool := bool_decide (is_Some ctx).

(** A buffered channel: [make(chan T, cap)]. *)
Module chan.

Record t (A : Type) : Type := Chan { cap : nat; buf : list A }.
Arguments Chan {A} cap buf.
Arguments cap {A} _.
Arguments buf {A} _.

Definition make {A} (cap : nat) : t A := Chan cap [].

(** [select { case c <- x: ...; default: ... }]: the send succeeds
    unless the buffer is full. *)
Definition try_send {A} (c : t A) (x : A) : option (t A) :=
  if decide (length (buf c) < cap c)%nat
  then Some (Chan (cap c) (buf c ++ [x]))
  else None.

(** A receive is ready when the buffer is not empty. *)
Definition try_recv {A} (c : t A) : option (A * t A) :=
  match buf c with
  | [] => None
  | x :: rest => Some (x, Chan (cap c) rest)
  end.

End chan.

(** ** QUIC streams *)

(** A QUIC stream is known by a handle; the interface value may be [nil]. *)
Definition stream_ref := Z.
Definition quic_Stream := option stream_ref.
Definition quic_ReceiveStream := option stream_ref.
Definition quic_SendStream := option stream_ref.

(** The adapters of this package wrap the raw stream. *)
Record sendStream := newSendStream { send_str : quic_SendStream }.
Record receiveStream := newReceiveStream { recv_str : quic_ReceiveStream }.
Record stream := mkStream {
  str : quic_Stream;
  stream_receiveStream : receiveStream;
  stream_sendStream : sendStream
}.

Definition newStream (s : quic_Stream) : stream :=
  mkStream s (newReceiveStream s) (newSendStream s).

(** What the package asks of a raw stream; the calls are logged in order. *)
Inductive stream_call : Type :=
| CallWrite (b : bytes)
| CallCancelRead (code : Z)
| CallCancelWrite (code : Z).

Definition quic_log := list (stream_ref * stream_call).

(** ** The session object [Conn] *)

Module Session.

Record Conn := mkConn {
  logger : list (string * list Z);
  sessionID : Z;
  qconn : Z;
  requestStr : Z;
  ctx : context;
  acceptChan : chan.t unit;
  acceptQueue : list quic_Stream;
  acceptUniChan : chan.t unit;
  acceptUniQueue : list quic_ReceiveStream;
  rcvDatagramQueue : chan.t bytes
}.

Definition newConn (parent : context) (sessionID qconn requestStr : Z) : Conn :=
  {| logger := [];
     sessionID := sessionID;
     qconn := qconn;
     requestStr := requestStr;
     ctx := parent;
     acceptChan := chan.make 1;
     acceptQueue := [];
     acceptUniChan := chan.make 1;
     acceptUniQueue := [];
     rcvDatagramQueue := chan.make 128 |}.

Definition set_logger (v : list (string * list Z)) (c : Conn) : Conn :=
  mkConn v (sessionID c) (qconn c) (requestStr c) (ctx c) (acceptChan c)
         (acceptQueue c) (acceptUniChan c) (acceptUniQueue c) (rcvDatagramQueue c).
Definition set_ctx (v : context) (c : Conn) : Conn :=
  mkConn (logger c) (sessionID c) (qconn c) (requestStr c) v (acceptChan c)
         (acceptQueue c) (acceptUniChan c) (acceptUniQueue c) (rcvDatagramQueue c).
Definition set_acceptChan (v : chan.t unit) (c : Conn) : Conn :=
  mkConn (logger c) (sessionID c) (qconn c) (requestStr c) (ctx c) v
         (acceptQueue c) (acceptUniChan c) (acceptUniQueue c) (rcvDatagramQueue c).
Definition set_acceptQueue (v : list quic_Stream) (c : Conn) : Conn :=
  mkConn (logger c) (sessionID c) (qconn c) (requestStr c) (ctx c) (acceptChan c)
         v (acceptUniChan c) (acceptUniQueue c) (rcvDatagramQueue c).
Definition set_acceptUniChan (v : chan.t unit) (c : Conn) : Conn :=
  mkConn (logger c) (sessionID c) (qconn c) (requestStr c) (ctx c) (acceptChan c)
         (acceptQueue c) v (acceptUniQueue c) (rcvDatagramQueue c).
Definition set_acceptUniQueue (v : list quic_ReceiveStream) (c : Conn) : Conn :=
  mkConn (logger c) (sessionID c) (qconn c) (requestStr c) (ctx c) (acceptChan c)
         (acceptQueue c) (acceptUniChan c) v (rcvDatagramQueue c).
Definition set_rcvDatagramQueue (v : chan.t bytes) (c : Conn) : Conn :=
  mkConn (logger c) (sessionID c) (qconn c) (requestStr c) (ctx c) (acceptChan c)
         (acceptQueue c) (acceptUniChan c) (acceptUniQueue c) v.

(** [addStream]: one critical section under [acceptMx]. *)
Definition addStream (s : quic_Stream) (c : Conn) : Conn :=
  let c := set_acceptQueue (acceptQueue c ++ [s]) c in
  match chan.try_send (acceptChan c) () with
  | Some ch => set_acceptChan ch c
  | None => c
  end.

Definition addUniStream (s : quic_ReceiveStream) (c : Conn) : Conn :=
  let c := set_acceptUniQueue (acceptUniQueue c ++ [s]) c in
  match chan.try_send (acceptUniChan c) () with
  | Some ch => set_acceptUniChan ch c
  | None => c
  end.

(** The cases of the [select] of [AcceptStream] and [AcceptUniStream]. *)
Inductive accept_case : Type :=
| case_conn_ctx_Done      (* <-c.ctx.Done() *)
| case_ctx_Done           (* <-ctx.Done()   *)
| case_acceptChan.        (* <-c.acceptChan, then the recursive call *)

(** [AcceptStream], from its entry to the [select]: the critical section
    that takes the head of the queue, and the return if it is a stream. *)
Definition AcceptStream (ctx0 : context) (c : Conn) : call (result stream) * Conn :=
  let '(s, c) :=
    if decide (0 < length (acceptQueue c))%nat then
      (default None (head (acceptQueue c)), set_acceptQueue (tail (acceptQueue c)) c)
    else (None, c) in
  if decide (s ≠ None) then (Done (Ok (newStream s)), c)
  else (Parked, c).

(** The [select] of a parked [AcceptStream] call fires with case [k];
    [None] when that case is not ready.  [ctx0] is the caller's context as
    it is at that moment.  After a receive from [acceptChan] the call
    starts over ([Parked] here, the recursive call is the next step). *)
Definition AcceptStream_select (k : accept_case) (ctx0 : context) (c : Conn)
  : option (call (result stream) * Conn) :=
  match k with
  | case_conn_ctx_Done =>
      match ctx c with
      | Some e => Some (Done (Err e), c)
      | None => None
      end
  | case_ctx_Done =>
      match ctx0 with
      | Some e => Some (Done (Err e), c)
      | None => None
      end
  | case_acceptChan =>
      match chan.try_recv (acceptChan c) with
      | Some (_, ch) => Some (Parked, set_acceptChan ch c)
      | None => None
      end
  end.

Definition AcceptUniStream (ctx0 : context) (c : Conn)
  : call (result receiveStream) * Conn :=
  let '(s, c) :=
    if decide (0 < length (acceptUniQueue c))%nat then
      (default None (head (acceptUniQueue c)),
       set_acceptUniQueue (tail (acceptUniQueue c)) c)
    else (None, c) in
  if decide (s ≠ None) then (Done (Ok (newReceiveStream s)), c)
  else (Parked, c).

Definition AcceptUniStream_select (k : accept_case) (ctx0 : context) (c : Conn)
  : option (call (result receiveStream) * Conn) :=
  match k with
  | case_conn_ctx_Done =>
      match ctx c with
      | Some e => Some (Done (Err e), c)
      | None => None
      end
  | case_ctx_Done =>
      match ctx0 with
      | Some e => Some (Done (Err e), c)
      | None => None
      end
  | case_acceptChan =>
      match chan.try_recv (acceptUniChan c) with
      | Some (_, ch) => Some (Parked, set_acceptUniChan ch c)
      | None => None
      end
  end.

(** *** Opening streams *)

(** The QUIC layer is an external collaborator: what [qconn.OpenStream]
    and [str.Write] answer is an input of the model.  [Write] follows the
    [io.Writer] contract, a short write comes with an error; the package
    looks at the error only. *)
Record quic_env := mkEnv {
  env_OpenStream : result stream_ref;
  env_OpenUniStream : result stream_ref;
  env_Write : stream_ref → bytes → option error
}.

Definition quicvarint_Write (buf : bytes) (i : Z) : go bytes :=
  match quicvarint.Write buf i with
  | Some buf => ret buf
  | None => panic "value doesn't fit into 62 bits"
  end.

Definition str_Write (env : quic_env) (s : quic_SendStream) (b : bytes)
    (log : quic_log) : go (option error * quic_log) :=
  match s with
  | None => nil_dereference
  | Some r => ret (env_Write env r b, log ++ [(r, CallWrite b)])
  end.

Definition writeStreamHeader (env : quic_env) (c : Conn) (s : quic_SendStream)
    (log : quic_log) : go (option error * quic_log) :=
  let buf := [] in
  buf ← quicvarint_Write buf (uint64 webTransportFrameType);
  buf ← quicvarint_Write buf (uint64 (sessionID c));
  str_Write env s buf log.

Definition writeUniStreamHeader (env : quic_env) (c : Conn) (s : quic_SendStream)
    (log : quic_log) : go (option error * quic_log) :=
  let buf := [] in
  buf ← quicvarint_Write buf (uint64 webTransportStreamType);
  buf ← quicvarint_Write buf (uint64 (sessionID c));
  str_Write env s buf log.

Definition OpenStream (env : quic_env) (c : Conn) (log : quic_log)
  : go (result stream * quic_log) :=
  match env_OpenStream env with
  | Err err => ret (Err err, log)
  | Ok r =>
      let s : quic_Stream := Some r in
      '(err, log) ← writeStreamHeader env c s log;
      match err with
      | Some err => ret (Err err, log)
      | None => ret (Ok (newStream s), log)
      end
  end.

Definition OpenUniStream (env : quic_env) (c : Conn) (log : quic_log)
  : go (result sendStream * quic_log) :=
  match env_OpenUniStream env with
  | Err err => ret (Err err, log)
  | Ok r =>
      let s : quic_SendStream := Some r in
      '(err, log) ← writeUniStreamHeader env c s log;
      match err with
      | Some err => ret (Err err, log)
      | None => ret (Ok (newSendStream s), log)
      end
  end.

(** *** Datagrams *)

(** The payload [SendMessage] hands to [qconn.SendMessage]. *)
Definition SendMessage (c : Conn) (b : bytes) : go bytes :=
  let buf := [] in
  buf ← quicvarint_Write buf (uint64 (sessionID c));
  ret (buf ++ b).

Inductive receive_case : Type :=
| case_rcvDatagramQueue   (* data := <-c.rcvDatagramQueue *)
| case_receive_ctx_Done.  (* <-c.ctx.Done() *)

(** The [select] of [ReceiveMessage] fires with case [k]; [None] when that
    case is not ready. *)
Definition ReceiveMessage (k : receive_case) (c : Conn)
  : option (result bytes * Conn) :=
  match k with
  | case_rcvDatagramQueue =>
      match chan.try_recv (rcvDatagramQueue c) with
      | Some (data, ch) => Some (Ok data, set_rcvDatagramQueue ch c)
      | None => None
      end
  | case_receive_ctx_Done =>
      if ctx_Done (ctx c) then Some (Err (errorString "conn closed"), c)
      else None
  end.

Definition handleDatagram (data : bytes) (c : Conn) : Conn :=
  match chan.try_send (rcvDatagramQueue c) data with
  | Some ch => set_rcvDatagramQueue ch c
  | None =>
      set_logger
        (logger c ++ [("Discarding DATAGRAM frame (%d bytes payload)"%string,
                       [Z.of_nat (length data)])]) c
  end.

(** [Close] cancels the session's context; closing the request stream is
    the business of the HTTP/3 layer. *)
Definition Close (c : Conn) : Conn := set_ctx (cancel (ctx c)) c.

(** *** Histories of one session *)

(** The atomic steps that goroutines take on one [Conn], in the order the
    locks and channels serialise them.  An [AcceptStream] call is the step
    [EvAcceptStream], and while it is parked a step [EvAcceptStreamSelect]
    followed, after a receive from the channel, by [EvAcceptStream] again. *)
Inductive conn_event : Type :=
| EvAddStream (s : quic_Stream)
| EvAddUniStream (s : quic_ReceiveStream)
| EvAcceptStream (ctx0 : context)
| EvAcceptStreamSelect (k : accept_case) (ctx0 : context)
| EvAcceptUniStream (ctx0 : context)
| EvAcceptUniStreamSelect (k : accept_case) (ctx0 : context)
| EvHandleDatagram (data : bytes)
| EvReceiveMessage (k : receive_case)
| EvClose.

(** What a step hands back to its caller. *)
Inductive conn_obs : Type :=
| ObsAccept (r : call (result stream))
| ObsAcceptUni (r : call (result receiveStream))
| ObsReceive (r : result bytes)
| ObsUnit.

(** One step; [None] when the step cannot be taken (its [select] case is
    not ready). *)
Definition conn_step (ev : conn_event) (c : Conn) : option (conn_obs * Conn) :=
  match ev with
  | EvAddStream s => Some (ObsUnit, addStream s c)
  | EvAddUniStream s => Some (ObsUnit, addUniStream s c)
  | EvAcceptStream ctx0 =>
      let '(r, c) := AcceptStream ctx0 c in Some (ObsAccept r, c)
  | EvAcceptStreamSelect k ctx0 =>
      '(r, c) ← AcceptStream_select k ctx0 c; Some (ObsAccept r, c)
  | EvAcceptUniStream ctx0 =>
      let '(r, c) := AcceptUniStream ctx0 c in Some (ObsAcceptUni r, c)
  | EvAcceptUniStreamSelect k ctx0 =>
      '(r, c) ← AcceptUniStream_select k ctx0 c; Some (ObsAcceptUni r, c)
  | EvHandleDatagram data => Some (ObsUnit, handleDatagram data c)
  | EvReceiveMessage k =>
      '(r, c) ← ReceiveMessage k c; Some (ObsReceive r, c)
  | EvClose => Some (ObsUnit, Close c)
  end.

Fixpoint conn_run (evs : list conn_event) (c : Conn)
  : option (list conn_obs * Conn) :=
  match evs with
  | [] => Some ([], c)
  | ev :: evs =>
      '(o, c) ← conn_step ev c;
      '(os, c) ← conn_run evs c;
      Some (o :: os, c)
  end.

(** The streams and datagrams a history mentions. *)
Definition added (evs : list conn_event) : list quic_Stream :=
  omap (λ ev, match ev with EvAddStream s => Some s | _ => None end) evs.
Definition addedUni (evs : list conn_event) : list quic_ReceiveStream :=
  omap (λ ev, match ev with EvAddUniStream s => Some s | _ => None end) evs.
Definition arrived (evs : list conn_event) : list bytes :=
  omap (λ ev, match ev with EvHandleDatagram d => Some d | _ => None end) evs.

Definition accepted (os : list conn_obs) : list quic_Stream :=
  omap (λ o, match o with ObsAccept (Done (Ok s)) => Some (str s) | _ => None end) os.
Definition acceptedUni (os : list conn_obs) : list quic_ReceiveStream :=
  omap (λ o, match o with
             | ObsAcceptUni (Done (Ok s)) => Some (recv_str s)
             | _ => None
             end) os.
Definition received (os : list conn_obs) : list bytes :=
  omap (λ o, match o with ObsReceive (Ok d) => Some d | _ => None end) os.

(** The queue policy of section 4.2 in the words of the specification,
    for comparison with what the channel does: of the datagrams that
    arrive, those are enqueued that find fewer than [cap] datagrams
    waiting; [n] is the number waiting at the start, and every dequeue
    takes one away. *)
Fixpoint enqueued (cap n : nat) (evs : list conn_event) : list bytes :=
  match evs with
  | [] => []
  | EvHandleDatagram d :: evs =>
      if decide (n < cap)%nat then d :: enqueued cap (S n) evs
      else enqueued cap n evs
  | EvReceiveMessage case_rcvDatagramQueue :: evs => enqueued cap (pred n) evs
  | _ :: evs => enqueued cap n evs
  end.

(** *** A whole [AcceptStream] call *)

(** One round of a parked call: what other goroutines do to the session
    while the call waits, the case its [select] then fires with, the
    caller's context at that moment, and what happens before the recursive
    call takes the lock. *)
Record round := mkRound {
  while_parked : list conn_event;
  fired : accept_case;
  caller_ctx : context;
  before_retry : list conn_event
}.

(** [AcceptStream] followed to its return along a schedule; [Parked] when
    the schedule ends (or stops making sense) before the call returns. *)
Fixpoint AcceptStream_call (sched : list round) (ctx0 : context) (c : Conn)
  : call (result stream) * Conn :=
  match AcceptStream ctx0 c with
  | (Done r, c) => (Done r, c)
  | (Parked, c) =>
      match sched with
      | [] => (Parked, c)
      | rd :: sched =>
          match conn_run (while_parked rd) c with
          | None => (Parked, c)
          | Some (_, c) =>
              match AcceptStream_select (fired rd) (caller_ctx rd) c with
              | None => (Parked, c)
              | Some (Done r, c) => (Done r, c)
              | Some (Parked, c) =>
                  match conn_run (before_retry rd) c with
                  | None => (Parked, c)
                  | Some (_, c) => AcceptStream_call sched (caller_ctx rd) c
                  end
              end
          end
      end
  end.

Fixpoint AcceptUniStream_call (sched : list round) (ctx0 : context) (c : Conn)
  : call (result receiveStream) * Conn :=
  match AcceptUniStream ctx0 c with
  | (Done r, c) => (Done r, c)
  | (Parked, c) =>
      match sched with
      | [] => (Parked, c)
      | rd :: sched =>
          match conn_run (while_parked rd) c with
          | None => (Parked, c)
          | Some (_, c) =>
              match AcceptUniStream_select (fired rd) (caller_ctx rd) c with
              | None => (Parked, c)
              | Some (Done r, c) => (Done r, c)
              | Some (Parked, c) =>
                  match conn_run (before_retry rd) c with
                  | None => (Parked, c)
                  | Some (_, c) => AcceptUniStream_call sched (caller_ctx rd) c
                  end
              end
          end
      end
  end.

End Session.

Import Session.

(** ** The dialer's timeout *)

(** [time.Duration] counts nanoseconds. *)
Definition time_Second : Z := 1000000000.

(** The head of [Dialer.init]: the reordering timeout handed to
    [newSessionManager]. *)
Definition Dialer_init_timeout (StreamReorderingTimeout : Z) : Z :=
  let timeout := StreamReorderingTimeout in
  if timeout =? 0 then 5 * time_Second else timeout.

(** ** The session manager *)

Module manager.

(** Pointers are indices into a heap that only grows. *)
Definition loc := nat.

(** [sessionKey]: the QUIC connection (a handle) and the session id. *)
Abbreviation sessionKey := (Z * Z)%type (only parsing).

(** The map value; [created] tells whether the channel has been closed. *)
Record session := mkSession {
  created : bool;
  counter : Z;
  conn : option loc
}.

Record sessionManager := mkManager {
  refCount : Z;
  m_ctx : context;
  timeout : Z;
  sessions : gmap sessionKey loc;
  conns : gset Z
}.

(** A parked stream: the goroutine started by [AddStream] ([Bidi], running
    [handleStream]) or by [AddUniStream] ([Uni], running
    [handleUniStream]), with the arguments it was started with. *)
Inductive kind : Type := Bidi | Uni.

Inductive pc : Type :=
| Spawned                  (* started, not yet at the [select] *)
| Waiting (deadline : Z) (conn_ctx : option loc)
                           (* in the [select]; the timer fires at
                              [deadline]; [conn_ctx] is the [Conn] whose
                              context the first case of [handleUniStream]
                              has read *)
| Leaving.                 (* past the [select], about to take [m.mx] *)

Record task := mkTask {
  task_kind : kind;
  task_str : quic_Stream;
  task_session : loc;
  task_key : sessionKey;
  task_pc : pc
}.

(** The manager together with what it shares with the rest of the
    program: the heaps of [session] and [Conn] objects, the goroutines it
    has started, the clock, and the calls made on raw streams. *)
Record world := mkWorld {
  m : sessionManager;
  session_heap : list session;
  conn_heap : list Conn;
  tasks : list task;
  pumps : list Z;
  now : Z;
  calls : quic_log
}.

Definition newSessionManager (timeout : Z) : sessionManager :=
  {| refCount := 0; m_ctx := None; timeout := timeout;
     sessions := ∅; conns := ∅ |}.

Definition init (timeout : Z) : world :=
  {| m := newSessionManager timeout; session_heap := []; conn_heap := [];
     tasks := []; pumps := []; now := 0; calls := [] |}.

Definition set_refCount (v : Z) (mg : sessionManager) : sessionManager :=
  mkManager v (m_ctx mg) (timeout mg) (sessions mg) (conns mg).
Definition set_m_ctx (v : context) (mg : sessionManager) : sessionManager :=
  mkManager (refCount mg) v (timeout mg) (sessions mg) (conns mg).
Definition set_sessions (v : gmap sessionKey loc) (mg : sessionManager)
  : sessionManager :=
  mkManager (refCount mg) (m_ctx mg) (timeout mg) v (conns mg).
Definition set_conns (v : gset Z) (mg : sessionManager) : sessionManager :=
  mkManager (refCount mg) (m_ctx mg) (timeout mg) (sessions mg) v.

Definition set_m (v : sessionManager) (w : world) : world :=
  mkWorld v (session_heap w) (conn_heap w) (tasks w) (pumps w) (now w) (calls w).
Definition set_session_heap (v : list session) (w : world) : world :=
  mkWorld (m w) v (conn_heap w) (tasks w) (pumps w) (now w) (calls w).
Definition set_conn_heap (v : list Conn) (w : world) : world :=
  mkWorld (m w) (session_heap w) v (tasks w) (pumps w) (now w) (calls w).
Definition set_tasks (v : list task) (w : world) : world :=
  mkWorld (m w) (session_heap w) (conn_heap w) v (pumps w) (now w) (calls w).
Definition set_pumps (v : list Z) (w : world) : world :=
  mkWorld (m w) (session_heap w) (conn_heap w) (tasks w) v (now w) (calls w).
Definition set_now (v : Z) (w : world) : world :=
  mkWorld (m w) (session_heap w) (conn_heap w) (tasks w) (pumps w) v (calls w).
Definition set_calls (v : quic_log) (w : world) : world :=
  mkWorld (m w) (session_heap w) (conn_heap w) (tasks w) (pumps w) (now w) v.

Definition set_counter (v : Z) (s : session) : session :=
  mkSession (created s) v (conn s).
Definition set_task_pc (v : pc) (t : task) : task :=
  mkTask (task_kind t) (task_str t) (task_session t) (task_key t) v.

(** Reading through a pointer. *)
Definition load {A} (heap : list A) (p : option loc) : go A :=
  match p with
  | None => nil_dereference
  | Some l =>
      match heap !! l with
      | Some a => ret a
      | None => nil_dereference
      end
  end.

(** A method of [*Conn] called through the pointer [p]: [f] runs on the
    object [p] points to. *)
Definition on_conn (p : option loc) (f : Conn → Conn) (w : world) : go world :=
  c ← load (conn_heap w) p;
  ret (set_conn_heap (<[default 0%nat p := f c]> (conn_heap w)) w).

(** A method of a raw QUIC stream: the call is logged. *)
Definition on_stream (s : quic_Stream) (call : stream_call) (w : world) : go world :=
  match s with
  | None => nil_dereference
  | Some r => ret (set_calls (calls w ++ [(r, call)]) w)
  end.

(** The tail shared by [AddStream] and [AddUniStream]: the stream has to
    wait for its session.  [sess.counter++], [m.refCount.Add(1)], and the
    goroutine. *)
Definition park (k : kind) (s : quic_Stream) (l : loc) (key : sessionKey)
    (w : world) : go world :=
  sess ← load (session_heap w) (Some l);
  let w := set_session_heap
             (<[l := set_counter (int (counter sess + 1)) sess]> (session_heap w)) w in
  let w := set_m (set_refCount (refCount (m w) + 1) (m w)) w in
  ret (set_tasks (tasks w ++ [mkTask k s l key Spawned]) w).

(** [sess = &session{created: make(chan struct{})}; m.sessions[key] = sess] *)
Definition new_pending (key : sessionKey) (w : world) : loc * world :=
  let l := length (session_heap w) in
  let w := set_session_heap (session_heap w ++ [mkSession false 0 None]) w in
  (l, set_m (set_sessions (<[key := l]> (sessions (m w))) (m w)) w).

Definition AddStream (qconn : Z) (s : quic_Stream) (id : Z) (w : world) : go world :=
  let key : sessionKey := (qconn, id) in
  match sessions (m w) !! key with
  | Some l =>
      sess ← load (session_heap w) (Some l);
      match conn sess with
      | Some cl => on_conn (Some cl) (addStream s) w
      | None => park Bidi s l key w
      end
  | None =>
      let '(l, w) := new_pending key w in
      park Bidi s l key w
  end.

Definition AddUniStream (qconn : Z) (s : quic_ReceiveStream) (id : Z) (w : world)
  : go world :=
  let key : sessionKey := (qconn, id) in
  match sessions (m w) !! key with
  | Some l =>
      sess ← load (session_heap w) (Some l);
      match conn sess with
      | Some cl => on_conn (Some cl) (addUniStream s) w
      | None => park Uni s l key w
      end
  | None =>
      let '(l, w) := new_pending key w in
      park Uni s l key w
  end.

(** The cases of the [select] of [handleStream] and [handleUniStream]. *)
Inductive wake_case : Type :=
| case_session_conn_ctx_Done   (* <-session.conn.ctx.Done(), uni only *)
| case_session_created         (* <-session.created *)
| case_timer                   (* <-t.C *)
| case_m_ctx_Done.             (* <-m.ctx.Done() *)

(** [handleStream] up to its [select]: the timer is armed; the channel
    operands of the cases ([session.created], [t.C], [m.ctx.Done()]) need
    no pointer but [session] itself. *)
Definition handleStream_enter (t : task) (w : world) : go task :=
  let deadline := now w + timeout (m w) in
  ret (set_task_pc (Waiting deadline None) t).

(** [handleUniStream] up to its [select].  On entering a [select] Go
    evaluates the channel operand of every case, in source order; the
    first one is [session.conn.ctx.Done()], which reads [ctx] through the
    pointer [session.conn]. *)
Definition handleUniStream_enter (t : task) (w : world) : go task :=
  let deadline := now w + timeout (m w) in
  sess ← load (session_heap w) (Some (task_session t));
  _ ← load (conn_heap w) (conn sess);
  ret (set_task_pc (Waiting deadline (conn sess)) t).

(** The [select] of [handleStream] fires with case [k] and its body runs;
    [None] when the case is not ready. *)
Definition handleStream_select (k : wake_case) (deadline : Z) (t : task)
    (w : world) : option (go world) :=
  match k with
  | case_session_conn_ctx_Done => None
  | case_session_created =>
      match load (session_heap w) (Some (task_session t)) with
      | ret sess =>
          if created sess
          then Some (on_conn (conn sess) (addStream (task_str t)) w)
          else None
      | panic msg => Some (panic msg)
      end
  | case_timer =>
      if deadline <=? now w then
        Some (w ← on_stream (task_str t)
                    (CallCancelRead WebTransportBufferedStreamRejectedErrorCode) w;
              on_stream (task_str t)
                    (CallCancelWrite WebTransportBufferedStreamRejectedErrorCode) w)
      else None
  | case_m_ctx_Done =>
      if ctx_Done (m_ctx (m w)) then Some (ret w) else None
  end.

Definition handleUniStream_select (k : wake_case) (deadline : Z)
    (conn_ctx : option loc) (t : task) (w : world) : option (go world) :=
  match k with
  | case_session_conn_ctx_Done =>
      match load (conn_heap w) conn_ctx with
      | ret c => if ctx_Done (ctx c) then Some (ret w) else None
      | panic msg => Some (panic msg)
      end
  | case_session_created =>
      match load (session_heap w) (Some (task_session t)) with
      | ret sess =>
          if created sess
          then Some (on_conn (conn sess) (addUniStream (task_str t)) w)
          else None
      | panic msg => Some (panic msg)
      end
  | case_timer =>
      if deadline <=? now w then
        Some (on_stream (task_str t)
                (CallCancelRead WebTransportBufferedStreamRejectedErrorCode) w)
      else None
  | case_m_ctx_Done =>
      if ctx_Done (m_ctx (m w)) then Some (ret w) else None
  end.

(** The end of [handleStream] and of [handleUniStream], the critical
    section after the [select], and the deferred [m.refCount.Done()]. *)
Definition handleStream_leave (t : task) (w : world) : go world :=
  sess ← load (session_heap w) (Some (task_session t));
  let sess := set_counter (int (counter sess - 1)) sess in
  let w := set_session_heap (<[task_session t := sess]> (session_heap w)) w in
  let w :=
    if decide (counter sess = 0 ∧ conn sess = None)
    then set_m (set_sessions (delete (task_key t) (sessions (m w))) (m w)) w
    else w in
  ret (set_m (set_refCount (refCount (m w) - 1) (m w)) w).

(** [close(sess.created)]; closing a closed channel panics. *)
Definition close_created (s : session) : go session :=
  if created s then panic "close of closed channel"
  else ret (mkSession true (counter s) (conn s)).

Definition AddSession (qconn : Z) (id : Z) (c : option loc) (w : world) : go world :=
  let key : sessionKey := (qconn, id) in
  match sessions (m w) !! key with
  | Some l =>
      sess ← load (session_heap w) (Some l);
      let sess := mkSession (created sess) (counter sess) c in
      sess ← close_created sess;
      ret (set_session_heap (<[l := sess]> (session_heap w)) w)
  | None =>
      let l := length (session_heap w) in
      let w := set_session_heap (session_heap w ++ [mkSession true 0 c]) w in
      let w := set_m (set_sessions (<[key := l]> (sessions (m w))) (m w)) w in
      if decide (qconn ∈ conns (m w)) then ret w
      else
        let w := set_m (set_conns ({[qconn]} ∪ conns (m w)) (m w)) w in
        ret (set_pumps (pumps w ++ [qconn]) w)
  end.

(** The tail of [Dialer.Dial] after the CONNECT request has succeeded:
    [newConn] allocates the session object, [AddSession] registers it. *)
Definition Dial_register (parent : context) (qconn id requestStr : Z) (w : world)
  : go world :=
  let cl := length (conn_heap w) in
  let w := set_conn_heap (conn_heap w ++ [newConn parent id qconn requestStr]) w in
  AddSession qconn id (Some cl) w.

(** One turn of the loop of [handleDatagram]; [msg] is what
    [qconn.ReceiveMessage] returned.  The flag tells whether the loop goes
    on. *)
Definition handleDatagram (qconn : Z) (msg : result bytes) (w : world)
  : go (bool * world) :=
  match msg with
  | Err _ => ret (false, w)
  | Ok data =>
      match quicvarint.Read data with
      | None => ret (true, w)
      | Some (v, _) =>
          let sessionID := v in
          let key : sessionKey := (qconn, sessionID) in
          match sessions (m w) !! key with
          | Some l =>
              sess ← load (session_heap w) (Some l);
              w ← on_conn (conn sess) (handleDatagram (drop 1 data)) w;
              ret (true, w)
          | None => ret (true, w)
          end
      end
  end.

(** [Close] cancels the manager's context (and then waits for the
    goroutines, which is not a step of its own). *)
Definition Close (w : world) : world :=
  set_m (set_m_ctx (cancel (m_ctx (m w))) (m w)) w.

(** *** Histories of the manager *)

(** The atomic steps of the goroutines around one manager.  A parked
    stream [i] (its index in [tasks]) enters its [select], the [select]
    fires, and the goroutine leaves; pump [i] (its index in [pumps]) takes
    one turn of its loop; time passes; the dialer is closed; somebody uses
    the session object at [cl]. *)
Inductive event : Type :=
| EvAddStream (qconn : Z) (s : quic_Stream) (id : Z)
| EvAddUniStream (qconn : Z) (s : quic_ReceiveStream) (id : Z)
| EvDial (parent : context) (qconn id requestStr : Z)
| EvEnter (i : nat)
| EvSelect (i : nat) (k : wake_case)
| EvLeave (i : nat)
| EvDatagram (i : nat) (msg : result bytes)
| EvTick (d : Z)
| EvClose
| EvConn (cl : loc) (ev : conn_event).

Definition set_task (i : nat) (t : task) (w : world) : world :=
  set_tasks (<[i := t]> (tasks w)) w.

(** One step; [None] when the step cannot be taken in [w]. *)
Definition step (ev : event) (w : world) : option (go world) :=
  match ev with
  | EvAddStream qconn s id => Some (AddStream qconn s id w)
  | EvAddUniStream qconn s id => Some (AddUniStream qconn s id w)
  | EvDial parent qconn id requestStr =>
      Some (Dial_register parent qconn id requestStr w)
  | EvEnter i =>
      t ← tasks w !! i;
      match task_pc t with
      | Spawned =>
          Some (t ← match task_kind t with
                    | Bidi => handleStream_enter t w
                    | Uni => handleUniStream_enter t w
                    end;
                ret (set_task i t w))
      | _ => None
      end
  | EvSelect i k =>
      t ← tasks w !! i;
      match task_pc t with
      | Waiting deadline conn_ctx =>
          r ← match task_kind t with
              | Bidi => handleStream_select k deadline t w
              | Uni => handleUniStream_select k deadline conn_ctx t w
              end;
          Some (w ← r; ret (set_task i (set_task_pc Leaving t) w))
      | _ => None
      end
  | EvLeave i =>
      t ← tasks w !! i;
      match task_pc t with
      | Leaving =>
          Some (w ← handleStream_leave t w;
                ret (set_tasks (delete i (tasks w)) w))
      | _ => None
      end
  | EvDatagram i msg =>
      qconn ← pumps w !! i;
      Some ('(continue, w) ← handleDatagram qconn msg w;
            ret (if continue : bool then w
                 else set_pumps (delete i (pumps w)) w))
  | EvTick d =>
      if decide (0 ≤ d) then Some (ret (set_now (now w + d) w)) else None
  | EvClose => Some (ret (Close w))
  | EvConn cl ev =>
      c ← conn_heap w !! cl;
      '(_, c) ← conn_step ev c;
      Some (ret (set_conn_heap (<[cl := c]> (conn_heap w)) w))
  end.

(** A history runs until it ends, gets stuck ([None]) or panics. *)
Fixpoint run (evs : list event) (w : world) : option (go world) :=
  match evs with
  | [] => Some (ret w)
  | ev :: evs =>
      r ← step ev w;
      match r with
      | ret w => run evs w
      | panic msg => Some (panic msg)
      end
  end.

(** The number of parked streams that hold a pointer to the session at
    [l]. *)
Definition waiters (l : loc) (ts : list task) : nat :=
  length (filter (λ t, task_session t = l) ts).

(** *** The invariant of the map *)

(** The shape of the manager between critical sections: every entry of
    the map points to a session object whose [counter] is the number of
    parked streams that hold it, and which has a waiter or a session
    attached; no two keys share an object; every parked stream holds the
    object its key is mapped to. *)
Definition consistent (ss : gmap sessionKey loc) (heap : list session)
    (ts : list task) : Prop :=
  (∀ key l, ss !! key = Some l →
     ∃ sess, heap !! l = Some sess
             ∧ counter sess = Z.of_nat (waiters l ts)
             ∧ (counter sess = 0 → conn sess ≠ None))
  ∧ (∀ k1 k2 l, ss !! k1 = Some l → ss !! k2 = Some l → k1 = k2)
  ∧ (∀ t, t ∈ ts → ss !! task_key t = Some (task_session t)).

Definition WF (w : world) : Prop :=
  consistent (sessions (m w)) (session_heap w) (tasks w).

(** The invariant of the specification: no entry of the map has no
    waiter and no session. *)
Definition no_dead_entry (w : world) : Prop :=
  ∀ key l sess,
    sessions (m w) !! key = Some l →
    session_heap w !! l = Some sess →
    ¬ (counter sess = 0 ∧ conn sess = None).

(** The parts of the world the invariant speaks about are the same in
    [w] and [w']. *)
Definition same_sessions (w w' : world) : Prop :=
  sessions (m w') = sessions (m w)
  ∧ session_heap w' = session_heap w ∧ tasks w' = tasks w.

(** An entry that is in the map before the step [ev] and not after it
    has been removed by a parked stream that left as the last waiter
    ([counter] was 1) of a session that nobody had attached. *)
Definition removed_by_last_waiter (ev : event) (w w' : world) : Prop :=
  ∀ key, is_Some (sessions (m w) !! key) → sessions (m w') !! key = None →
    ∃ i t sess,
      ev = EvLeave i ∧ tasks w !! i = Some t ∧ task_key t = key
      ∧ session_heap w !! task_session t = Some sess
      ∧ counter sess = 1 ∧ conn sess = None.

(** What every step that returns keeps. *)
Definition preserved (ev : event) (w w' : world) : Prop :=
  WF w'
  ∧ (length (tasks w') ≤ S (length (tasks w)))%nat
  ∧ removed_by_last_waiter ev w w'.

End manager.

(** * The rest of the package *)

From stdpp Require pretty.

(** ** The stream adapters *)

(** [sendStream], [receiveStream] and [stream] forward to the raw QUIC
    stream; what the raw stream answers ([n], [err]) is an input.  The
    calls that change the state of the stream are logged as before. *)
Module adapter.

Definition raw_call (s : quic_Stream) (call : stream_call) (log : quic_log)
  : go quic_log :=
  match s with
  | None => nil_dereference
  | Some r => ret (log ++ [(r, call)])
  end.

Definition sendStream_Write (s : sendStream) (b : bytes)
    (answer : Z * option error) (log : quic_log)
  : go (Z * option error * quic_log) :=
  log ← raw_call (send_str s) (CallWrite b) log;
  let '(n, err) := answer in
  ret (n, maybeConvertStreamError err, log).

(** [sendStream.Close] hands the answer of the raw stream on as it is. *)
Definition sendStream_Close (answer : option error) : option error := answer.

Definition sendStream_CancelWrite (s : sendStream) (e : Z) (log : quic_log)
  : go quic_log :=
  raw_call (send_str s) (CallCancelWrite (webtransportCodeToHTTPCode e)) log.

Definition sendStream_SetWriteDeadline (answer : option error) : option error :=
  maybeConvertStreamError answer.

Definition receiveStream_Read (answer : Z * option error) : Z * option error :=
  let '(n, err) := answer in (n, maybeConvertStreamError err).

Definition receiveStream_CancelRead (s : receiveStream) (e : Z) (log : quic_log)
  : go quic_log :=
  raw_call (recv_str s) (CallCancelRead (webtransportCodeToHTTPCode e)) log.

Definition receiveStream_SetReadDeadline (answer : option error) : option error :=
  maybeConvertStreamError answer.

(** The methods of [stream] go through the two embedded adapters. *)
Definition stream_Read (s : stream) (answer : Z * option error)
  : Z * option error :=
  receiveStream_Read answer.

Definition stream_Write (s : stream) (b : bytes) (answer : Z * option error)
    (log : quic_log) : go (Z * option error * quic_log) :=
  sendStream_Write (stream_sendStream s) b answer log.

Definition stream_CancelRead (s : stream) (e : Z) (log : quic_log) : go quic_log :=
  receiveStream_CancelRead (stream_receiveStream s) e log.

Definition stream_CancelWrite (s : stream) (e : Z) (log : quic_log) : go quic_log :=
  sendStream_CancelWrite (stream_sendStream s) e log.

Definition stream_Close (answer : option error) : option error :=
  maybeConvertStreamError answer.

(** [stream.SetDeadline] does not convert. *)
Definition stream_SetDeadline (answer : option error) : option error := answer.

End adapter.

(** ** Opening streams with a context *)

(** [OpenStreamSync] and [OpenUniStreamSync]: [opened] is what
    [qconn.OpenStreamSync(ctx)] (resp. [OpenUniStreamSync]) returned for
    the caller's context [ctx0]; the header is written afterwards without
    looking at the context again. *)
Definition OpenStreamSync (ctx0 : context) (opened : result stream_ref)
    (env : quic_env) (c : Conn) (log : quic_log)
  : go (result stream * quic_log) :=
  match opened with
  | Err err => ret (Err err, log)
  | Ok r =>
      let s : quic_Stream := Some r in
      '(err, log) ← writeStreamHeader env c s log;
      match err with
      | Some err => ret (Err err, log)
      | None => ret (Ok (newStream s), log)
      end
  end.

Definition OpenUniStreamSync (ctx0 : context) (opened : result stream_ref)
    (env : quic_env) (c : Conn) (log : quic_log)
  : go (result sendStream * quic_log) :=
  match opened with
  | Err err => ret (Err err, log)
  | Ok r =>
      let s : quic_SendStream := Some r in
      '(err, log) ← writeUniStreamHeader env c s log;
      match err with
      | Some err => ret (Err err, log)
      | None => ret (Ok (newSendStream s), log)
      end
  end.

(** ** Shapes that the session object keeps *)


(** ** Shapes that the manager keeps *)

(** In every session object [created] is closed exactly when a session
    is attached, and an attached session is an object of the heap of
    [n] sessions. *)
Definition attached_ok (heap : list manager.session) (n : nat) : Prop :=
  ∀ l sess, heap !! l = Some sess →
    (manager.created sess = true ↔ manager.conn sess ≠ None)
    ∧ (∀ cl, manager.conn sess = Some cl → (cl < n)%nat).

(** A parked stream holds a session object of the heap of [hn] objects;
    a unidirectional one that is in its [select] has read the context of
    a session of the heap of [n] sessions. *)
Definition task_ok (hn n : nat) (t : manager.task) : Prop :=
  (manager.task_session t < hn)%nat
  ∧ (manager.task_kind t = manager.Uni →
     ∀ d cc, manager.task_pc t = manager.Waiting d cc →
             ∃ cl, cc = Some cl ∧ (cl < n)%nat).

(** No pointer of the manager dangles. *)
Definition pointers_ok (w : manager.world) : Prop :=
  attached_ok (manager.session_heap w) (length (manager.conn_heap w))
  ∧ (∀ key l, manager.sessions (manager.m w) !! key = Some l →
              (l < length (manager.session_heap w))%nat)
  ∧ Forall (task_ok (length (manager.session_heap w))
                    (length (manager.conn_heap w))) (manager.tasks w).

(** The steps at which a goroutine around the manager can panic: a
    second [Dial] for a session that is attached; a unidirectional stream
    entering its [select] while its session is not attached; the timer
    of a parked stream whose stream is nil; a datagram for a session
    that is not attached. *)
Definition panic_site (ev : manager.event) (w : manager.world) : Prop :=
  match ev with
  | manager.EvDial _ qc id _ =>
      ∃ l sess, manager.sessions (manager.m w) !! (qc, id) = Some l
                ∧ manager.session_heap w !! l = Some sess
                ∧ manager.conn sess ≠ None
  | manager.EvEnter i =>
      ∃ t sess, manager.tasks w !! i = Some t
                ∧ manager.task_pc t = manager.Spawned
                ∧ manager.task_kind t = manager.Uni
                ∧ manager.session_heap w !! manager.task_session t = Some sess
                ∧ manager.conn sess = None
  | manager.EvSelect i k =>
      ∃ t d cc, manager.tasks w !! i = Some t
                ∧ manager.task_pc t = manager.Waiting d cc
                ∧ k = manager.case_timer ∧ d ≤ manager.now w
                ∧ manager.task_str t = None
  | manager.EvDatagram i (Ok data) =>
      ∃ qc v rest l sess,
        manager.pumps w !! i = Some qc
        ∧ quicvarint.Read data = Some (v, rest)
        ∧ manager.sessions (manager.m w) !! (qc, v) = Some l
        ∧ manager.session_heap w !! l = Some sess
        ∧ manager.conn sess = None
  | _ => False
  end.

(** ** The dialer *)

Module dialer.

Import manager.

Definition io_EOF : error := errorString "EOF".

(** [quicvarint.Read(quicvarint.NewReader(str))] on a stream that has
    [incoming] to be read: the value and what is left on the stream, or
    the error of the reader when the stream ends first. *)
Definition read_id (s : quic_Stream) (incoming : bytes)
  : go (result Z * bytes) :=
  match s with
  | None => nil_dereference
  | Some _ =>
      match quicvarint.Read incoming with
      | Some (id, rest) => ret (Ok id, rest)
      | None => ret (Err io_EOF, [])
      end
  end.

(** The [StreamHijacker] that [Dialer.init] installs.  The HTTP/3 layer
    has read the frame type [ft] from the stream; the answer is the pair
    [(hijacked, err)], with what is left to read on the stream. *)
Definition StreamHijacker (ft : Z) (conn : Z) (s : quic_Stream)
    (incoming : bytes) (w : world)
  : go (bool * option error * bytes * world) :=
  if decide (ft ≠ webTransportFrameType) then ret (false, None, incoming, w)
  else
    '(id, rest) ← read_id s incoming;
    match id with
    | Err err => ret (false, Some err, rest, w)
    | Ok id =>
        w ← AddStream conn s (uint64 id) w;
        ret (true, None, rest, w)
    end.

(** The [UniStreamHijacker]: the same for a stream type [st], without an
    error in the answer. *)
Definition UniStreamHijacker (st : Z) (conn : Z) (s : quic_ReceiveStream)
    (incoming : bytes) (w : world)
  : go (bool * bytes * world) :=
  if decide (st ≠ webTransportStreamType) then ret (false, incoming, w)
  else
    '(id, rest) ← read_id s incoming;
    match id with
    | Err err => ret (false, rest, w)
    | Ok id =>
        w ← AddUniStream conn s (uint64 id) w;
        ret (true, rest, w)
    end.

(** What [Dial] sees of the response to its CONNECT request. *)
Record response := mkResponse {
  StatusCode : Z;
  Body_is_Hijacker : bool;     (* rsp.Body.(http3.Hijacker) succeeds *)
  StreamCreator : Z;           (* hijacker.StreamCreator() *)
  StreamID : Z;                (* rsp.Body.(streamIDGetter).StreamID() *)
  Stream_Context : context;    (* hijacker.Stream().Context() *)
  Body : Z
}.

(** [Dial] on a dialer that has been initialised.  [parsed] is the error
    of [url.Parse] if there is one, [roundTrip] the outcome of
    [RoundTripOpt].  The answer is the triple (response, session, error);
    the session is a pointer to the new [Conn]. *)
Definition Dial (parsed : option error) (roundTrip : result response) (w : world)
  : go (option response * option loc * option error * world) :=
  match parsed with
  | Some err => ret (None, None, Some err, w)
  | None =>
      match roundTrip with
      | Err err => ret (None, None, Some err, w)
      | Ok rsp =>
          if (StatusCode rsp <? 200) || (300 <=? StatusCode rsp) then
            ret (Some rsp, None,
                 Some (errorString ("received status " +:+ pretty.pretty (StatusCode rsp))),
                 w)
          else if negb (Body_is_Hijacker rsp) then
            ret (None, None, Some (errorString "failed to hijack"), w)
          else
            let qconn := StreamCreator rsp in
            let id := uint64 (StreamID rsp) in
            let cl := length (conn_heap w) in
            let w := set_conn_heap
                       (conn_heap w
                          ++ [newConn (Stream_Context rsp) id qconn (Body rsp)]) w in
            w ← AddSession qconn id (Some cl) w;
            ret (Some rsp, Some cl, None, w)
      end
  end.

End dialer.

(** * Properties *)

(** ** The error-code mapping *)

Section error_codes.

(** The forward mapping skips every 31st code: the offset of [n] is
    [31 * (n / 30) + n mod 30]. *)
Lemma webtransportCodeToHTTPCode_offset (n : Z) :
  webtransportCodeToHTTPCode n - firstErrorCode = 31 * (n / 30) + n mod 30.
Proof.
  unfold webtransportCodeToHTTPCode.
  pose proof (Z.div_mod n 30 ltac:(lia)). lia.
Qed.

Lemma webtransportCodeToHTTPCode_range (n : Z) :
  0 ≤ n < 2 ^ 32 →
  firstErrorCode ≤ webtransportCodeToHTTPCode n ≤ lastErrorCode.
Proof.
  intros Hn. unfold webtransportCodeToHTTPCode, lastErrorCode, firstErrorCode.
  pose proof (Z.div_mod n 30 ltac:(lia)).
  pose proof (Z.mod_pos_bound n 30 ltac:(lia)).
  change 0x1e with 30. lia.
Qed.

(** The reverse mapping succeeds exactly on the image of the forward
    mapping, which makes it the inverse the specification asks for. *)
Lemma httpCodeToWebtransportCode_inverse (h c : Z) :
  httpCodeToWebtransportCode h = (c, None) →
  0 ≤ c < 2 ^ 32 ∧ webtransportCodeToHTTPCode c = h.
Proof.
  unfold httpCodeToWebtransportCode.
  destruct (_ || _) eqn:Hrange; [discriminate|].
  apply orb_false_iff in Hrange as [H1%Z.ltb_ge H2%Z.ltb_ge].
  cbv zeta. destruct (_ =? _) eqn:Hgap; [discriminate|].
  apply Z.eqb_neq in Hgap. intros [= <-].
  unfold webtransportCodeToHTTPCode.
  unfold lastErrorCode in H2.
  set (s := h - firstErrorCode) in *.
  assert (Hs0 : 0 ≤ s ≤ 4438132871) by (unfold s, firstErrorCode in *; lia).
  change 0x1f with 31 in *. change 0x1e with 30 in *.
  pose proof (Z.div_mod s 31 ltac:(lia)) as Hs.
  pose proof (Z.mod_pos_bound s 31 ltac:(lia)) as Hm.
  assert (Hq : (s - s / 31) / 30 = s / 31).
  { symmetry. apply (Z.div_unique _ 30 _ (s mod 31)); lia. }
  rewrite Hq. split; [|unfold s; lia].
  change (2 ^ 32) with 4294967296. lia.
Qed.

Lemma httpCodeToWebtransportCode_forward (c : Z) :
  0 ≤ c < 2 ^ 32 →
  httpCodeToWebtransportCode (webtransportCodeToHTTPCode c) = (c, None).
Proof.
  intros Hc. pose proof (webtransportCodeToHTTPCode_range c Hc) as [H1 H2].
  pose proof (webtransportCodeToHTTPCode_offset c) as Hoff.
  unfold httpCodeToWebtransportCode.
  destruct (_ || _) eqn:Hrange.
  { apply orb_true_iff in Hrange as [?%Z.ltb_lt | ?%Z.ltb_lt]; lia. }
  cbv zeta. rewrite Hoff.
  pose proof (Z.mod_pos_bound c 30 ltac:(lia)) as Hm.
  pose proof (Z.div_mod c 30 ltac:(lia)) as Hd.
  assert (Hmod : (31 * (c / 30) + c mod 30) mod 31 = c mod 30).
  { symmetry. apply (Z.mod_unique _ 31 (c / 30)); lia. }
  assert (Hdiv : (31 * (c / 30) + c mod 30) / 31 = c / 30).
  { symmetry. apply (Z.div_unique _ 31 _ (c mod 30)); lia. }
  change 0x1f with 31. change 0x1e with 30.
  rewrite Hmod, Hdiv.
  destruct (_ =? _) eqn:Hgap; [apply Z.eqb_eq in Hgap; lia|].
  f_equal. lia.
Qed.

(** A code that no application code maps to is refused. *)
Lemma httpCodeToWebtransportCode_invalid (h : Z) :
  (∀ c, 0 ≤ c < 2 ^ 32 → webtransportCodeToHTTPCode c ≠ h) →
  httpCodeToWebtransportCode h = (0, Some MappingError).
Proof.
  intros Hno.
  destruct (httpCodeToWebtransportCode h) as [c [e|]] eqn:Heq.
  - revert Heq. unfold httpCodeToWebtransportCode.
    destruct (_ || _); [by intros [= <- <-]|].
    cbv zeta. destruct (_ =? _); [by intros [= <- <-]|discriminate].
  - apply httpCodeToWebtransportCode_inverse in Heq as [Hc Hh].
    by destruct (Hno c Hc).
Qed.

End error_codes.

(** C1.  Every WebTransport application error code [c] in [0, 2^32)
    survives the round trip through the HTTP/3 reset code space: encoding
    it with [webtransportCodeToHTTPCode] ([wt_to_http], the code plus the
    first reserved code plus one skipped code for every 30) and decoding
    the result with [httpCodeToWebtransportCode] ([http_to_wt]) gives [c]
    back, without an error. *)
Theorem error_code_roundtrip (c : Z) :
  0 ≤ c < 2 ^ 32 →
  webtransportCodeToHTTPCode c = firstErrorCode + c + c / 0x1e ∧
  httpCodeToWebtransportCode (webtransportCodeToHTTPCode c) = (c, None).
Proof.
  intros Hc. split; [reflexivity|].
  by apply httpCodeToWebtransportCode_forward.
Qed.

Lemma error_code_roundtrip_witness :
  httpCodeToWebtransportCode (webtransportCodeToHTTPCode 0x41) = (0x41, None).
Proof. apply (error_code_roundtrip 0x41). lia. Defined.

(** ** Converting stream errors *)

Section stream_errors.

(** [errors.As] finds a stream error only in an error that has one on
    its chain. *)
Lemma errors_As_StreamError_Is (e : error) (id code : Z) :
  errors_As_StreamError e = Some (id, code) →
  errors_Is e (quic_StreamError id code) = true.
Proof.
  induction e as [id' code'| | | |fmt args inner IH]; simpl; try discriminate.
  - intros [= -> ->]. by rewrite bool_decide_eq_true_2.
  - intros H. by rewrite (IH H).
Qed.

(** The error made for a code that cannot be converted has the mapping
    error on its chain and nothing of the error it was made from. *)
Lemma conversion_failure_chain (fmt : string) (code : Z) (e : error) (id code' : Z) :
  errors_As_StreamError e = Some (id, code') →
  errors_As_StreamError (wrapError fmt [code] MappingError) = None
  ∧ errors_Is (wrapError fmt [code] MappingError) MappingError = true
  ∧ errors_Is (wrapError fmt [code] MappingError) e = false.
Proof.
  intros He. split; [done|]. split; [done|]. simpl.
  rewrite !bool_decide_eq_false_2; [done| |]; intros <-; discriminate.
Qed.

End stream_errors.

(** C6, as the code has it.  [maybeConvertStreamError] maps [nil] to
    [nil]; an error that is or wraps a [quic.StreamError] whose code is
    the image of a WebTransport code [c] becomes a [StreamError] carrying
    [c]; an error that is or wraps a [quic.StreamError] with any other
    code becomes a new error whose message carries the raw code and which
    wraps the error of the mapping (the stream error itself is no longer
    on its chain); every other error is returned as it is. *)
Theorem maybeConvertStreamError_cases (err : option error) :
  (err = None → maybeConvertStreamError err = None) ∧
  (∀ e id c,
     err = Some e →
     errors_As_StreamError e = Some (id, webtransportCodeToHTTPCode c) →
     0 ≤ c < 2 ^ 32 →
     maybeConvertStreamError err = Some (StreamError c)) ∧
  (∀ e id code,
     err = Some e →
     errors_As_StreamError e = Some (id, code) →
     (∀ c, 0 ≤ c < 2 ^ 32 → webtransportCodeToHTTPCode c ≠ code) →
     ∃ r, maybeConvertStreamError err = Some r
          ∧ r = wrapError "stream reset, but failed to convert stream error %d: %w"
                          [code] MappingError
          ∧ errors_Is r MappingError = true
          ∧ errors_Is r e = false
          ∧ errors_As_StreamError r = None) ∧
  (∀ e,
     err = Some e →
     errors_As_StreamError e = None →
     maybeConvertStreamError err = Some e).
Proof.
  repeat split.
  - by intros ->.
  - intros e id c -> He Hc. simpl. rewrite He.
    by rewrite httpCodeToWebtransportCode_forward.
  - intros e id code -> He Hno. simpl. rewrite He.
    rewrite (httpCodeToWebtransportCode_invalid code Hno).
    eexists. split; [reflexivity|]. split; [reflexivity|].
    destruct (conversion_failure_chain
                "stream reset, but failed to convert stream error %d: %w"
                code e id code He) as (H1 & H2 & H3).
    done.
  - intros e -> He. simpl. by rewrite He.
Qed.

Lemma maybeConvertStreamError_cases_witness :
  maybeConvertStreamError None = None
  ∧ maybeConvertStreamError
      (Some (wrapError "read" [] (quic_StreamError 4 (webtransportCodeToHTTPCode 0x41))))
    = Some (StreamError 0x41)
  ∧ (∃ r, maybeConvertStreamError (Some (quic_StreamError 4 0)) = Some r
          ∧ r = wrapError "stream reset, but failed to convert stream error %d: %w"
                          [0] MappingError
          ∧ errors_Is r MappingError = true
          ∧ errors_Is r (quic_StreamError 4 0) = false
          ∧ errors_As_StreamError r = None)
  ∧ maybeConvertStreamError (Some (errorString "deadline exceeded"))
    = Some (errorString "deadline exceeded").
Proof.
  split; [|split; [|split]].
  - by apply (proj1 (maybeConvertStreamError_cases None)).
  - eapply (proj1 (proj2 (maybeConvertStreamError_cases (Some _))));
      [reflexivity|reflexivity|lia].
  - eapply (proj1 (proj2 (proj2 (maybeConvertStreamError_cases (Some _)))));
      [reflexivity|reflexivity|].
    intros c Hc. unfold webtransportCodeToHTTPCode, firstErrorCode.
    pose proof (Z.div_pos c 0x1e). lia.
  - by eapply (proj2 (proj2 (proj2 (maybeConvertStreamError_cases (Some _))))).
Defined.

(** C6, counterexample to the wording of the specification: for the reset
    code 0, which is outside the WebTransport range, the error that comes
    back does not wrap the stream error it was made from; neither
    [errors.Is] nor [errors.As] finds it. *)
Lemma maybeConvertStreamError_replaces_stream_error :
  ∃ r, maybeConvertStreamError (Some (quic_StreamError 4 0)) = Some r
       ∧ errors_Is r (quic_StreamError 4 0) = false
       ∧ errors_As_StreamError r = None.
Proof. eexists. split; [reflexivity|]. split; reflexivity. Qed.

(** ** The session object *)

Section conn_histories.

Implicit Types (c : Conn) (ev : conn_event) (evs : list conn_event)
  (o : conn_obs) (os : list conn_obs).

(** Taking one step apart. *)
Lemma conn_run_cons ev evs c os' c' :
  conn_run (ev :: evs) c = Some (os', c') →
  ∃ o c1 os, conn_step ev c = Some (o, c1)
             ∧ conn_run evs c1 = Some (os, c') ∧ os' = o :: os.
Proof.
  simpl. destruct (conn_step ev c) as [[o c1]|]; [|discriminate]. simpl.
  destruct (conn_run evs c1) as [[os c2]|] eqn:Hrun; [|discriminate]. simpl.
  intros [= <- <-]. by exists o, c1, os.
Qed.

Lemma AcceptStream_cases ctx0 c :
  match acceptQueue c with
  | Some h :: q =>
      AcceptStream ctx0 c = (Done (Ok (newStream (Some h))), set_acceptQueue q c)
  | None :: q => AcceptStream ctx0 c = (Parked, set_acceptQueue q c)
  | [] => AcceptStream ctx0 c = (Parked, c)
  end.
Proof.
  unfold AcceptStream. destruct (acceptQueue c) as [|[h|] q] eqn:Hq; simpl.
  - done.
  - destruct (decide (0 < S (length q))%nat); [done|lia].
  - destruct (decide (0 < S (length q))%nat); [done|lia].
Qed.

Lemma AcceptUniStream_cases ctx0 c :
  match acceptUniQueue c with
  | Some h :: q =>
      AcceptUniStream ctx0 c
      = (Done (Ok (newReceiveStream (Some h))), set_acceptUniQueue q c)
  | None :: q => AcceptUniStream ctx0 c = (Parked, set_acceptUniQueue q c)
  | [] => AcceptUniStream ctx0 c = (Parked, c)
  end.
Proof.
  unfold AcceptUniStream. destruct (acceptUniQueue c) as [|[h|] q] eqn:Hq; simpl.
  - done.
  - destruct (decide (0 < S (length q))%nat); [done|lia].
  - destruct (decide (0 < S (length q))%nat); [done|lia].
Qed.

(** What one step does to the queue of bidirectional streams. *)
Lemma conn_step_acceptQueue ev c o c1 :
  conn_step ev c = Some (o, c1) →
  Forall (λ s, s ≠ None) (acceptQueue c) →
  accepted [o] ++ acceptQueue c1 = acceptQueue c ++ added [ev].
Proof.
  intros Hstep Hnn. destruct ev; simpl in Hstep.
  - injection Hstep as <- <-. unfold addStream. simpl.
    by destruct (chan.try_send _ _).
  - injection Hstep as <- <-. unfold addUniStream. simpl.
    destruct (chan.try_send _ _); simpl; by rewrite app_nil_r.
  - pose proof (AcceptStream_cases ctx0 c) as Hc.
    destruct (AcceptStream ctx0 c) as [r c2]. injection Hstep as <- <-.
    destruct (acceptQueue c) as [|[h|] q] eqn:Hq; simplify_eq.
    + simpl. by rewrite Hq.
    + simpl. by rewrite app_nil_r.
    + by apply Forall_cons_1 in Hnn as [[] _].
  - destruct k; simpl in Hstep.
    + destruct (ctx c); simplify_option_eq. simpl. by rewrite app_nil_r.
    + destruct ctx0; simplify_option_eq. simpl. by rewrite app_nil_r.
    + destruct (chan.try_recv _) as [[? ?]|]; simplify_option_eq. simpl.
      by rewrite app_nil_r.
  - pose proof (AcceptUniStream_cases ctx0 c) as Hc.
    destruct (AcceptUniStream ctx0 c) as [r c2]. injection Hstep as <- <-.
    simpl. rewrite app_nil_r.
    by destruct (acceptUniQueue c) as [|[h|] q]; simplify_eq.
  - destruct k; simpl in Hstep.
    + destruct (ctx c); simplify_option_eq. simpl. by rewrite app_nil_r.
    + destruct ctx0; simplify_option_eq. simpl. by rewrite app_nil_r.
    + destruct (chan.try_recv _) as [[? ?]|]; simplify_option_eq. simpl.
      by rewrite app_nil_r.
  - injection Hstep as <- <-. unfold handleDatagram. simpl.
    destruct (chan.try_send _ _); simpl; by rewrite app_nil_r.
  - destruct k; simpl in Hstep.
    + destruct (chan.try_recv _) as [[? ?]|]; simplify_option_eq. simpl.
      by rewrite app_nil_r.
    + destruct (ctx_Done _); simplify_option_eq. simpl. by rewrite app_nil_r.
  - injection Hstep as <- <-. simpl. by rewrite app_nil_r.
Qed.

Lemma conn_step_acceptUniQueue ev c o c1 :
  conn_step ev c = Some (o, c1) →
  Forall (λ s, s ≠ None) (acceptUniQueue c) →
  acceptedUni [o] ++ acceptUniQueue c1 = acceptUniQueue c ++ addedUni [ev].
Proof.
  intros Hstep Hnn. destruct ev; simpl in Hstep.
  - injection Hstep as <- <-. unfold addStream. simpl.
    destruct (chan.try_send _ _); simpl; by rewrite app_nil_r.
  - injection Hstep as <- <-. unfold addUniStream. simpl.
    by destruct (chan.try_send _ _).
  - pose proof (AcceptStream_cases ctx0 c) as Hc.
    destruct (AcceptStream ctx0 c) as [r c2]. injection Hstep as <- <-.
    simpl. rewrite app_nil_r.
    by destruct (acceptQueue c) as [|[h|] q]; simplify_eq.
  - destruct k; simpl in Hstep.
    + destruct (ctx c); simplify_option_eq. simpl. by rewrite app_nil_r.
    + destruct ctx0; simplify_option_eq. simpl. by rewrite app_nil_r.
    + destruct (chan.try_recv _) as [[? ?]|]; simplify_option_eq. simpl.
      by rewrite app_nil_r.
  - pose proof (AcceptUniStream_cases ctx0 c) as Hc.
    destruct (AcceptUniStream ctx0 c) as [r c2]. injection Hstep as <- <-.
    destruct (acceptUniQueue c) as [|[h|] q] eqn:Hq; simplify_eq.
    + simpl. by rewrite Hq.
    + simpl. by rewrite app_nil_r.
    + by apply Forall_cons_1 in Hnn as [[] _].
  - destruct k; simpl in Hstep.
    + destruct (ctx c); simplify_option_eq. simpl. by rewrite app_nil_r.
    + destruct ctx0; simplify_option_eq. simpl. by rewrite app_nil_r.
    + destruct (chan.try_recv _) as [[? ?]|]; simplify_option_eq. simpl.
      by rewrite app_nil_r.
  - injection Hstep as <- <-. unfold handleDatagram. simpl.
    destruct (chan.try_send _ _); simpl; by rewrite app_nil_r.
  - destruct k; simpl in Hstep.
    + destruct (chan.try_recv _) as [[? ?]|]; simplify_option_eq. simpl.
      by rewrite app_nil_r.
    + destruct (ctx_Done _); simplify_option_eq. simpl. by rewrite app_nil_r.
  - injection Hstep as <- <-. simpl. by rewrite app_nil_r.
Qed.

Lemma added_cons ev evs : added (ev :: evs) = added [ev] ++ added evs.
Proof. unfold added. simpl. by destruct ev. Qed.
Lemma addedUni_cons ev evs : addedUni (ev :: evs) = addedUni [ev] ++ addedUni evs.
Proof. unfold addedUni. simpl. by destruct ev. Qed.
Lemma arrived_cons ev evs : arrived (ev :: evs) = arrived [ev] ++ arrived evs.
Proof. unfold arrived. simpl. by destruct ev. Qed.
Lemma accepted_cons o os : accepted (o :: os) = accepted [o] ++ accepted os.
Proof. unfold accepted. simpl. by destruct o as [[[]|]| | |]. Qed.
Lemma acceptedUni_cons o os :
  acceptedUni (o :: os) = acceptedUni [o] ++ acceptedUni os.
Proof. unfold acceptedUni. simpl. by destruct o as [|[[]|]| |]. Qed.
Lemma received_cons o os : received (o :: os) = received [o] ++ received os.
Proof. unfold received. simpl. by destruct o as [| |[]|]. Qed.

(** Along any history, what has been accepted followed by what is still
    queued is what has been added, in the order of adding. *)
Lemma conn_run_acceptQueue evs c os c' :
  conn_run evs c = Some (os, c') →
  Forall (λ s, s ≠ None) (acceptQueue c ++ added evs) →
  accepted os ++ acceptQueue c' = acceptQueue c ++ added evs.
Proof.
  revert c os. induction evs as [|ev evs IH]; intros c os Hrun Hnn.
  - injection Hrun as <- <-. by rewrite app_nil_r.
  - apply conn_run_cons in Hrun as (o & c1 & os1 & Hstep & Hrun & ->).
    rewrite added_cons, app_assoc in Hnn |- *.
    apply Forall_app in Hnn as [Hnn1 Hnn2].
    apply Forall_app in Hnn1 as Hnn1'. destruct Hnn1' as [Hq Hev].
    pose proof (conn_step_acceptQueue _ _ _ _ Hstep Hq) as Hone.
    rewrite accepted_cons, <- app_assoc, <- Hone, <- app_assoc. f_equal.
    apply IH; [done|]. apply Forall_app. split; [|done].
    rewrite <- Hone in Hnn1. by apply Forall_app in Hnn1 as [_ ?].
Qed.

Lemma conn_run_acceptUniQueue evs c os c' :
  conn_run evs c = Some (os, c') →
  Forall (λ s, s ≠ None) (acceptUniQueue c ++ addedUni evs) →
  acceptedUni os ++ acceptUniQueue c' = acceptUniQueue c ++ addedUni evs.
Proof.
  revert c os. induction evs as [|ev evs IH]; intros c os Hrun Hnn.
  - injection Hrun as <- <-. by rewrite app_nil_r.
  - apply conn_run_cons in Hrun as (o & c1 & os1 & Hstep & Hrun & ->).
    rewrite addedUni_cons, app_assoc in Hnn |- *.
    apply Forall_app in Hnn as [Hnn1 Hnn2].
    apply Forall_app in Hnn1 as Hnn1'. destruct Hnn1' as [Hq Hev].
    pose proof (conn_step_acceptUniQueue _ _ _ _ Hstep Hq) as Hone.
    rewrite acceptedUni_cons, <- app_assoc, <- Hone, <- app_assoc. f_equal.
    apply IH; [done|]. apply Forall_app. split; [|done].
    rewrite <- Hone in Hnn1. by apply Forall_app in Hnn1 as [_ ?].
Qed.

End conn_histories.

Section datagram_queue.

Implicit Types (c : Conn) (ev : conn_event) (evs : list conn_event)
  (o : conn_obs) (os : list conn_obs).

(** What one step does to the datagram queue: it keeps its capacity,
    stays within it, and either takes the arrival in at the back, hands
    the front out, or stays as it is. *)
Lemma conn_step_rcvDatagramQueue ev c o c1 :
  conn_step ev c = Some (o, c1) →
  (length (chan.buf (rcvDatagramQueue c)) ≤ chan.cap (rcvDatagramQueue c))%nat →
  chan.cap (rcvDatagramQueue c1) = chan.cap (rcvDatagramQueue c)
  ∧ (length (chan.buf (rcvDatagramQueue c1)) ≤ chan.cap (rcvDatagramQueue c))%nat
  ∧ ∃ kept, kept `sublist_of` arrived [ev]
            ∧ received [o] ++ chan.buf (rcvDatagramQueue c1)
              = chan.buf (rcvDatagramQueue c) ++ kept.
Proof.
  intros Hstep Hlen.
  assert (Hsame : ∀ c', rcvDatagramQueue c' = rcvDatagramQueue c →
            received [o] = [] → arrived [ev] = [] →
            chan.cap (rcvDatagramQueue c') = chan.cap (rcvDatagramQueue c)
            ∧ (length (chan.buf (rcvDatagramQueue c'))
               ≤ chan.cap (rcvDatagramQueue c))%nat
            ∧ ∃ kept, kept `sublist_of` arrived [ev]
                      ∧ received [o] ++ chan.buf (rcvDatagramQueue c')
                        = chan.buf (rcvDatagramQueue c) ++ kept).
  { intros c' -> -> ->. split; [done|]. split; [done|].
    exists []. split; [done|]. by rewrite app_nil_r. }
  destruct ev; simpl in Hstep.
  - simplify_eq. apply Hsame; [|done..]. unfold addStream.
    by destruct (chan.try_send _ _).
  - simplify_eq. apply Hsame; [|done..]. unfold addUniStream.
    by destruct (chan.try_send _ _).
  - pose proof (AcceptStream_cases ctx0 c) as Hc.
    destruct (AcceptStream ctx0 c) as [r c2]. simplify_eq.
    apply Hsame; [|by destruct r as [[]|]|done].
    by destruct (acceptQueue c) as [|[h|] q]; simplify_eq.
  - destruct k; simpl in Hstep.
    + destruct (ctx c); simplify_option_eq. by apply Hsame.
    + destruct ctx0; simplify_option_eq. by apply Hsame.
    + destruct (chan.try_recv _) as [[? ?]|]; simplify_option_eq. by apply Hsame.
  - pose proof (AcceptUniStream_cases ctx0 c) as Hc.
    destruct (AcceptUniStream ctx0 c) as [r c2]. simplify_eq.
    apply Hsame; [|by destruct r as [[]|]|done].
    by destruct (acceptUniQueue c) as [|[h|] q]; simplify_eq.
  - destruct k; simpl in Hstep.
    + destruct (ctx c); simplify_option_eq. by apply Hsame.
    + destruct ctx0; simplify_option_eq. by apply Hsame.
    + destruct (chan.try_recv _) as [[? ?]|]; simplify_option_eq. by apply Hsame.
  - simplify_eq. clear Hsame. unfold handleDatagram, chan.try_send.
    destruct (decide _) as [Hroom|Hfull]; simpl.
    + split; [done|]. split; [rewrite length_app; simpl; lia|].
      by exists [data].
    + split; [done|]. split; [done|]. exists []. split.
      * apply sublist_nil_l.
      * by rewrite app_nil_r.
  - destruct k; simpl in Hstep.
    + clear Hsame. unfold chan.try_recv in Hstep.
      destruct (chan.buf (rcvDatagramQueue c)) as [|d rest] eqn:Hbuf;
        simplify_option_eq.
      split; [done|]. split; [lia|]. exists []. split; [done|].
      by rewrite app_nil_r.
    + destruct (ctx_Done _); simplify_option_eq. by apply Hsame.
  - simplify_eq. by apply Hsame.
Qed.

(** Along any history the datagrams handed out, followed by the ones
    still queued, are the ones queued at the start followed by a
    subsequence of the arrivals. *)
Lemma conn_run_rcvDatagramQueue evs c os c' :
  conn_run evs c = Some (os, c') →
  (length (chan.buf (rcvDatagramQueue c)) ≤ chan.cap (rcvDatagramQueue c))%nat →
  chan.cap (rcvDatagramQueue c') = chan.cap (rcvDatagramQueue c)
  ∧ (length (chan.buf (rcvDatagramQueue c')) ≤ chan.cap (rcvDatagramQueue c))%nat
  ∧ ∃ kept, kept `sublist_of` arrived evs
            ∧ received os ++ chan.buf (rcvDatagramQueue c')
              = chan.buf (rcvDatagramQueue c) ++ kept.
Proof.
  revert c os. induction evs as [|ev evs IH]; intros c os Hrun Hlen.
  - injection Hrun as <- <-. split; [done|]. split; [done|].
    exists []. split; [done|]. by rewrite app_nil_r.
  - apply conn_run_cons in Hrun as (o & c1 & os1 & Hstep & Hrun & ->).
    destruct (conn_step_rcvDatagramQueue _ _ _ _ Hstep Hlen)
      as (Hcap1 & Hlen1 & kept1 & Hsub1 & Heq1).
    rewrite <- Hcap1 in Hlen1.
    destruct (IH _ _ Hrun Hlen1) as (Hcap2 & Hlen2 & kept2 & Hsub2 & Heq2).
    split; [congruence|]. split; [congruence|].
    exists (kept1 ++ kept2). split.
    + rewrite arrived_cons. by apply sublist_app.
    + rewrite received_cons, <- app_assoc, Heq2, !app_assoc. by rewrite Heq1.
Qed.

(** The channel follows the policy of the specification step by step. *)
Lemma conn_step_enqueued ev c o c1 evs :
  conn_step ev c = Some (o, c1) →
  chan.cap (rcvDatagramQueue c1) = chan.cap (rcvDatagramQueue c)
  ∧ received [o] ++ chan.buf (rcvDatagramQueue c1)
      ++ enqueued (chan.cap (rcvDatagramQueue c))
           (length (chan.buf (rcvDatagramQueue c1))) evs
    = chan.buf (rcvDatagramQueue c)
      ++ enqueued (chan.cap (rcvDatagramQueue c))
           (length (chan.buf (rcvDatagramQueue c))) (ev :: evs).
Proof.
  intros Hstep.
  assert (Hsame : ∀ c', rcvDatagramQueue c' = rcvDatagramQueue c →
            received [o] = [] →
            enqueued (chan.cap (rcvDatagramQueue c))
              (length (chan.buf (rcvDatagramQueue c))) (ev :: evs)
            = enqueued (chan.cap (rcvDatagramQueue c))
                (length (chan.buf (rcvDatagramQueue c))) evs →
            chan.cap (rcvDatagramQueue c') = chan.cap (rcvDatagramQueue c)
            ∧ received [o] ++ chan.buf (rcvDatagramQueue c')
                ++ enqueued (chan.cap (rcvDatagramQueue c))
                     (length (chan.buf (rcvDatagramQueue c'))) evs
              = chan.buf (rcvDatagramQueue c)
                ++ enqueued (chan.cap (rcvDatagramQueue c))
                     (length (chan.buf (rcvDatagramQueue c))) (ev :: evs)).
  { by intros c' -> -> ->. }
  destruct ev; simpl in Hstep.
  - simplify_eq. apply Hsame; [|done..]. unfold addStream.
    by destruct (chan.try_send _ _).
  - simplify_eq. apply Hsame; [|done..]. unfold addUniStream.
    by destruct (chan.try_send _ _).
  - pose proof (AcceptStream_cases ctx0 c) as Hc.
    destruct (AcceptStream ctx0 c) as [r c2]. simplify_eq.
    apply Hsame; [|by destruct r as [[]|]|done].
    by destruct (acceptQueue c) as [|[h|] q]; simplify_eq.
  - destruct k; simpl in Hstep.
    + destruct (ctx c); simplify_option_eq. by apply Hsame.
    + destruct ctx0; simplify_option_eq. by apply Hsame.
    + destruct (chan.try_recv _) as [[? ?]|]; simplify_option_eq. by apply Hsame.
  - pose proof (AcceptUniStream_cases ctx0 c) as Hc.
    destruct (AcceptUniStream ctx0 c) as [r c2]. simplify_eq.
    apply Hsame; [|by destruct r as [[]|]|done].
    by destruct (acceptUniQueue c) as [|[h|] q]; simplify_eq.
  - destruct k; simpl in Hstep.
    + destruct (ctx c); simplify_option_eq. by apply Hsame.
    + destruct ctx0; simplify_option_eq. by apply Hsame.
    + destruct (chan.try_recv _) as [[? ?]|]; simplify_option_eq. by apply Hsame.
  - simplify_eq. clear Hsame. unfold handleDatagram, chan.try_send. simpl.
    destruct (decide _) as [Hroom|Hfull]; simpl; [|done].
    split; [done|]. rewrite length_app, <- app_assoc. simpl.
    by rewrite Nat.add_1_r.
  - destruct k; simpl in Hstep.
    + clear Hsame. unfold chan.try_recv in Hstep.
      destruct (chan.buf (rcvDatagramQueue c)) as [|d rest] eqn:Hbuf;
        simplify_option_eq.
      done.
    + destruct (ctx_Done _); simplify_option_eq. by apply Hsame.
  - simplify_eq. by apply Hsame.
Qed.

Lemma conn_run_enqueued evs c os c' :
  conn_run evs c = Some (os, c') →
  received os ++ chan.buf (rcvDatagramQueue c')
  = chan.buf (rcvDatagramQueue c)
    ++ enqueued (chan.cap (rcvDatagramQueue c))
         (length (chan.buf (rcvDatagramQueue c))) evs.
Proof.
  revert c os. induction evs as [|ev evs IH]; intros c os Hrun.
  - injection Hrun as <- <-. by rewrite app_nil_r.
  - apply conn_run_cons in Hrun as (o & c1 & os1 & Hstep & Hrun & ->).
    destruct (conn_step_enqueued _ _ _ _ evs Hstep) as [Hcap Heq].
    rewrite received_cons, <- app_assoc, (IH _ _ Hrun), Hcap. exact Heq.
Qed.

(** The two ways [handleDatagram] can go. *)
Lemma handleDatagram_cases (data : bytes) c :
  ((length (chan.buf (rcvDatagramQueue c)) < chan.cap (rcvDatagramQueue c))%nat →
   chan.buf (rcvDatagramQueue (handleDatagram data c))
   = chan.buf (rcvDatagramQueue c) ++ [data]
   ∧ logger (handleDatagram data c) = logger c)
  ∧ ((chan.cap (rcvDatagramQueue c) ≤ length (chan.buf (rcvDatagramQueue c)))%nat →
     rcvDatagramQueue (handleDatagram data c) = rcvDatagramQueue c
     ∧ logger (handleDatagram data c)
       = logger c ++ [("Discarding DATAGRAM frame (%d bytes payload)"%string,
                       [Z.of_nat (length data)])]).
Proof.
  unfold handleDatagram, chan.try_send.
  split; intros H; destruct (decide _); try lia; done.
Qed.

(** Scenario 4 of the specification: 200 datagrams arrive faster than
    they are read, then the reader drains the queue.  The first 128 are
    handed out in order, the other 72 have been dropped and logged. *)
Lemma datagram_overflow_scenario :
  ∃ os c,
    conn_run (map (λ i, EvHandleDatagram [Z.of_nat i]) (seq 0 200)
              ++ replicate 128 (EvReceiveMessage case_rcvDatagramQueue))
             (newConn None 5 1 0) = Some (os, c)
    ∧ received os = map (λ i, [Z.of_nat i]) (seq 0 128)
    ∧ chan.buf (rcvDatagramQueue c) = []
    ∧ length (logger c) = 72%nat.
Proof.
  eexists _, _. split; [vm_compute; reflexivity|].
  repeat split; vm_compute; reflexivity.
Qed.

End datagram_queue.

(** C5.  For every history of a session, that is every interleaving of
    datagram arrivals ([handleDatagram]), dequeues ([ReceiveMessage]) and
    the other steps taken on the session: the datagram queue never holds
    more than 128 entries; the datagrams handed out by [ReceiveMessage],
    followed by the ones still queued, are exactly the arrivals that were
    enqueued, in arrival order, and these are a subsequence of all
    arrivals (so what is handed out is a prefix of what was enqueued);
    and when a further datagram arrives it is appended at the back if
    there is room, and otherwise dropped with a log entry while the queue
    keeps all its entries. *)
Theorem datagram_queue_bounded_fifo
    (parent : context) (sid qc rs : Z) (evs : list conn_event)
    (os : list conn_obs) (c : Conn) (data : bytes) :
  conn_run evs (newConn parent sid qc rs) = Some (os, c) →
  (length (chan.buf (rcvDatagramQueue c)) ≤ 128)%nat
  ∧ received os ++ chan.buf (rcvDatagramQueue c) = enqueued 128 0 evs
  ∧ enqueued 128 0 evs `sublist_of` arrived evs
  ∧ ((length (chan.buf (rcvDatagramQueue c)) < 128)%nat →
     chan.buf (rcvDatagramQueue (handleDatagram data c))
     = chan.buf (rcvDatagramQueue c) ++ [data]
     ∧ logger (handleDatagram data c) = logger c)
  ∧ (length (chan.buf (rcvDatagramQueue c)) = 128%nat →
     rcvDatagramQueue (handleDatagram data c) = rcvDatagramQueue c
     ∧ logger (handleDatagram data c)
       = logger c ++ [("Discarding DATAGRAM frame (%d bytes payload)"%string,
                       [Z.of_nat (length data)])]).
Proof.
  intros Hrun.
  destruct (conn_run_rcvDatagramQueue _ _ _ _ Hrun) as (Hcap & Hlen & kept & Hsub & Heq).
  { simpl. lia. }
  pose proof (conn_run_enqueued _ _ _ _ Hrun) as Henq.
  simpl in *. split; [done|]. split; [done|].
  split; [by rewrite <- Henq, Heq|].
  destruct (handleDatagram_cases data c) as [Hroom Hfull].
  rewrite Hcap in Hroom, Hfull. split; [done|].
  intros Hl. apply Hfull. lia.
Qed.

Lemma datagram_queue_bounded_fifo_witness :
  ∃ os c,
    conn_run [EvHandleDatagram [1]; EvHandleDatagram [2];
              EvReceiveMessage case_rcvDatagramQueue]
             (newConn None 5 1 0) = Some (os, c)
    ∧ received os = [[1]]
    ∧ chan.buf (rcvDatagramQueue c) = [[2]]
    ∧ received os ++ chan.buf (rcvDatagramQueue c)
      = enqueued 128 0 [EvHandleDatagram [1]; EvHandleDatagram [2];
                        EvReceiveMessage case_rcvDatagramQueue].
Proof.
  eexists _, _. split; [reflexivity|]. split; [reflexivity|]. split; [reflexivity|].
  eapply (proj1 (proj2 (datagram_queue_bounded_fifo None 5 1 0
            [EvHandleDatagram [1]; EvHandleDatagram [2];
             EvReceiveMessage case_rcvDatagramQueue] _ _ [] _))).
  Unshelve. reflexivity.
Defined.

(** C7.  For every session and every history of it, in each direction:
    the streams returned by successful accepts, in the order of their
    return and followed by the streams still queued, are exactly the
    streams the manager enqueued, in the order of enqueueing; so no
    stream is skipped or returned twice, and an accept that finds a
    stream queued returns the oldest one. *)
Theorem accept_queues_fifo
    (parent : context) (sid qc rs : Z) (evs : list conn_event)
    (os : list conn_obs) (c : Conn) :
  conn_run evs (newConn parent sid qc rs) = Some (os, c) →
  Forall (λ s, s ≠ None) (added evs) →
  Forall (λ s, s ≠ None) (addedUni evs) →
  accepted os ++ acceptQueue c = added evs
  ∧ acceptedUni os ++ acceptUniQueue c = addedUni evs
  ∧ (∀ ctx0 h q, acceptQueue c = h :: q →
       AcceptStream ctx0 c = (Done (Ok (newStream h)), set_acceptQueue q c))
  ∧ (∀ ctx0 h q, acceptUniQueue c = h :: q →
       AcceptUniStream ctx0 c
       = (Done (Ok (newReceiveStream h)), set_acceptUniQueue q c)).
Proof.
  intros Hrun Hnn Hnnu.
  pose proof (conn_run_acceptQueue _ _ _ _ Hrun Hnn) as Hq.
  pose proof (conn_run_acceptUniQueue _ _ _ _ Hrun Hnnu) as Hqu.
  simpl in Hq, Hqu. split; [done|]. split; [done|]. split.
  - intros ctx0 h q Hc. pose proof (AcceptStream_cases ctx0 c) as Hcases.
    rewrite Hc in Hcases. destruct h as [h|]; [done|].
    rewrite <- Hq, Hc in Hnn. apply Forall_app in Hnn as [_ Hnn].
    by apply Forall_cons_1 in Hnn as [[] _].
  - intros ctx0 h q Hc. pose proof (AcceptUniStream_cases ctx0 c) as Hcases.
    rewrite Hc in Hcases. destruct h as [h|]; [done|].
    rewrite <- Hqu, Hc in Hnnu. apply Forall_app in Hnnu as [_ Hnnu].
    by apply Forall_cons_1 in Hnnu as [[] _].
Qed.

Lemma accept_queues_fifo_witness :
  ∃ os c,
    conn_run [EvAddStream (Some 4); EvAcceptStream None; EvAddStream (Some 8);
              EvAddUniStream (Some 3); EvAddStream (Some 12);
              EvAcceptStream (Some context_Canceled)]
             (newConn None 0 1 0) = Some (os, c)
    ∧ accepted os = [Some 4; Some 8]
    ∧ acceptQueue c = [Some 12]
    ∧ accepted os ++ acceptQueue c = [Some 4; Some 8; Some 12].
Proof.
  eexists _, _. split; [reflexivity|]. split; [reflexivity|]. split; [reflexivity|].
  eapply (proj1 (accept_queues_fifo None 0 1 0
            [EvAddStream (Some 4); EvAcceptStream None; EvAddStream (Some 8);
             EvAddUniStream (Some 3); EvAddStream (Some 12);
             EvAcceptStream (Some context_Canceled)] _ _ _ _ _)).
  Unshelve.
  - reflexivity.
  - repeat constructor; discriminate.
  - repeat constructor; discriminate.
Defined.

(** C10.  An [AcceptStream] (or [AcceptUniStream]) call made while a
    stream is queued returns the head of the queue, whatever the state of
    the caller's context and of the session's context and whatever else
    happens meanwhile; and a call that returns an error found no stream
    at the head of the queue when it was made. *)
Theorem accept_prefers_queued_stream
    (sched : list round) (ctx0 : context) (c : Conn) :
  (∀ h q, acceptQueue c = Some h :: q →
     AcceptStream_call sched ctx0 c
     = (Done (Ok (newStream (Some h))), set_acceptQueue q c))
  ∧ (∀ e c', AcceptStream_call sched ctx0 c = (Done (Err e), c') →
       Forall (λ s, s ≠ None) (acceptQueue c) → acceptQueue c = [])
  ∧ (∀ h q, acceptUniQueue c = Some h :: q →
       AcceptUniStream_call sched ctx0 c
       = (Done (Ok (newReceiveStream (Some h))), set_acceptUniQueue q c))
  ∧ (∀ e c', AcceptUniStream_call sched ctx0 c = (Done (Err e), c') →
       Forall (λ s, s ≠ None) (acceptUniQueue c) → acceptUniQueue c = []).
Proof.
  pose proof (AcceptStream_cases ctx0 c) as Hb.
  pose proof (AcceptUniStream_cases ctx0 c) as Hu.
  repeat split.
  - intros h q Hq. rewrite Hq in Hb. destruct sched; simpl; by rewrite Hb.
  - intros e c' Hcall Hnn.
    destruct (acceptQueue c) as [|[h|] q]; [done| |].
    + destruct sched; simpl in Hcall; rewrite Hb in Hcall; discriminate.
    + by apply Forall_cons_1 in Hnn as [[] _].
  - intros h q Hq. rewrite Hq in Hu. destruct sched; simpl; by rewrite Hu.
  - intros e c' Hcall Hnn.
    destruct (acceptUniQueue c) as [|[h|] q]; [done| |].
    + destruct sched; simpl in Hcall; rewrite Hu in Hcall; discriminate.
    + by apply Forall_cons_1 in Hnn as [[] _].
Qed.

Lemma accept_prefers_queued_stream_witness :
  AcceptStream_call [] (Some context_Canceled)
    (Close (addStream (Some 4) (newConn None 0 1 0)))
  = (Done (Ok (newStream (Some 4))),
     set_acceptQueue [] (Close (addStream (Some 4) (newConn None 0 1 0))))
  ∧ AcceptStream_call [mkRound [EvClose] case_conn_ctx_Done None []] None
      (newConn None 0 1 0)
    = (Done (Err context_Canceled), Close (newConn None 0 1 0))
  ∧ acceptQueue (newConn None 0 1 0) = [].
Proof.
  split; [|split].
  - by apply (proj1 (accept_prefers_queued_stream [] (Some context_Canceled)
                       (Close (addStream (Some 4) (newConn None 0 1 0))))).
  - reflexivity.
  - eapply (proj1 (proj2 (accept_prefers_queued_stream
                       [mkRound [EvClose] case_conn_ctx_Done None []] None
                       (newConn None 0 1 0)))); [reflexivity|constructor].
Defined.

(** ** Varints and stream headers *)

Section varints.

Lemma Z_below_forall (P : Z → bool) (n : nat) :
  forallb P (map Z.of_nat (seq 0 n)) = true →
  ∀ x, 0 ≤ x < Z.of_nat n → P x = true.
Proof.
  intros Hall x Hx. rewrite forallb_forall in Hall. apply Hall.
  apply in_map_iff. exists (Z.to_nat x). split; [lia|].
  apply in_seq. lia.
Qed.

(** The two length bits and the six value bits of a first byte. *)
Lemma first_byte_bits (x tag : Z) :
  0 ≤ x < 64 → tag = 0 ∨ tag = 0x40 ∨ tag = 0x80 ∨ tag = 0xc0 →
  Z.land (Z.lor x tag) 0xc0 = tag ∧ Z.land (Z.lor x tag) (0xff - 0xc0) = x.
Proof.
  intros Hx Htag.
  pose proof (Z_below_forall
    (λ x, forallb (λ tag, (Z.land (Z.lor x tag) 0xc0 =? tag)
                          && (Z.land (Z.lor x tag) (0xff - 0xc0) =? x))
                  [0; 0x40; 0x80; 0xc0]) 64 ltac:(by vm_compute) x Hx) as Hall.
  rewrite forallb_forall in Hall.
  assert (Hin : In tag [0; 0x40; 0x80; 0xc0]).
  { simpl. destruct Htag as [->|[->|[->| ->]]]; tauto. }
  apply Hall in Hin. apply andb_true_iff in Hin as [H1%Z.eqb_eq H2%Z.eqb_eq].
  done.
Qed.

Lemma byte_of_quotient (i p : Z) :
  0 < p → i / p = 256 * (i / (p * 256)) + (i / p) mod 256.
Proof.
  intros Hp. rewrite <- Z.div_div by lia. apply Z.div_mod. lia.
Qed.

Ltac read_first_byte x tag :=
  unfold quicvarint.Read; cbn [app];
  destruct (first_byte_bits x tag) as [-> ->]; [lia|tauto|]; cbv zeta.

(** Reading back what [Write] has written gives the value and leaves
    the rest of the input. *)
Lemma quicvarint_Read_Write (i : Z) (enc rest : bytes) :
  0 ≤ i → quicvarint.Write [] i = Some enc →
  quicvarint.Read (enc ++ rest) = Some (i, rest).
Proof.
  intros Hi. unfold quicvarint.Write, quicvarint.maxVarInt1,
    quicvarint.maxVarInt2, quicvarint.maxVarInt4, quicvarint.maxVarInt8.
  unfold uint8. rewrite !Z.shiftr_div_pow2 by lia.
  change (2 ^ 8) with 256. change (2 ^ 16) with 65536.
  change (2 ^ 24) with 16777216. change (2 ^ 32) with 4294967296.
  change (2 ^ 40) with 1099511627776.
  change (2 ^ 48) with 281474976710656.
  change (2 ^ 56) with 72057594037927936.
  assert (H0 : i = 256 * (i / 256) + i mod 256) by (apply Z.div_mod; lia).
  assert (H8 : i / 256 = 256 * (i / 65536) + (i / 256) mod 256)
    by (by apply (byte_of_quotient i 256)).
  assert (H16 : i / 65536 = 256 * (i / 16777216) + (i / 65536) mod 256)
    by (by apply (byte_of_quotient i 65536)).
  assert (H24 : i / 16777216
                = 256 * (i / 4294967296) + (i / 16777216) mod 256)
    by (by apply (byte_of_quotient i 16777216)).
  assert (H32 : i / 4294967296
                = 256 * (i / 1099511627776) + (i / 4294967296) mod 256)
    by (by apply (byte_of_quotient i 4294967296)).
  assert (H40 : i / 1099511627776
                = 256 * (i / 281474976710656) + (i / 1099511627776) mod 256)
    by (by apply (byte_of_quotient i 1099511627776)).
  assert (H48 : i / 281474976710656
                = 256 * (i / 72057594037927936)
                  + (i / 281474976710656) mod 256)
    by (by apply (byte_of_quotient i 281474976710656)).
  pose proof (Z.mod_pos_bound i 256 ltac:(lia)) as B0.
  pose proof (Z.mod_pos_bound (i / 256) 256 ltac:(lia)) as B8.
  pose proof (Z.mod_pos_bound (i / 65536) 256 ltac:(lia)) as B16.
  pose proof (Z.mod_pos_bound (i / 16777216) 256 ltac:(lia)) as B24.
  pose proof (Z.mod_pos_bound (i / 4294967296) 256 ltac:(lia)) as B32.
  pose proof (Z.mod_pos_bound (i / 1099511627776) 256 ltac:(lia)) as B40.
  pose proof (Z.mod_pos_bound (i / 281474976710656) 256 ltac:(lia)) as B48.
  pose proof (Z.mod_pos_bound (i / 72057594037927936) 256 ltac:(lia)) as B56.
  assert (P56 : 0 ≤ i / 72057594037927936) by (apply Z.div_pos; lia).
  cbn [app].
  destruct (i <=? 63) eqn:H1; [|destruct (i <=? 16383) eqn:H2;
    [|destruct (i <=? 1073741823) eqn:H3;
      [|destruct (i <=? 4611686018427387903) eqn:H4; [|discriminate]]]];
    intros [= <-].
  - apply Z.leb_le in H1. rewrite (Z.mod_small i) by lia.
    destruct (first_byte_bits i 0) as [Hhi Hlo]; [lia|tauto|].
    rewrite Z.lor_0_r in Hhi, Hlo.
    unfold quicvarint.Read. cbn [app]. cbv zeta. by rewrite Hhi, Hlo.
  - apply Z.leb_le in H2.
    assert (Hx : 0 ≤ (i / 256) mod 256 < 64) by lia.
    read_first_byte ((i / 256) mod 256) 0x40.
    change (Z.shiftl 1 (Z.shiftr 64 6) =? 1) with false.
    change (Z.shiftl 1 (Z.shiftr 64 6) =? 2) with true. cbv iota.
    rewrite !Z.shiftl_mul_pow2 by lia. do 2 f_equal.
    change (2 ^ 8) with 256. change (2 ^ 16) with 65536.
    change (2 ^ 24) with 16777216. change (2 ^ 32) with 4294967296.
    change (2 ^ 40) with 1099511627776.
    change (2 ^ 48) with 281474976710656.
    change (2 ^ 56) with 72057594037927936. lia.
  - apply Z.leb_le in H3.
    assert (Hx : 0 ≤ (i / 16777216) mod 256 < 64) by lia.
    read_first_byte ((i / 16777216) mod 256) 0x80.
    change (Z.shiftl 1 (Z.shiftr 128 6) =? 1) with false.
    change (Z.shiftl 1 (Z.shiftr 128 6) =? 2) with false.
    change (Z.shiftl 1 (Z.shiftr 128 6) =? 4) with true. cbv iota.
    rewrite !Z.shiftl_mul_pow2 by lia. do 2 f_equal.
    change (2 ^ 8) with 256. change (2 ^ 16) with 65536.
    change (2 ^ 24) with 16777216. change (2 ^ 32) with 4294967296.
    change (2 ^ 40) with 1099511627776.
    change (2 ^ 48) with 281474976710656.
    change (2 ^ 56) with 72057594037927936. lia.
  - apply Z.leb_le in H4.
    assert (Hq : i / 72057594037927936 < 64)
      by (apply Z.div_lt_upper_bound; lia).
    assert (Hm : (i / 72057594037927936) mod 256 = i / 72057594037927936)
      by (apply Z.mod_small; lia).
    assert (Hx : 0 ≤ (i / 72057594037927936) mod 256 < 64) by lia.
    read_first_byte ((i / 72057594037927936) mod 256) 0xc0.
    change (Z.shiftl 1 (Z.shiftr 192 6) =? 1) with false.
    change (Z.shiftl 1 (Z.shiftr 192 6) =? 2) with false.
    change (Z.shiftl 1 (Z.shiftr 192 6) =? 4) with false. cbv iota.
    rewrite !Z.shiftl_mul_pow2 by lia. do 2 f_equal.
    change (2 ^ 8) with 256. change (2 ^ 16) with 65536.
    change (2 ^ 24) with 16777216. change (2 ^ 32) with 4294967296.
    change (2 ^ 40) with 1099511627776.
    change (2 ^ 48) with 281474976710656.
    change (2 ^ 56) with 72057594037927936. lia.
Qed.

End varints.

Section stream_headers.

(** Writing a varint appends its encoding. *)
Lemma quicvarint_Write_app (buf : bytes) (i : Z) (b : bytes) :
  quicvarint.Write buf i = Some b →
  ∃ enc, quicvarint.Write [] i = Some enc ∧ b = buf ++ enc.
Proof.
  unfold quicvarint.Write.
  repeat (destruct (_ <=? _); [intros [= <-]; eauto|]). discriminate.
Qed.

Lemma quicvarint_Write_ret (buf : bytes) (i : Z) (enc : bytes) :
  quicvarint.Write [] i = Some enc →
  quicvarint_Write buf i = ret (buf ++ enc).
Proof.
  unfold quicvarint_Write, quicvarint.Write.
  repeat (destruct (_ <=? _); [by intros [= <-]|]). discriminate.
Qed.

Lemma quicvarint_Write_inv (buf : bytes) (i : Z) (b : bytes) :
  quicvarint_Write buf i = ret b →
  ∃ enc, quicvarint.Write [] i = Some enc ∧ b = buf ++ enc.
Proof.
  unfold quicvarint_Write.
  destruct (quicvarint.Write buf i) eqn:Hw; [|discriminate].
  intros [= <-]. by apply quicvarint_Write_app.
Qed.

Lemma uint64_small (z : Z) : 0 ≤ z < 2 ^ 64 → uint64 z = z.
Proof. intros. unfold uint64. by apply Z.mod_small. Qed.

Lemma frame_type_varint : quicvarint.Write [] 0x41 = Some [0x40; 0x41].
Proof. reflexivity. Qed.

Lemma stream_type_varint : quicvarint.Write [] 0x54 = Some [0x40; 0x54].
Proof. reflexivity. Qed.

(** [writeStreamHeader] and [writeUniStreamHeader] on a stream [r]: one
    [Write] with the type and the session id, answered by the stream. *)
Lemma writeStreamHeader_spec env c (r : stream_ref) log sid :
  0 ≤ sessionID c < 2 ^ 64 →
  quicvarint.Write [] (sessionID c) = Some sid →
  writeStreamHeader env c (Some r) log
  = ret (env_Write env r ([0x40; 0x41] ++ sid),
         log ++ [(r, CallWrite ([0x40; 0x41] ++ sid))]).
Proof.
  intros Hsid Hw. unfold writeStreamHeader.
  rewrite (uint64_small (sessionID c)) by done.
  change (uint64 webTransportFrameType) with 0x41.
  rewrite (quicvarint_Write_ret [] 0x41 _ frame_type_varint). simpl.
  by rewrite (quicvarint_Write_ret _ _ _ Hw).
Qed.

Lemma writeUniStreamHeader_spec env c (r : stream_ref) log sid :
  0 ≤ sessionID c < 2 ^ 64 →
  quicvarint.Write [] (sessionID c) = Some sid →
  writeUniStreamHeader env c (Some r) log
  = ret (env_Write env r ([0x40; 0x54] ++ sid),
         log ++ [(r, CallWrite ([0x40; 0x54] ++ sid))]).
Proof.
  intros Hsid Hw. unfold writeUniStreamHeader.
  rewrite (uint64_small (sessionID c)) by done.
  change (uint64 webTransportStreamType) with 0x54.
  rewrite (quicvarint_Write_ret [] 0x54 _ stream_type_varint). simpl.
  by rewrite (quicvarint_Write_ret _ _ _ Hw).
Qed.

(** A session id that has no varint makes the header writers panic. *)
Lemma quicvarint_Write_None (buf : bytes) (i : Z) :
  quicvarint.Write [] i = None → ∃ msg, quicvarint_Write buf i = panic msg.
Proof.
  unfold quicvarint_Write, quicvarint.Write.
  repeat (destruct (_ <=? _); [discriminate|]). eauto.
Qed.

End stream_headers.

(** C8.  When [OpenStream] returns a stream, the QUIC layer has opened a
    stream [r], the call has issued exactly one [Write] on it, and the
    bytes of that write are the varint of 0x41 followed by the varint of
    the session id; the write reported no error.  When the write of the
    header fails with [e], [OpenStream] returns the error [e] and no
    stream.  The same holds for [OpenUniStream] with 0x54. *)
Theorem open_stream_writes_header (env : quic_env) (c : Conn) (log : quic_log) :
  0 ≤ sessionID c < 2 ^ 64 →
  (∀ s log', OpenStream env c log = ret (Ok s, log') →
     ∃ r ft sid,
       env_OpenStream env = Ok r ∧ s = newStream (Some r)
       ∧ quicvarint.Write [] 0x41 = Some ft
       ∧ quicvarint.Write [] (sessionID c) = Some sid
       ∧ log' = log ++ [(r, CallWrite (ft ++ sid))]
       ∧ env_Write env r (ft ++ sid) = None)
  ∧ (∀ r ft sid e,
       env_OpenStream env = Ok r →
       quicvarint.Write [] 0x41 = Some ft →
       quicvarint.Write [] (sessionID c) = Some sid →
       env_Write env r (ft ++ sid) = Some e →
       OpenStream env c log = ret (Err e, log ++ [(r, CallWrite (ft ++ sid))]))
  ∧ (∀ s log', OpenUniStream env c log = ret (Ok s, log') →
       ∃ r st sid,
         env_OpenUniStream env = Ok r ∧ s = newSendStream (Some r)
         ∧ quicvarint.Write [] 0x54 = Some st
         ∧ quicvarint.Write [] (sessionID c) = Some sid
         ∧ log' = log ++ [(r, CallWrite (st ++ sid))]
         ∧ env_Write env r (st ++ sid) = None)
  ∧ (∀ r st sid e,
       env_OpenUniStream env = Ok r →
       quicvarint.Write [] 0x54 = Some st →
       quicvarint.Write [] (sessionID c) = Some sid →
       env_Write env r (st ++ sid) = Some e →
       OpenUniStream env c log = ret (Err e, log ++ [(r, CallWrite (st ++ sid))])).
Proof.
  intros Hsid. repeat split.
  - intros s log'. unfold OpenStream.
    destruct (env_OpenStream env) as [r|e]; [|discriminate].
    destruct (quicvarint.Write [] (sessionID c)) as [sid|] eqn:Hw.
    + rewrite (writeStreamHeader_spec env c r log sid Hsid Hw). simpl.
      destruct (env_Write env r _) eqn:Hwr; [discriminate|].
      intros [= <- <-]. exists r, [0x40; 0x41], sid. by repeat split.
    + unfold writeStreamHeader. change (uint64 webTransportFrameType) with 0x41.
      rewrite (quicvarint_Write_ret [] 0x41 _ frame_type_varint). simpl.
      rewrite (uint64_small (sessionID c)) by done.
      destruct (quicvarint_Write_None [64; 65] _ Hw) as [msg ->]. discriminate.
  - intros r ft sid e Hopen Hft Hw Hwr. rewrite frame_type_varint in Hft.
    injection Hft as <-. unfold OpenStream. rewrite Hopen.
    rewrite (writeStreamHeader_spec env c r log sid Hsid Hw). simpl in Hwr |- *.
    by rewrite Hwr.
  - intros s log'. unfold OpenUniStream.
    destruct (env_OpenUniStream env) as [r|e]; [|discriminate].
    destruct (quicvarint.Write [] (sessionID c)) as [sid|] eqn:Hw.
    + rewrite (writeUniStreamHeader_spec env c r log sid Hsid Hw). simpl.
      destruct (env_Write env r _) eqn:Hwr; [discriminate|].
      intros [= <- <-]. exists r, [0x40; 0x54], sid. by repeat split.
    + unfold writeUniStreamHeader. change (uint64 webTransportStreamType) with 0x54.
      rewrite (quicvarint_Write_ret [] 0x54 _ stream_type_varint). simpl.
      rewrite (uint64_small (sessionID c)) by done.
      destruct (quicvarint_Write_None [64; 84] _ Hw) as [msg ->]. discriminate.
  - intros r st sid e Hopen Hst Hw Hwr. rewrite stream_type_varint in Hst.
    injection Hst as <-. unfold OpenUniStream. rewrite Hopen.
    rewrite (writeUniStreamHeader_spec env c r log sid Hsid Hw). simpl in Hwr |- *.
    by rewrite Hwr.
Qed.

Lemma open_stream_writes_header_witness :
  OpenStream (mkEnv (Ok 8) (Ok 2) (λ _ _, None)) (newConn None 64 1 0) []
  = ret (Ok (newStream (Some 8)), [(8, CallWrite [0x40; 0x41; 0x40; 0x40])])
  ∧ OpenStream (mkEnv (Ok 8) (Ok 2) (λ _ _, Some (errorString "closed")))
      (newConn None 64 1 0) []
    = ret (Err (errorString "closed"),
           [(8, CallWrite ([0x40; 0x41] ++ [0x40; 0x40]))]).
Proof.
  split; [reflexivity|].
  eapply (proj1 (proj2 (open_stream_writes_header
            (mkEnv (Ok 8) (Ok 2) (λ _ _, Some (errorString "closed")))
            (newConn None 64 1 0) [] _))); reflexivity.
  Unshelve. simpl. lia.
Defined.

Import manager.

(** ** The session manager *)

Section manager_invariant.

Implicit Types (w : world) (t : task) (ts : list task) (l : loc)
  (key : sessionKey) (sess : session).

Lemma int_small (z : Z) : - 2 ^ 63 ≤ z < 2 ^ 63 → int z = z.
Proof. intros Hz. unfold int. rewrite Z.mod_small; lia. Qed.

Lemma waiters_app l ts t :
  waiters l (ts ++ [t])
  = (waiters l ts + if decide (task_session t = l) then 1 else 0)%nat.
Proof.
  unfold waiters. rewrite filter_app, length_app. f_equal.
  rewrite filter_cons, filter_nil. by destruct (decide _).
Qed.

Lemma waiters_split l ts i t :
  ts !! i = Some t →
  waiters l ts
  = (waiters l (delete i ts) + if decide (task_session t = l) then 1 else 0)%nat.
Proof.
  intros Hi. unfold waiters.
  rewrite <- (take_drop_middle ts i t Hi) at 1.
  rewrite delete_take_drop, !filter_app, !length_app, filter_cons.
  destruct (decide _); simpl; lia.
Qed.

Lemma waiters_insert l ts i t t' :
  ts !! i = Some t → task_session t' = task_session t →
  waiters l (<[i := t']> ts) = waiters l ts.
Proof.
  intros Hi Hs.
  assert (Hi' : <[i := t']> ts !! i = Some t').
  { apply list_lookup_insert_eq. by eapply lookup_lt_Some. }
  rewrite (waiters_split l _ i t' Hi'), (waiters_split l ts i t Hi).
  rewrite Hs. f_equal. unfold waiters. f_equal. f_equal.
  rewrite !delete_take_drop, take_insert_ge, drop_insert_lt by lia. done.
Qed.

Lemma waiters_le_length l ts : (waiters l ts ≤ length ts)%nat.
Proof. unfold waiters. apply length_filter. Qed.

Lemma waiters_pos l ts t :
  t ∈ ts → task_session t = l → (0 < waiters l ts)%nat.
Proof.
  intros Hin Hl. unfold waiters.
  assert (Hf : t ∈ filter (λ t, task_session t = l) ts)
    by (by apply list_elem_of_filter).
  destruct (filter _ ts); [by apply not_elem_of_nil in Hf|simpl; lia].
Qed.


Lemma consistent_lookup ss heap ts key l :
  consistent ss heap ts → ss !! key = Some l →
  ∃ sess, heap !! l = Some sess ∧ counter sess = Z.of_nat (waiters l ts)
          ∧ (counter sess = 0 → conn sess ≠ None).
Proof. intros (H1 & _ & _). apply H1. Qed.

Lemma consistent_task_bound ss heap ts t :
  consistent ss heap ts → t ∈ ts → (task_session t < length heap)%nat.
Proof.
  intros (H1 & _ & H3) Hin.
  destruct (H1 _ _ (H3 t Hin)) as (sess & Hl & _). by eapply lookup_lt_Some.
Qed.

Lemma waiters_fresh ss heap ts :
  consistent ss heap ts → waiters (length heap) ts = 0%nat.
Proof.
  intros Hc. unfold waiters.
  destruct (filter _ ts) as [|t ts'] eqn:Hf; [done|].
  assert (Hin : t ∈ filter (λ t, task_session t = length heap) ts)
    by (rewrite Hf; left).
  apply list_elem_of_filter in Hin as [Hs Hin].
  pose proof (consistent_task_bound _ _ _ _ Hc Hin). lia.
Qed.

(** A stream is parked on an entry that is in the map. *)
Lemma consistent_park ss heap ts key l sess k s :
  consistent ss heap ts →
  ss !! key = Some l → heap !! l = Some sess →
  Z.of_nat (length ts) < 2 ^ 63 - 1 →
  consistent ss (<[l := set_counter (int (counter sess + 1)) sess]> heap)
             (ts ++ [mkTask k s l key Spawned]).
Proof.
  intros Hc Hkey Hl Hbound. pose proof Hc as (H1 & H2 & H3).
  pose proof (lookup_lt_Some _ _ _ Hl) as Hlt.
  split; [|split; [done|]].
  - intros key' l' Hk'. destruct (H1 _ _ Hk') as (sess' & Hl' & Hcnt & Hconn).
    rewrite waiters_app. simpl. destruct (decide (l = l')) as [<-|Hne].
    + rewrite list_lookup_insert_eq by done. eexists. split; [done|].
      assert (sess' = sess) as -> by congruence.
      pose proof (waiters_le_length l ts). simpl.
      rewrite int_small by lia. split; lia.
    + rewrite list_lookup_insert_ne by done. exists sess'.
      split; [done|]. split; [|done]. rewrite Hcnt. lia.
  - intros t [Hin| ->%list_elem_of_singleton]%elem_of_app; [by apply H3|done].
Qed.

(** A stream is parked on a new entry. *)
Lemma consistent_park_fresh ss heap ts key k s :
  consistent ss heap ts →
  ss !! key = None →
  consistent (<[key := length heap]> ss)
             (heap ++ [mkSession false (int (0 + 1)) None])
             (ts ++ [mkTask k s (length heap) key Spawned]).
Proof.
  intros Hc Hkey. pose proof Hc as (H1 & H2 & H3).
  pose proof (waiters_fresh _ _ _ Hc) as Hfresh.
  split; [|split].
  - intros key' l'. rewrite lookup_insert. destruct (decide (key = key')) as [<-|Hne].
    + intros [= <-]. rewrite list_lookup_middle by done. eexists. split; [done|].
      rewrite waiters_app, Hfresh. simpl. rewrite decide_True by done.
      split; [done|]. intros Hz. by vm_compute in Hz.
    + intros Hk'. destruct (H1 _ _ Hk') as (sess' & Hl' & Hcnt & Hconn).
      pose proof (lookup_lt_Some _ _ _ Hl') as Hlt.
      rewrite lookup_app_l by done. exists sess'. split; [done|].
      rewrite waiters_app. simpl. rewrite decide_False by lia.
      split; [|done]. rewrite Hcnt. lia.
  - intros k1 k2 l'. rewrite !lookup_insert.
    destruct (decide (key = k1)) as [<-|Hne1], (decide (key = k2)) as [<-|Hne2];
      try done.
    + intros [= <-] Hk2. destruct (H1 _ _ Hk2) as (? & ?%lookup_lt_Some & _). lia.
    + intros Hk1 [= <-]. destruct (H1 _ _ Hk1) as (? & ?%lookup_lt_Some & _). lia.
    + apply H2.
  - intros t [Hin| ->%list_elem_of_singleton]%elem_of_app.
    + rewrite lookup_insert_ne; [by apply H3|].
      intros Heq. specialize (H3 _ Hin). congruence.
    + simpl. by rewrite lookup_insert_eq.
Qed.

(** A session attaches to an entry that is in the map. *)
Lemma consistent_attach ss heap ts key l sess cl :
  consistent ss heap ts →
  ss !! key = Some l → heap !! l = Some sess →
  consistent ss (<[l := mkSession true (counter sess) (Some cl)]> heap) ts.
Proof.
  intros Hc Hkey Hl. pose proof Hc as (H1 & H2 & H3).
  pose proof (lookup_lt_Some _ _ _ Hl) as Hlt.
  split; [|split; [done|done]].
  intros key' l' Hk'. destruct (H1 _ _ Hk') as (sess' & Hl' & Hcnt & Hconn).
  destruct (decide (l = l')) as [<-|Hne].
  - rewrite list_lookup_insert_eq by done. eexists. split; [done|]. simpl.
    split; [congruence|done].
  - rewrite list_lookup_insert_ne by done. by exists sess'.
Qed.

(** A session is registered under a new key. *)
Lemma consistent_attach_fresh ss heap ts key cl :
  consistent ss heap ts →
  ss !! key = None →
  consistent (<[key := length heap]> ss)
             (heap ++ [mkSession true 0 (Some cl)]) ts.
Proof.
  intros Hc Hkey. pose proof Hc as (H1 & H2 & H3).
  pose proof (waiters_fresh _ _ _ Hc) as Hfresh.
  split; [|split].
  - intros key' l'. rewrite lookup_insert. destruct (decide (key = key')) as [<-|Hne].
    + intros [= <-]. rewrite list_lookup_middle by done. eexists. split; [done|].
      rewrite Hfresh. done.
    + intros Hk'. destruct (H1 _ _ Hk') as (sess' & Hl' & Hcnt & Hconn).
      pose proof (lookup_lt_Some _ _ _ Hl') as Hlt.
      rewrite lookup_app_l by done. by exists sess'.
  - intros k1 k2 l'. rewrite !lookup_insert.
    destruct (decide (key = k1)) as [<-|Hne1], (decide (key = k2)) as [<-|Hne2];
      try done.
    + intros [= <-] Hk2. destruct (H1 _ _ Hk2) as (? & ?%lookup_lt_Some & _). lia.
    + intros Hk1 [= <-]. destruct (H1 _ _ Hk1) as (? & ?%lookup_lt_Some & _). lia.
    + apply H2.
  - intros t Hin. rewrite lookup_insert_ne; [by apply H3|].
    intros Heq. specialize (H3 _ Hin). congruence.
Qed.

(** A parked stream moves on inside its goroutine. *)
Lemma consistent_set_pc ss heap ts i t p :
  consistent ss heap ts → ts !! i = Some t →
  consistent ss heap (<[i := set_task_pc p t]> ts).
Proof.
  intros (H1 & H2 & H3) Hi. split; [|split; [done|]].
  - intros key l Hk. destruct (H1 _ _ Hk) as (sess & Hl & Hcnt & Hconn).
    exists sess. by rewrite (waiters_insert l ts i t).
  - intros t' [j Hj]%list_elem_of_lookup_1.
    destruct (decide (i = j)) as [<-|Hne].
    + rewrite list_lookup_insert_eq in Hj by (by eapply lookup_lt_Some).
      injection Hj as <-. simpl. apply H3. by eapply list_elem_of_lookup_2.
    + rewrite list_lookup_insert_ne in Hj by done.
      apply H3. by eapply list_elem_of_lookup_2.
Qed.

(** A parked stream leaves: the critical section at the end of
    [handleStream]. *)
Lemma consistent_leave ss heap ts i t sess :
  consistent ss heap ts → ts !! i = Some t →
  heap !! task_session t = Some sess →
  Z.of_nat (length ts) < 2 ^ 63 - 1 →
  let sess' := set_counter (int (counter sess - 1)) sess in
  counter sess' = Z.of_nat (waiters (task_session t) (delete i ts))
  ∧ consistent
      (if decide (counter sess' = 0 ∧ conn sess' = None)
       then delete (task_key t) ss else ss)
      (<[task_session t := sess']> heap) (delete i ts).
Proof.
  intros Hc Hi Hl Hbound sess'. pose proof Hc as (H1 & H2 & H3).
  pose proof (list_elem_of_lookup_2 _ _ _ Hi) as Hin.
  pose proof (H3 _ Hin) as Hkey.
  destruct (H1 _ _ Hkey) as (sess0 & Hl0 & Hcnt & Hconn).
  assert (sess0 = sess) as -> by congruence.
  pose proof (lookup_lt_Some _ _ _ Hl) as Hlt.
  pose proof (waiters_split (task_session t) ts i t Hi) as Hsplit.
  rewrite decide_True in Hsplit by done.
  pose proof (waiters_le_length (task_session t) ts).
  assert (Hcnt' : counter sess' = Z.of_nat (waiters (task_session t) (delete i ts))).
  { unfold sess'. simpl. rewrite int_small by lia. lia. }
  split; [done|].
  assert (Hother : ∀ l, l ≠ task_session t → waiters l (delete i ts) = waiters l ts).
  { intros l Hne. rewrite (waiters_split l ts i t Hi).
    rewrite decide_False by done. lia. }
  destruct (decide _) as [[Hzero Hnil]|Hlive].
  - split; [|split].
    + intros key l [Hne Hk]%lookup_delete_Some.
      assert (l ≠ task_session t) as Hl'.
      { intros ->. by destruct Hne; apply (H2 _ _ _ Hkey Hk). }
      destruct (H1 _ _ Hk) as (s' & Hs' & Hc' & Hn').
      rewrite list_lookup_insert_ne by done. exists s'.
      by rewrite Hother.
    + intros k1 k2 l [_ Hk1]%lookup_delete_Some [_ Hk2]%lookup_delete_Some.
      by eapply H2.
    + intros t' Hin'. pose proof (list_elem_of_delete_inv _ _ _ Hin') as Hin''.
      apply lookup_delete_Some. split; [|by apply H3].
      intros Heq. pose proof (H3 _ Hin'') as Hk'. rewrite <- Heq, Hkey in Hk'.
      injection Hk' as Hs.
      pose proof (waiters_pos (task_session t) _ t' Hin' (eq_sym Hs)). lia.
  - split; [|split; [done|]].
    + intros key l Hk. destruct (decide (l = task_session t)) as [->|Hne].
      * rewrite list_lookup_insert_eq by done. exists sess'.
        split; [done|]. split; [done|]. intros Hz Hn. by destruct Hlive.
      * destruct (H1 _ _ Hk) as (s' & Hs' & Hc' & Hn').
        rewrite list_lookup_insert_ne by done. exists s'. by rewrite Hother.
    + intros t' Hin'. apply H3. by eapply list_elem_of_delete_inv.
Qed.

Lemma consistent_no_dead_entry w : WF w → no_dead_entry w.
Proof.
  intros (H1 & _ & _) key l sess Hk Hl [Hz Hn].
  destruct (H1 _ _ Hk) as (sess' & Hl' & _ & Hconn).
  assert (sess' = sess) as -> by congruence. by apply Hconn.
Qed.

Lemma WF_init T : WF (init T).
Proof.
  unfold WF. simpl. split; [|split].
  - intros key l Hk. by rewrite lookup_empty in Hk.
  - intros k1 k2 l Hk. by rewrite lookup_empty in Hk.
  - intros t Hin. by apply not_elem_of_nil in Hin.
Qed.

End manager_invariant.

Section manager_steps.

Implicit Types (w : world) (t : task) (ts : list task) (l : loc)
  (key : sessionKey) (sess : session).

Lemma go_bind_ret {A B} (x : go A) (k : A → go B) (b : B) :
  x ≫= k = ret b → ∃ a, x = ret a ∧ k a = ret b.
Proof. destruct x as [a|msg]; [by exists a|discriminate]. Qed.

Lemma load_ret {A} (heap : list A) (p : option loc) (a : A) :
  load heap p = ret a → ∃ l, p = Some l ∧ heap !! l = Some a.
Proof.
  unfold load. destruct p as [l|]; [|discriminate].
  destruct (heap !! l) eqn:Hl; [|discriminate]. intros [= <-]. by exists l.
Qed.

Lemma load_Some {A} (heap : list A) (l : loc) (a : A) :
  heap !! l = Some a → load heap (Some l) = ret a.
Proof. intros H. unfold load. by rewrite H. Qed.

Lemma on_conn_same p f w w' : on_conn p f w = ret w' → same_sessions w w'.
Proof.
  unfold on_conn. intros (c & _ & [= <-])%go_bind_ret. by repeat split.
Qed.

Lemma on_stream_same s call w w' :
  on_stream s call w = ret w' → same_sessions w w'.
Proof. destruct s; [|discriminate]. intros [= <-]. by repeat split. Qed.

Lemma same_sessions_trans w1 w2 w3 :
  same_sessions w1 w2 → same_sessions w2 w3 → same_sessions w1 w3.
Proof. intros (?&?&?) (?&?&?). repeat split; congruence. Qed.

Lemma park_ret k s l key w w' :
  park k s l key w = ret w' →
  ∃ sess, session_heap w !! l = Some sess
          ∧ sessions (m w') = sessions (m w)
          ∧ session_heap w'
            = <[l := set_counter (int (counter sess + 1)) sess]> (session_heap w)
          ∧ tasks w' = tasks w ++ [mkTask k s l key Spawned].
Proof.
  unfold park. intros (sess & (l' & [= <-] & Hl)%load_ret & [= <-])%go_bind_ret.
  by exists sess.
Qed.

Lemma keeps_entries ev w w' :
  (∀ key, is_Some (sessions (m w) !! key) → is_Some (sessions (m w') !! key)) →
  removed_by_last_waiter ev w w'.
Proof.
  intros Hkeep key Hin Hout. apply Hkeep in Hin. rewrite Hout in Hin.
  by destruct Hin.
Qed.

Lemma same_sessions_preserved ev w w' :
  WF w → same_sessions w w' → preserved ev w w'.
Proof.
  unfold WF. intros Hwf (Hm & Hh & Ht). split; [|split].
  - unfold WF. by rewrite Hm, Hh, Ht.
  - rewrite Ht. lia.
  - apply keeps_entries. by rewrite Hm.
Qed.

(** [AddStream] and [AddUniStream] differ in the goroutine they start
    and in the method they call on the session. *)
Lemma add_stream_preserved ev k (f : Conn → Conn) s key w w' :
  WF w → Z.of_nat (length (tasks w)) < 2 ^ 63 - 1 →
  match sessions (m w) !! key with
  | Some l =>
      sess ← load (session_heap w) (Some l);
      match conn sess with
      | Some cl => on_conn (Some cl) f w
      | None => park k s l key w
      end
  | None => let '(l, w) := new_pending key w in park k s l key w
  end = ret w' →
  preserved ev w w'.
Proof.
  intros Hwf Hbound. destruct (sessions (m w) !! key) as [l|] eqn:Hkey.
  - intros (sess & (? & [= <-] & Hl)%load_ret & Hrest)%go_bind_ret.
    destruct (conn sess) as [cl|].
    + apply same_sessions_preserved; [done|]. by eapply on_conn_same.
    + apply park_ret in Hrest as (sess' & Hl' & Hss & Hheap & Hts).
      assert (sess' = sess) as -> by congruence.
      split; [|split].
      * unfold WF. rewrite Hss, Hheap, Hts. by apply consistent_park.
      * rewrite Hts, length_app. simpl. lia.
      * apply keeps_entries. by rewrite Hss.
  - unfold new_pending. intros Hpark.
    apply park_ret in Hpark as (sess' & Hl' & Hss & Hheap & Hts).
    simpl in Hl', Hss, Hheap, Hts.
    rewrite list_lookup_middle in Hl' by done. injection Hl' as <-.
    rewrite insert_app_r_alt, Nat.sub_diag in Hheap by done. simpl in Hheap.
    split; [|split].
    + unfold WF. rewrite Hss, Hheap, Hts. by apply consistent_park_fresh.
    + rewrite Hts, length_app. simpl. lia.
    + apply keeps_entries. intros key' Hin. rewrite Hss, lookup_insert.
      by destruct (decide _).
Qed.

Lemma AddSession_preserved ev qc id cl w w' :
  WF w → AddSession qc id (Some cl) w = ret w' → preserved ev w w'.
Proof.
  intros Hwf. unfold AddSession. cbv zeta.
  destruct (sessions (m w) !! _) as [l|] eqn:Hkey.
  - intros (sess & (? & [= <-] & Hl)%load_ret & Hrest)%go_bind_ret.
    apply go_bind_ret in Hrest as (sess' & Hclose & [= <-]).
    unfold close_created in Hclose. simpl in Hclose.
    destruct (created sess); [discriminate|]. injection Hclose as <-.
    split; [|split].
    + unfold WF. simpl. by eapply consistent_attach.
    + simpl. lia.
    + by apply keeps_entries.
  - intros Hret.
    assert (Hshape : sessions (m w')
                     = <[(qc, id) := length (session_heap w)]> (sessions (m w))
                     ∧ session_heap w'
                       = session_heap w ++ [mkSession true 0 (Some cl)]
                     ∧ tasks w' = tasks w).
    { revert Hret. destruct (decide _); intros [= <-]; by repeat split. }
    destruct Hshape as (Hss & Hheap & Hts). clear Hret. split; [|split].
    + unfold WF. rewrite Hss, Hheap, Hts. by apply consistent_attach_fresh.
    + rewrite Hts. lia.
    + apply keeps_entries. intros key' Hin. rewrite Hss, lookup_insert.
      by destruct (decide _).
Qed.

Lemma Dial_register_preserved ev parent qc id rs w w' :
  WF w → Dial_register parent qc id rs w = ret w' → preserved ev w w'.
Proof.
  intros Hwf Hret. unfold Dial_register in Hret.
  by apply (AddSession_preserved ev) in Hret.
Qed.

Lemma set_pc_preserved ev w w1 i t p :
  WF w → same_sessions w w1 → tasks w !! i = Some t →
  preserved ev w (set_task i (set_task_pc p t) w1).
Proof.
  unfold WF. intros Hwf (Hm & Hh & Ht) Hi. split; [|split].
  - unfold WF. simpl. rewrite Hm, Hh, Ht. by apply consistent_set_pc.
  - simpl. rewrite length_insert, Ht. lia.
  - apply keeps_entries. simpl. by rewrite Hm.
Qed.

Lemma handleStream_select_same k deadline t w w' :
  handleStream_select k deadline t w = Some (ret w') → same_sessions w w'.
Proof.
  destruct k; unfold handleStream_select; [discriminate| | |].
  - destruct (load (session_heap w) _) as [sess|]; [|discriminate].
    destruct (created sess); [|discriminate]. intros [= H].
    by eapply on_conn_same.
  - destruct (_ <=? _); [|discriminate].
    intros [= (w1 & H1 & H2)%go_bind_ret].
    eapply same_sessions_trans; by eapply on_stream_same.
  - destruct (ctx_Done _); [|discriminate]. intros [= <-]. by repeat split.
Qed.

Lemma handleUniStream_select_same k deadline cc t w w' :
  handleUniStream_select k deadline cc t w = Some (ret w') → same_sessions w w'.
Proof.
  destruct k; unfold handleUniStream_select.
  - destruct (load (conn_heap w) _) as [c|]; [|discriminate].
    destruct (ctx_Done _); [|discriminate]. intros [= <-]. by repeat split.
  - destruct (load (session_heap w) _) as [sess|]; [|discriminate].
    destruct (created sess); [|discriminate]. intros [= H].
    by eapply on_conn_same.
  - destruct (_ <=? _); [|discriminate]. intros [= H]. by eapply on_stream_same.
  - destruct (ctx_Done _); [|discriminate]. intros [= <-]. by repeat split.
Qed.

Lemma leave_preserved i t w w' :
  WF w → Z.of_nat (length (tasks w)) < 2 ^ 63 - 1 →
  tasks w !! i = Some t →
  handleStream_leave t w = ret w' →
  tasks w' = tasks w
  ∧ preserved (EvLeave i) w (set_tasks (delete i (tasks w)) w').
Proof.
  intros Hwf Hbound Hi. unfold handleStream_leave.
  intros (sess & (? & [= <-] & Hl)%load_ret & [= <-])%go_bind_ret.
  destruct (consistent_leave _ _ _ i t sess Hwf Hi Hl Hbound) as [Hcnt Hc].
  cbv zeta in Hcnt, Hc.
  pose proof (waiters_split (task_session t) (tasks w) i t Hi) as Hsplit.
  rewrite decide_True in Hsplit by done.
  destruct Hwf as (H1 & H2 & H3).
  pose proof (H3 _ (list_elem_of_lookup_2 _ _ _ Hi)) as Hkey.
  destruct (H1 _ _ Hkey) as (sess0 & Hl0 & Hcnt0 & _).
  assert (sess0 = sess) as -> by congruence.
  destruct (decide _) as [[Hzero Hnil]|Hlive]; simpl.
  - split; [done|]. split; [|split].
    + by unfold WF.
    + simpl. rewrite length_delete by done. lia.
    + intros key Hin Hout. simpl in Hout.
      apply lookup_delete_None in Hout as [<-|Hout];
        [|rewrite Hout in Hin; by destruct Hin].
      simpl in Hcnt, Hzero, Hnil. exists i, t, sess. repeat split; try done. lia.
  - split; [done|]. split; [|split].
    + by unfold WF.
    + simpl. rewrite length_delete by done. lia.
    + by apply keeps_entries.
Qed.

Lemma handleDatagram_same qc msg w b w' :
  manager.handleDatagram qc msg w = ret (b, w') → same_sessions w w'.
Proof.
  unfold manager.handleDatagram. destruct msg as [data|e].
  - destruct (quicvarint.Read data) as [[v rest]|].
    + cbv zeta. destruct (sessions (m w) !! _) as [l|].
      * intros (sess & _ & (w1 & Hw1 & [= <- <-])%go_bind_ret)%go_bind_ret.
        by eapply on_conn_same.
      * intros [= <- <-]. by repeat split.
    + intros [= <- <-]. by repeat split.
  - intros [= <- <-]. by repeat split.
Qed.

(** Every step that returns keeps the invariant. *)
Lemma step_preserved ev w w' :
  WF w → Z.of_nat (length (tasks w)) < 2 ^ 63 - 1 →
  step ev w = Some (ret w') → preserved ev w w'.
Proof.
  intros Hwf Hbound. destruct ev; simpl.
  - intros [= H]. by eapply add_stream_preserved.
  - intros [= H]. by eapply add_stream_preserved.
  - intros [= H]. by eapply Dial_register_preserved.
  - destruct (tasks w !! i) as [t|] eqn:Hi; [|discriminate]. simpl.
    destruct (task_pc t); try discriminate.
    intros [= (t' & Henter & [= <-])%go_bind_ret].
    assert (t' = set_task_pc (task_pc t') t) as ->.
    { destruct (task_kind t); simpl in Henter.
      - by injection Henter as <-.
      - apply go_bind_ret in Henter as (? & _ & (? & _ & [= <-])%go_bind_ret).
        done. }
    apply set_pc_preserved; [done|by repeat split|done].
  - destruct (tasks w !! i) as [t|] eqn:Hi; [|discriminate]. simpl.
    destruct (task_pc t) as [|deadline cc|]; try discriminate.
    destruct (match task_kind t with Bidi => _ | Uni => _ end) as [r|] eqn:Hsel;
      [|discriminate].
    simpl. intros [= (w1 & -> & [= <-])%go_bind_ret].
    assert (same_sessions w w1) as Hsame.
    { destruct (task_kind t).
      - by eapply handleStream_select_same.
      - by eapply handleUniStream_select_same. }
    by apply set_pc_preserved.
  - destruct (tasks w !! i) as [t|] eqn:Hi; [|discriminate]. simpl.
    destruct (task_pc t); try discriminate.
    intros [= (w1 & Hleave & [= <-])%go_bind_ret].
    destruct (leave_preserved i t w w1 Hwf Hbound Hi Hleave) as [Hts Hp].
    by rewrite Hts.
  - destruct (pumps w !! i) as [qc|] eqn:Hi; [|discriminate]. simpl.
    intros [= ([b w1] & Hd & [= <-])%go_bind_ret].
    apply same_sessions_preserved; [done|].
    apply handleDatagram_same in Hd. by destruct b.
  - destruct (decide _); [|discriminate]. intros [= <-].
    by apply same_sessions_preserved.
  - intros [= <-]. by apply same_sessions_preserved.
  - destruct (conn_heap w !! cl) as [c|]; [|discriminate]. simpl.
    destruct (conn_step ev c) as [[o c1]|]; [|discriminate]. simpl.
    intros [= <-]. by apply same_sessions_preserved.
Qed.

(** The invariant along a history that is short enough for [counter]
    not to wrap around: every step starts at most one goroutine. *)
Lemma run_WF evs w w' :
  WF w →
  Z.of_nat (length (tasks w)) + Z.of_nat (length evs) < 2 ^ 63 →
  run evs w = Some (ret w') →
  WF w' ∧ (length (tasks w') ≤ length (tasks w) + length evs)%nat.
Proof.
  revert w. induction evs as [|ev evs IH]; intros w Hwf Hbound; simpl.
  - intros [= <-]. split; [done|lia].
  - destruct (step ev w) as [[w1|msg]|] eqn:Hstep; simpl; try discriminate.
    intros Hrun. simpl in Hbound.
    destruct (step_preserved ev w w1 Hwf ltac:(lia) Hstep) as (Hwf1 & Hlen & _).
    destruct (IH w1 Hwf1 ltac:(lia) Hrun) as [Hwf' Hlen'].
    split; [done|lia].
Qed.

End manager_steps.

(** C4.  Along every history of the manager ([AddStream],
    [AddUniStream], the registration of sessions, the steps of the parked
    streams, the datagram pumps, ...) of fewer than 2^63 steps, between
    critical sections the map has no entry without a waiter and without a
    session; every further step that returns keeps it so, and an entry
    disappears from the map only when the last waiter of a session that
    nobody attached leaves. *)
Theorem session_map_invariant (T : Z) (evs : list event) (w : world) :
  run evs (init T) = Some (ret w) →
  Z.of_nat (length evs) < 2 ^ 63 - 1 →
  no_dead_entry w
  ∧ ∀ ev w', step ev w = Some (ret w') →
      no_dead_entry w' ∧ removed_by_last_waiter ev w w'.
Proof.
  intros Hrun Hlen.
  destruct (run_WF evs (init T) w (WF_init T)) as [Hwf Hts]; [simpl; lia|done|].
  simpl in Hts. split; [by apply consistent_no_dead_entry|].
  intros ev w' Hstep.
  destruct (step_preserved ev w w' Hwf ltac:(lia) Hstep) as (Hwf' & _ & Hrem).
  split; [by apply consistent_no_dead_entry|done].
Qed.

Lemma session_map_invariant_witness :
  ∃ w w',
    run [EvAddStream 1 (Some 4) 99; EvAddUniStream 1 (Some 3) 99;
         EvEnter 0; EvTick 5; EvSelect 0 case_timer; EvLeave 0]
        (init 5) = Some (ret w)
    ∧ sessions (m w) !! (1, 99) = Some 0%nat
    ∧ no_dead_entry w
    ∧ step (EvDial None 1 99 0) w = Some (ret w')
    ∧ no_dead_entry w'.
Proof.
  eexists _, _. split; [vm_compute; reflexivity|].
  split; [vm_compute; reflexivity|].
  match goal with
  | |- no_dead_entry ?w ∧ _ =>
      assert (Hrun : run [EvAddStream 1 (Some 4) 99; EvAddUniStream 1 (Some 3) 99;
                          EvEnter 0; EvTick 5; EvSelect 0 case_timer; EvLeave 0]
                         (init 5) = Some (ret w))
        by (vm_compute; reflexivity)
  end.
  destruct (session_map_invariant 5 _ _ Hrun ltac:(simpl; lia)) as [Hnow Hnext].
  split; [exact Hnow|].
  match goal with
  | |- ?s = Some (ret ?w') ∧ _ =>
      assert (Hstep : s = Some (ret w')) by (vm_compute; reflexivity)
  end.
  split; [exact Hstep|]. exact (proj1 (Hnext _ _ Hstep)).
Defined.

Section parked_streams.

Implicit Types (w : world) (t : task).

(** A parked unidirectional stream whose session has not attached
    cannot enter its [select]. *)
Lemma handleUniStream_enter_nil w t sess :
  session_heap w !! task_session t = Some sess →
  conn sess = None →
  handleUniStream_enter t w = nil_dereference.
Proof.
  intros Hl Hnil. unfold handleUniStream_enter.
  rewrite (load_Some _ _ _ Hl). simpl. by rewrite Hnil.
Qed.

(** [AddUniStream] for a key that is not in the map parks the stream on
    a session without [conn]. *)
Lemma AddUniStream_parks qc s id w :
  sessions (m w) !! (qc, id) = None →
  ∃ w', AddUniStream qc s id w = ret w'
        ∧ tasks w' = tasks w ++ [mkTask Uni s (length (session_heap w)) (qc, id) Spawned]
        ∧ session_heap w' = session_heap w ++ [mkSession false (int (0 + 1)) None].
Proof.
  intros Hkey. unfold AddUniStream. cbv zeta. rewrite Hkey.
  unfold new_pending, park. cbn [session_heap set_session_heap set_m].
  rewrite (load_Some _ _ (mkSession false 0 None))
    by (by apply list_lookup_middle).
  eexists. split; [done|]. simpl.
  split; [done|]. by rewrite insert_app_r_alt, Nat.sub_diag by done.
Qed.

(** The timer of a parked bidirectional stream: not ready before the
    deadline; at the deadline both directions of the stream are reset
    with the code of a rejected buffered stream. *)
Lemma handleStream_select_timer deadline t w (s : stream_ref) :
  task_str t = Some s →
  handleStream_select case_timer deadline t w
  = if deadline <=? now w
    then Some (ret (set_calls
           (calls w ++ [(s, CallCancelRead 0x3994bd84);
                        (s, CallCancelWrite 0x3994bd84)]) w))
    else None.
Proof.
  intros Hs. unfold handleStream_select. destruct (_ <=? _); [|done].
  rewrite Hs. simpl. by rewrite <- app_assoc.
Qed.

(** The last waiter of a session that nobody attached takes the entry
    out of the map. *)
Lemma handleStream_leave_last t w sess :
  session_heap w !! task_session t = Some sess →
  counter sess = 1 → conn sess = None →
  ∃ w', handleStream_leave t w = ret w'
        ∧ sessions (m w') = delete (task_key t) (sessions (m w)).
Proof.
  intros Hl Hone Hnil. unfold handleStream_leave.
  rewrite (load_Some _ _ _ Hl). simpl.
  rewrite Hone. change (int (1 - 1)) with 0.
  rewrite decide_True by done. by eexists.
Qed.

Lemma Dialer_init_timeout_default : Dialer_init_timeout 0 = 5 * time_Second.
Proof. reflexivity. Qed.

(** The order of enqueueing is not the order of arrival at the manager:
    a stream that arrives after the session has attached is enqueued by
    [AddStream] itself and overtakes a parked stream whose goroutine
    has not run yet. *)
Lemma parked_stream_is_overtaken :
  ∃ w c,
    run [EvAddStream 1 (Some 4) 7; EvEnter 0; EvDial None 1 7 0;
         EvAddStream 1 (Some 8) 7; EvSelect 0 case_session_created;
         EvLeave 0] (init 5) = Some (ret w)
    ∧ conn_heap w !! 0%nat = Some c
    ∧ acceptQueue c = [Some 8; Some 4].
Proof.
  eexists _, _. split; [vm_compute; reflexivity|].
  split; vm_compute; reflexivity.
Qed.

End parked_streams.

(** C9.  The nil dereference in [handleUniStream] is reachable: after
    [AddUniStream] for a session that has not been registered, the new
    goroutine holds a session whose [conn] is nil and whose [created] is
    still open, and entering its [select] evaluates
    [session.conn.ctx.Done()], which panics. *)
Theorem handleUniStream_nil_dereference_reachable
    (T qc id : Z) (s : quic_ReceiveStream) :
  ∃ w t sess,
    run [EvAddUniStream qc s id] (init T) = Some (ret w)
    ∧ tasks w !! 0%nat = Some t
    ∧ task_kind t = Uni
    ∧ session_heap w !! task_session t = Some sess
    ∧ created sess = false
    ∧ conn sess = None
    ∧ handleUniStream_enter t w = nil_dereference
    ∧ step (EvEnter 0) w = Some nil_dereference.
Proof.
  destruct (AddUniStream_parks qc s id (init T)) as (w & Hadd & Hts & Hheap);
    [done|].
  simpl in Hts, Hheap.
  exists w, (mkTask Uni s 0%nat (qc, id) Spawned),
    (mkSession false (int (0 + 1)) None).
  assert (Hl : session_heap w !! 0%nat = Some (mkSession false (int (0 + 1)) None))
    by (by rewrite Hheap).
  assert (Henter : handleUniStream_enter (mkTask Uni s 0%nat (qc, id) Spawned) w
                   = nil_dereference)
    by (by eapply handleUniStream_enter_nil).
  repeat split; try done.
  - simpl. by rewrite Hadd.
  - by rewrite Hts.
  - simpl. rewrite Hts. simpl. by rewrite Henter.
Qed.

(** C3, where the code departs from it.  With the default timeout, a
    unidirectional stream parked for session 99, which never appears,
    does not live to see its timer: its goroutine panics on entering the
    [select], so [CancelRead] is never called.  The bidirectional stream
    in the same situation is reset in both directions with 0x3994bd84
    when its timer fires, and the entry leaves the map. *)
Theorem parked_uni_stream_panics_before_timeout :
  run [EvAddUniStream 1 (Some 3) 99; EvEnter 0; EvTick (5 * time_Second);
       EvSelect 0 case_timer; EvLeave 0]
      (init (Dialer_init_timeout 0))
  = Some nil_dereference
  ∧ ∃ w, run [EvAddStream 1 (Some 4) 99; EvEnter 0; EvTick (5 * time_Second);
              EvSelect 0 case_timer; EvLeave 0]
             (init (Dialer_init_timeout 0)) = Some (ret w)
         ∧ calls w = [(4, CallCancelRead 0x3994bd84);
                      (4, CallCancelWrite 0x3994bd84)]
         ∧ sessions (m w) !! (1, 99) = None
         ∧ tasks w = [].
Proof.
  split; [vm_compute; reflexivity|].
  eexists. split; [vm_compute; reflexivity|]. repeat split; vm_compute; reflexivity.
Qed.

Section datagram_pump.

Implicit Types (w : world) (c : Conn).

(** The pump hands the payload without its first byte to the session
    registered under the id it has read. *)
Lemma handleDatagram_delivers qc data v rest l sess cl c w :
  quicvarint.Read data = Some (v, rest) →
  sessions (m w) !! (qc, v) = Some l →
  session_heap w !! l = Some sess →
  conn sess = Some cl →
  conn_heap w !! cl = Some c →
  manager.handleDatagram qc (Ok data) w
  = ret (true, set_conn_heap
                 (<[cl := Session.handleDatagram (drop 1 data) c]> (conn_heap w)) w).
Proof.
  intros Hread Hkey Hl Hconn Hc. unfold manager.handleDatagram.
  rewrite Hread. cbv zeta. rewrite Hkey, (load_Some _ _ _ Hl). simpl.
  unfold on_conn. rewrite Hconn, (load_Some _ _ _ Hc). done.
Qed.

(** Without an entry for the id the datagram is dropped. *)
Lemma handleDatagram_drops qc data v rest w :
  quicvarint.Read data = Some (v, rest) →
  sessions (m w) !! (qc, v) = None →
  manager.handleDatagram qc (Ok data) w = ret (true, w).
Proof.
  intros Hread Hkey. unfold manager.handleDatagram.
  rewrite Hread. cbv zeta. by rewrite Hkey.
Qed.

(** An entry on which streams wait but which has no session yet makes
    the pump panic. *)
Lemma handleDatagram_pending qc data v rest l sess w :
  quicvarint.Read data = Some (v, rest) →
  sessions (m w) !! (qc, v) = Some l →
  session_heap w !! l = Some sess →
  conn sess = None →
  manager.handleDatagram qc (Ok data) w = nil_dereference.
Proof.
  intros Hread Hkey Hl Hconn. unfold manager.handleDatagram.
  rewrite Hread. cbv zeta. rewrite Hkey, (load_Some _ _ _ Hl). simpl.
  unfold on_conn. by rewrite Hconn.
Qed.

(** For a session id below 64 the first byte is the whole varint. *)
Lemma quicvarint_Read_one_byte (b : Z) (rest : bytes) :
  0 ≤ b < 64 → quicvarint.Read (b :: rest) = Some (b, drop 1 (b :: rest)).
Proof.
  intros Hb. unfold quicvarint.Read.
  assert (Hhi : Z.land b 0xc0 = 0).
  { apply Z.bits_inj'. intros n Hn. rewrite Z.land_spec, Z.bits_0.
    destruct (decide (n < 6)) as [Hlt|Hge].
    - assert (Z.testbit 0xc0 n = false) as ->; [|apply andb_false_r].
      assert (n = 0 ∨ n = 1 ∨ n = 2 ∨ n = 3 ∨ n = 4 ∨ n = 5) as Hcases by lia.
      by destruct Hcases as [->|[->|[->|[->|[->| ->]]]]].
    - rewrite (Z.bits_above_log2 b n); [done|lia|].
      destruct (decide (b = 0)) as [->|Hnz]; [simpl; lia|].
      apply Z.log2_lt_pow2; [lia|].
      apply Z.lt_le_trans with (2 ^ 6); [lia|].
      apply Z.pow_le_mono_r; lia. }
  assert (Hlo : Z.land b (0xff - 0xc0) = b).
  { change (0xff - 0xc0) with (Z.ones 6). rewrite Z.land_ones by lia.
    apply Z.mod_small. change (2 ^ 6) with 64. lia. }
  cbv zeta. rewrite Hhi, Hlo. done.
Qed.

Lemma quicvarint_Write_length (i : Z) (enc : bytes) :
  64 ≤ i → quicvarint.Write [] i = Some enc → (2 ≤ length enc)%nat.
Proof.
  intros Hi. unfold quicvarint.Write, quicvarint.maxVarInt1.
  destruct (i <=? 63) eqn:H1; [apply Z.leb_le in H1; lia|clear H1].
  destruct (i <=? _); [intros ?; simplify_eq; simpl; lia|].
  destruct (i <=? _); [intros ?; simplify_eq; simpl; lia|].
  destruct (i <=? _); [intros ?; simplify_eq; simpl; lia|discriminate].
Qed.

(** What [SendMessage] frames for a session whose id takes more than
    one byte does not come back: the pump finds the session but leaves
    all bytes of the varint but the first in front of the payload. *)
Lemma handleDatagram_keeps_varint_bytes qc sid enc payload l sess cl c w :
  64 ≤ sid →
  quicvarint.Write [] sid = Some enc →
  sessions (m w) !! (qc, sid) = Some l →
  session_heap w !! l = Some sess →
  conn sess = Some cl →
  conn_heap w !! cl = Some c →
  manager.handleDatagram qc (Ok (enc ++ payload)) w
  = ret (true, set_conn_heap
                 (<[cl := Session.handleDatagram (drop 1 enc ++ payload) c]>
                    (conn_heap w)) w)
  ∧ (length payload < length (drop 1 enc ++ payload))%nat.
Proof.
  intros Hsid Hw Hkey Hl Hconn Hc.
  pose proof (quicvarint_Write_length sid enc Hsid Hw) as Hlen.
  pose proof (quicvarint_Read_Write sid enc payload ltac:(lia) Hw) as Hread.
  rewrite (handleDatagram_delivers qc _ sid payload l sess cl c w) by done.
  destruct enc as [|b enc]; [simpl in Hlen; lia|]. simpl. split; [done|].
  rewrite ?drop_0, length_app. simpl in Hlen. lia.
Qed.

Lemma SendMessage_frames c (b enc : bytes) :
  0 ≤ sessionID c < 2 ^ 64 →
  quicvarint.Write [] (sessionID c) = Some enc →
  SendMessage c b = ret (enc ++ b).
Proof.
  intros Hsid Hw. unfold SendMessage. rewrite uint64_small by done.
  by rewrite (quicvarint_Write_ret [] _ _ Hw).
Qed.

End datagram_pump.

(** C2, where the code departs from it.  Session 64 is registered on
    connection 1.  Its own [SendMessage] frames the payload [0x61] as the
    two-byte varint of 64 followed by the payload.  The pump reads the id
    64 from this datagram and finds the session, but hands it the
    datagram without its first byte only: the second byte of the varint
    stays in front of the payload. *)
Theorem datagram_pump_strips_one_byte :
  ∃ w0 c0 w1 c1,
    run [EvDial None 1 64 0] (init 0) = Some (ret w0)
    ∧ conn_heap w0 !! 0%nat = Some c0
    ∧ SendMessage c0 [0x61] = ret [0x40; 0x40; 0x61]
    ∧ quicvarint.Read [0x40; 0x40; 0x61] = Some (64, [0x61])
    ∧ manager.handleDatagram 1 (Ok [0x40; 0x40; 0x61]) w0 = ret (true, w1)
    ∧ conn_heap w1 !! 0%nat = Some c1
    ∧ chan.buf (rcvDatagramQueue c1) = [[0x40; 0x61]].
Proof.
  eexists _, _, _, _. split; [vm_compute; reflexivity|].
  split; [vm_compute; reflexivity|]. split; [vm_compute; reflexivity|].
  split; [vm_compute; reflexivity|]. split; [vm_compute; reflexivity|].
  split; vm_compute; reflexivity.
Qed.

(** * Further properties *)

(** ** The session object: wake-ups, closing, framing *)

Section conn_signals.

Implicit Types (c : Conn) (ev : conn_event) (evs : list conn_event)
  (o : conn_obs) (os : list conn_obs).









End conn_signals.



Section conn_close.

Implicit Types (c : Conn).

(** Reading until the queue is empty hands out the whole queue in
    order and touches nothing else. *)
Lemma drain_rcvDatagramQueue (l : list bytes) c :
  chan.buf (rcvDatagramQueue c) = l →
  ∃ os c',
    conn_run (replicate (length l) (EvReceiveMessage case_rcvDatagramQueue)) c
    = Some (os, c')
    ∧ received os = l
    ∧ chan.buf (rcvDatagramQueue c') = []
    ∧ ctx c' = ctx c.
Proof.
  revert c. induction l as [|d l IH]; intros c Hbuf.
  - exists [], c. by repeat split.
  - set (c1 := set_rcvDatagramQueue
                 (chan.Chan (chan.cap (rcvDatagramQueue c)) l) c).
    destruct (IH c1) as (os & c' & Hrun & Hrec & Hempty & Hctx); [done|].
    exists (ObsReceive (Ok d) :: os), c'. simpl.
    unfold chan.try_recv. rewrite Hbuf. simpl. fold c1. rewrite Hrun. simpl.
    repeat split; try done. unfold received in *. simpl. by rewrite Hrec.
Qed.

End conn_close.

(** X2.  [Close] cancels the session's context and leaves the three
    queues as they are.  The datagrams that were queued can still all be
    received afterwards, in order; once the queue is empty
    [ReceiveMessage] fails with "conn closed".  On a session that is not
    closed, an empty queue makes [ReceiveMessage] wait. *)
Theorem datagrams_survive_Close (c : Conn) :
  acceptQueue (Session.Close c) = acceptQueue c
  ∧ acceptUniQueue (Session.Close c) = acceptUniQueue c
  ∧ rcvDatagramQueue (Session.Close c) = rcvDatagramQueue c
  ∧ (∃ os c',
       conn_run (replicate (length (chan.buf (rcvDatagramQueue c)))
                   (EvReceiveMessage case_rcvDatagramQueue))
                (Session.Close c) = Some (os, c')
       ∧ received os = chan.buf (rcvDatagramQueue c)
       ∧ ReceiveMessage case_rcvDatagramQueue c' = None
       ∧ ReceiveMessage case_receive_ctx_Done c'
         = Some (Err (errorString "conn closed"), c'))
  ∧ (ctx c = None → chan.buf (rcvDatagramQueue c) = [] →
     ∀ k, ReceiveMessage k c = None).
Proof.
  split; [done|]. split; [done|]. split; [done|]. split.
  - destruct (drain_rcvDatagramQueue (chan.buf (rcvDatagramQueue c))
                (Session.Close c) eq_refl) as (os & c' & Hrun & Hrec & Hempty & Hctx).
    exists os, c'. split; [done|]. split; [done|]. split.
    + simpl. unfold chan.try_recv. by rewrite Hempty.
    + simpl. rewrite Hctx. simpl. by destruct (ctx c).
  - intros Hlive Hempty [|]; simpl.
    + unfold chan.try_recv. by rewrite Hempty.
    + by rewrite Hlive.
Qed.

Lemma datagrams_survive_Close_witness :
  ReceiveMessage case_rcvDatagramQueue (newConn None 4 1 0) = None
  ∧ ReceiveMessage case_receive_ctx_Done (newConn None 4 1 0) = None.
Proof.
  split;
    apply (proj2 (proj2 (proj2 (proj2
             (datagrams_survive_Close (newConn None 4 1 0))))));
    reflexivity.
Defined.

Section datagram_framing.

Implicit Types (c : Conn) (w : world).

Lemma quicvarint_Write_Some (i : Z) :
  i ≤ quicvarint.maxVarInt8 → ∃ enc, quicvarint.Write [] i = Some enc.
Proof.
  intros Hi. unfold quicvarint.Write.
  destruct (i <=? quicvarint.maxVarInt1); [by eexists|].
  destruct (i <=? quicvarint.maxVarInt2); [by eexists|].
  destruct (i <=? quicvarint.maxVarInt4); [by eexists|].
  destruct (i <=? quicvarint.maxVarInt8) eqn:H8; [by eexists|].
  apply Z.leb_gt in H8. lia.
Qed.

Lemma quicvarint_Write_too_big (i : Z) :
  quicvarint.maxVarInt8 < i → quicvarint.Write [] i = None.
Proof.
  intros Hi. unfold quicvarint.Write.
  unfold quicvarint.maxVarInt1, quicvarint.maxVarInt2, quicvarint.maxVarInt4,
    quicvarint.maxVarInt8 in *.
  repeat (destruct (_ <=? _) eqn:Hle; [apply Z.leb_le in Hle; lia|clear Hle]).
  done.
Qed.

Lemma quicvarint_Write_one_byte (i : Z) :
  0 ≤ i < 64 → quicvarint.Write [] i = Some [i].
Proof.
  intros Hi. unfold quicvarint.Write, quicvarint.maxVarInt1.
  destruct (i <=? 63) eqn:Hle; [|apply Z.leb_gt in Hle; lia].
  unfold uint8. rewrite Z.mod_small; [done|]. change (2 ^ 8) with 256. lia.
Qed.

End datagram_framing.

(** X3.  The datagram that [SendMessage] hands to the QUIC layer reads
    back, with [quicvarint.Read], as the session id followed by exactly
    the payload, for every session id of at most 62 bits; for a larger id
    [SendMessage] panics instead of sending. *)
Theorem SendMessage_frames_payload (c : Conn) (b : bytes) :
  0 ≤ sessionID c < 2 ^ 64 →
  (sessionID c ≤ quicvarint.maxVarInt8 →
   ∃ d, SendMessage c b = ret d
        ∧ quicvarint.Read d = Some (sessionID c, b)
        ∧ (length b < length d ≤ length b + 8)%nat)
  ∧ (quicvarint.maxVarInt8 < sessionID c → ∃ msg, SendMessage c b = panic msg).
Proof.
  intros Hsid. split; intros Hfit.
  - destruct (quicvarint_Write_Some _ Hfit) as [enc Hw].
    exists (enc ++ b). split; [by apply SendMessage_frames|].
    split; [apply quicvarint_Read_Write; [lia|done]|].
    rewrite length_app. revert Hw. unfold quicvarint.Write.
    repeat (destruct (_ <=? _); [intros [= <-]; simpl; lia|]). discriminate.
  - unfold SendMessage. rewrite uint64_small by done.
    destruct (quicvarint_Write_None [] _ (quicvarint_Write_too_big _ Hfit))
      as [msg ->]. by exists msg.
Qed.

Lemma SendMessage_frames_payload_witness :
  ∃ d, SendMessage (newConn None 300 1 0) [7; 8] = ret d
       ∧ quicvarint.Read d = Some (300, [7; 8])
       ∧ (length [7; 8] < length d ≤ length [7; 8] + 8)%nat.
Proof.
  apply (proj1 (SendMessage_frames_payload (newConn None 300 1 0) [7; 8]
                  ltac:(simpl; lia))).
  vm_compute. discriminate.
Defined.

(** X4.  Sending and receiving compose for session ids below 64 (ids
    whose varint is one byte): the datagram that [SendMessage] builds for
    such a session, taken by the pump of the receiving manager in which
    the session is registered, reaches the [handleDatagram] of that
    session with exactly the payload. *)
Theorem small_id_datagram_round_trip
    (qc sid : Z) (payload : bytes) (c0 c : Conn) (l cl : loc) (sess : session)
    (w : world) :
  0 ≤ sid < 64 →
  sessionID c0 = sid →
  sessions (m w) !! (qc, sid) = Some l →
  session_heap w !! l = Some sess →
  conn sess = Some cl →
  conn_heap w !! cl = Some c →
  ∃ d, SendMessage c0 payload = ret d
       ∧ manager.handleDatagram qc (Ok d) w
         = ret (true, set_conn_heap
                        (<[cl := Session.handleDatagram payload c]> (conn_heap w)) w).
Proof.
  intros Hsid Hc0 Hkey Hl Hconn Hc.
  pose proof (quicvarint_Write_one_byte sid Hsid) as Hw.
  exists ([sid] ++ payload). split.
  - apply SendMessage_frames; rewrite Hc0; [lia|done].
  - rewrite (handleDatagram_delivers qc _ sid payload l sess cl c w); try done.
    by apply quicvarint_Read_one_byte.
Qed.

Lemma small_id_datagram_round_trip_witness :
  ∃ w, run [EvDial None 1 4 0] (init 0) = Some (ret w)
       ∧ ∃ d, SendMessage (newConn None 4 2 0) [0x61] = ret d
              ∧ manager.handleDatagram 1 (Ok d) w
                = ret (true,
                       set_conn_heap
                         (<[0%nat := Session.handleDatagram [0x61]
                                       (newConn None 4 1 0)]> (conn_heap w)) w).
Proof.
  eexists. split; [vm_compute; reflexivity|].
  apply (small_id_datagram_round_trip 1 4 [0x61] (newConn None 4 2 0)
           (newConn None 4 1 0) 0%nat 0%nat (mkSession true 0 (Some 0%nat)));
    [lia|reflexivity|vm_compute; reflexivity..].
Defined.

(** ** The session manager: goroutines, pumps, routing *)

Section manager_accounting.

Implicit Types (w : world) (t : task).

Lemma on_conn_shape p f w w' :
  on_conn p f w = ret w' → ∃ h, w' = set_conn_heap h w.
Proof.
  unfold on_conn. intros (c & _ & [= <-])%go_bind_ret. by eexists.
Qed.

Lemma on_stream_shape s call w w' :
  on_stream s call w = ret w' → ∃ cs, w' = set_calls cs w.
Proof. destruct s; [|discriminate]. intros [= <-]. by eexists. Qed.

Lemma park_shape k s l key w w' :
  park k s l key w = ret w' →
  refCount (m w') = refCount (m w) + 1
  ∧ conns (m w') = conns (m w)
  ∧ tasks w' = tasks w ++ [mkTask k s l key Spawned]
  ∧ pumps w' = pumps w ∧ conn_heap w' = conn_heap w ∧ calls w' = calls w.
Proof.
  unfold park. intros (sess & _ & [= <-])%go_bind_ret. by repeat split.
Qed.

(** What [AddStream] and [AddUniStream] do to the counters. *)
Lemma add_stream_accounting k (f : Conn → Conn) s key w w' :
  match sessions (m w) !! key with
  | Some l =>
      sess ← load (session_heap w) (Some l);
      match conn sess with
      | Some cl => on_conn (Some cl) f w
      | None => park k s l key w
      end
  | None => let '(l, w) := new_pending key w in park k s l key w
  end = ret w' →
  refCount (m w') - Z.of_nat (length (tasks w'))
  = refCount (m w) - Z.of_nat (length (tasks w))
  ∧ conns (m w') = conns (m w) ∧ pumps w' = pumps w ∧ calls w' = calls w.
Proof.
  destruct (sessions (m w) !! key) as [l|].
  - intros (sess & _ & Hrest)%go_bind_ret. destruct (conn sess).
    + by apply on_conn_shape in Hrest as [h ->].
    + apply park_shape in Hrest as (-> & -> & -> & -> & _ & ->).
      rewrite length_app. simpl. repeat split; try done. lia.
  - unfold new_pending. intros Hpark.
    apply park_shape in Hpark as (-> & -> & -> & -> & _ & ->).
    rewrite length_app. simpl. repeat split; try done. lia.
Qed.

Lemma AddSession_accounting qc id c w w' :
  AddSession qc id c w = ret w' →
  refCount (m w') = refCount (m w) ∧ tasks w' = tasks w
  ∧ ((conns (m w') = conns (m w) ∧ pumps w' = pumps w)
     ∨ (sessions (m w) !! (qc, id) = None ∧ (qc ∉ conns (m w))
        ∧ conns (m w') = ({[qc]} ∪ conns (m w)) ∧ pumps w' = pumps w ++ [qc])).
Proof.
  unfold AddSession. cbv zeta.
  destruct (sessions (m w) !! _) as [l|] eqn:Hkey.
  - intros (sess & _ & (sess' & _ & [= <-])%go_bind_ret)%go_bind_ret.
    repeat split; try done. by left.
  - destruct (decide _) as [Hin|Hnin]; intros [= <-].
    + repeat split; try done. by left.
    + repeat split; try done. right. by repeat split.
Qed.

Lemma handleStream_select_shape k deadline t w w' :
  handleStream_select k deadline t w = Some (ret w') →
  m w' = m w ∧ tasks w' = tasks w ∧ pumps w' = pumps w.
Proof.
  destruct k; unfold handleStream_select; [discriminate| | |].
  - destruct (load (session_heap w) _) as [sess|]; [|discriminate].
    destruct (created sess); [|discriminate]. intros [= H].
    by apply on_conn_shape in H as [h ->].
  - destruct (_ <=? _); [|discriminate].
    intros [= (w1 & [cs ->]%on_stream_shape & [cs' ->]%on_stream_shape)%go_bind_ret].
    done.
  - destruct (ctx_Done _); [|discriminate]. by intros [= <-].
Qed.

Lemma handleUniStream_select_shape k deadline cc t w w' :
  handleUniStream_select k deadline cc t w = Some (ret w') →
  m w' = m w ∧ tasks w' = tasks w ∧ pumps w' = pumps w.
Proof.
  destruct k; unfold handleUniStream_select.
  - destruct (load (conn_heap w) _) as [c|]; [|discriminate].
    destruct (ctx_Done _); [|discriminate]. by intros [= <-].
  - destruct (load (session_heap w) _) as [sess|]; [|discriminate].
    destruct (created sess); [|discriminate]. intros [= H].
    by apply on_conn_shape in H as [h ->].
  - destruct (_ <=? _); [|discriminate]. intros [= H].
    by apply on_stream_shape in H as [cs ->].
  - destruct (ctx_Done _); [|discriminate]. by intros [= <-].
Qed.

Lemma handleStream_leave_shape t w w' :
  handleStream_leave t w = ret w' →
  refCount (m w') = refCount (m w) - 1 ∧ conns (m w') = conns (m w)
  ∧ tasks w' = tasks w ∧ pumps w' = pumps w.
Proof.
  unfold handleStream_leave. intros (sess & _ & [= <-])%go_bind_ret.
  by destruct (decide _).
Qed.

Lemma handleDatagram_shape qc msg w b w' :
  manager.handleDatagram qc msg w = ret (b, w') →
  ∃ h, w' = set_conn_heap h w.
Proof.
  unfold manager.handleDatagram. destruct msg as [data|e].
  - destruct (quicvarint.Read data) as [[v rest]|].
    + cbv zeta. destruct (sessions (m w) !! _) as [l|].
      * intros (sess & _ & (w1 & Hw1 & [= <- <-])%go_bind_ret)%go_bind_ret.
        by apply on_conn_shape in Hw1.
      * intros [= <- <-]. exists (conn_heap w). by destruct w.
    + intros [= <- <-]. exists (conn_heap w). by destruct w.
  - intros [= <- <-]. exists (conn_heap w). by destruct w.
Qed.

(** One step: the wait group moves with the number of goroutines; the
    set of connections only grows; a pump is started only for a
    connection that had none, and pumps only end. *)
Lemma step_accounting ev w w' :
  step ev w = Some (ret w') →
  refCount (m w') - Z.of_nat (length (tasks w'))
  = refCount (m w) - Z.of_nat (length (tasks w))
  ∧ ((conns (m w') = conns (m w)
      ∧ (pumps w' = pumps w ∨ (∃ i, pumps w' = delete i (pumps w))))
     ∨ (∃ qc, (qc ∉ conns (m w)) ∧ conns (m w') = ({[qc]} ∪ conns (m w))
              ∧ pumps w' = pumps w ++ [qc])).
Proof.
  destruct ev; simpl.
  - intros [= H]. apply add_stream_accounting in H as (? & ? & ? & ?). eauto.
  - intros [= H]. apply add_stream_accounting in H as (? & ? & ? & ?). eauto.
  - intros [= H]. unfold Dial_register in H.
    apply AddSession_accounting in H as (Hr & Ht & [[? ?]|(_ & ? & ? & ?)]);
      simpl in *; rewrite Hr, Ht; eauto 6.
  - destruct (tasks w !! i) as [t|] eqn:Hi; [|discriminate]. simpl.
    destruct (task_pc t); try discriminate.
    intros [= (t' & _ & [= <-])%go_bind_ret]. simpl.
    rewrite length_insert. eauto.
  - destruct (tasks w !! i) as [t|] eqn:Hi; [|discriminate]. simpl.
    destruct (task_pc t) as [|deadline cc|]; try discriminate.
    destruct (match task_kind t with Bidi => _ | Uni => _ end) as [r|] eqn:Hsel;
      [|discriminate].
    simpl. intros [= (w1 & -> & [= <-])%go_bind_ret].
    assert (m w1 = m w ∧ tasks w1 = tasks w ∧ pumps w1 = pumps w)
      as (Hm & Ht & Hp).
    { destruct (task_kind t).
      - by eapply handleStream_select_shape.
      - by eapply handleUniStream_select_shape. }
    simpl. rewrite length_insert, Hm, Ht, Hp. eauto.
  - destruct (tasks w !! i) as [t|] eqn:Hi; [|discriminate]. simpl.
    destruct (task_pc t); try discriminate.
    intros [= (w1 & Hleave & [= <-])%go_bind_ret].
    apply handleStream_leave_shape in Hleave as (Hr & Hc & Ht & Hp).
    simpl. rewrite Hr, Hc, Hp, Ht, length_delete by done.
    pose proof (lookup_lt_Some _ _ _ Hi). split; [lia|eauto].
  - destruct (pumps w !! i) as [qc|] eqn:Hi; [|discriminate]. simpl.
    intros [= ([b w1] & Hd & [= <-])%go_bind_ret].
    apply handleDatagram_shape in Hd as [h ->]. destruct b; simpl; eauto 6.
  - destruct (decide _); [|discriminate]. intros [= <-]. simpl. eauto.
  - intros [= <-]. simpl. eauto.
  - destruct (conn_heap w !! cl) as [c|]; [|discriminate]. simpl.
    destruct (conn_step ev c) as [[o c1]|]; [|discriminate]. simpl.
    intros [= <-]. simpl. eauto.
Qed.

End manager_accounting.

(** X5.  The wait group counts the parked streams: along every history
    of the manager [refCount] is the number of goroutines started by
    [AddStream] and [AddUniStream] that have not left yet, so the
    [Wait] in [Close] returns exactly when all of them are gone. *)
Theorem refCount_counts_parked_streams (T : Z) (evs : list event) (w : world) :
  run evs (init T) = Some (ret w) →
  refCount (m w) = Z.of_nat (length (tasks w)).
Proof.
  assert (Hgen : ∀ w0, run evs w0 = Some (ret w) →
            refCount (m w) - Z.of_nat (length (tasks w))
            = refCount (m w0) - Z.of_nat (length (tasks w0))).
  { induction evs as [|ev evs IH]; intros w0; simpl.
    - by intros [= <-].
    - destruct (step ev w0) as [[w1|msg]|] eqn:Hstep; simpl; try discriminate.
      intros Hrun. rewrite (IH _ Hrun).
      by apply step_accounting in Hstep as [? _]. }
  intros Hrun. apply Hgen in Hrun. simpl in Hrun. lia.
Qed.

Lemma refCount_counts_parked_streams_witness :
  ∃ w, run [EvAddStream 1 (Some 4) 99; EvAddUniStream 1 (Some 3) 98; EvEnter 0;
            EvTick 5; EvSelect 0 case_timer; EvLeave 0] (init 5) = Some (ret w)
       ∧ refCount (m w) = 1 ∧ length (tasks w) = 1%nat.
Proof.
  eexists. split; [vm_compute; reflexivity|].
  match goal with
  | |- refCount (m ?w) = _ ∧ _ =>
      assert (Hrun : run [EvAddStream 1 (Some 4) 99; EvAddUniStream 1 (Some 3) 98;
                          EvEnter 0; EvTick 5; EvSelect 0 case_timer; EvLeave 0]
                         (init 5) = Some (ret w)) by (vm_compute; reflexivity)
  end.
  pose proof (refCount_counts_parked_streams 5 _ _ Hrun) as Hcount.
  split; [exact Hcount|reflexivity].
Defined.

(** X6.  One pump per connection: along every history no connection has
    two datagram pumps running, and every connection with a pump is in
    the manager's set [conns]. *)
Theorem one_pump_per_connection (T : Z) (evs : list event) (w : world) :
  run evs (init T) = Some (ret w) →
  NoDup (pumps w) ∧ ∀ qc, qc ∈ pumps w → qc ∈ conns (m w).
Proof.
  assert (Hgen : ∀ w0, run evs w0 = Some (ret w) →
            NoDup (pumps w0) ∧ (∀ qc, qc ∈ pumps w0 → qc ∈ conns (m w0)) →
            NoDup (pumps w) ∧ (∀ qc, qc ∈ pumps w → qc ∈ conns (m w))).
  { induction evs as [|ev evs IH]; intros w0; simpl.
    - by intros [= <-].
    - destruct (step ev w0) as [[w1|msg]|] eqn:Hstep; simpl; try discriminate.
      intros Hrun [Hnd Hin]. apply (IH _ Hrun).
      apply step_accounting in Hstep
        as [_ [(Hc & [Hp|[i Hp]])|(qc & Hfresh & Hc & Hp)]]; rewrite Hp.
      + split; [done|]. intros qc Hq. rewrite Hc. by apply Hin.
      + split; [eapply sublist_NoDup; [exact Hnd|apply sublist_delete]|].
        intros qc Hq%list_elem_of_delete_inv. rewrite Hc. by apply Hin.
      + split.
        * apply NoDup_app. split; [done|]. split; [|apply NoDup_singleton].
          intros q Hq ->%list_elem_of_singleton. by apply Hfresh, Hin.
        * intros q [Hq| ->%list_elem_of_singleton]%elem_of_app; rewrite Hc.
          -- apply elem_of_union_r. by apply Hin.
          -- apply elem_of_union_l. by apply elem_of_singleton. }
  intros Hrun. apply (Hgen _ Hrun). simpl. split; [constructor|].
  intros qc Hq. by apply not_elem_of_nil in Hq.
Qed.

Lemma one_pump_per_connection_witness :
  ∃ w, run [EvDial None 1 4 0; EvDial None 1 8 0; EvDial None 2 4 0] (init 5)
       = Some (ret w)
       ∧ pumps w = [1; 2] ∧ NoDup (pumps w).
Proof.
  eexists. split; [vm_compute; reflexivity|]. split; [vm_compute; reflexivity|].
  match goal with
  | |- NoDup (pumps ?w) =>
      assert (Hrun : run [EvDial None 1 4 0; EvDial None 1 8 0; EvDial None 2 4 0]
                         (init 5) = Some (ret w)) by (vm_compute; reflexivity)
  end.
  exact (proj1 (one_pump_per_connection 5 _ _ Hrun)).
Defined.

(** ** The session manager: where it can panic *)

Section manager_pointers.

Implicit Types (w : world) (t : task).

Lemma load_inv {A} (heap : list A) (l : loc) (a : A) :
  load heap (Some l) = ret a → heap !! l = Some a.
Proof. by intros (? & [= <-] & ?)%load_ret. Qed.

Lemma attached_ok_mono heap n n' :
  (n ≤ n')%nat → attached_ok heap n → attached_ok heap n'.
Proof.
  intros Hn Hok l sess Hl. destruct (Hok l sess Hl) as [Hiff Hlt].
  split; [done|]. intros cl Hcl. specialize (Hlt cl Hcl). lia.
Qed.

Lemma attached_ok_app heap n sess :
  attached_ok heap n →
  (created sess = true ↔ conn sess ≠ None) →
  (∀ cl, conn sess = Some cl → (cl < n)%nat) →
  attached_ok (heap ++ [sess]) n.
Proof.
  intros Hok Hiff Hlt l s [Hl|[_ Hl]]%lookup_app_Some; [by eapply Hok|].
  destruct (l - length heap)%nat; [|done]. by injection Hl as <-.
Qed.

Lemma attached_ok_insert heap n l sess :
  attached_ok heap n →
  (created sess = true ↔ conn sess ≠ None) →
  (∀ cl, conn sess = Some cl → (cl < n)%nat) →
  attached_ok (<[l := sess]> heap) n.
Proof.
  intros Hok Hiff Hlt l' s [(-> & <- & _)|[_ Hl]]%list_lookup_insert_Some;
    [done|by eapply Hok].
Qed.

Lemma task_ok_mono hn hn' n n' t :
  (hn ≤ hn')%nat → (n ≤ n')%nat → task_ok hn n t → task_ok hn' n' t.
Proof.
  intros Hh Hn [Hs Hu]. split; [lia|].
  intros Hk d cc Hpc. destruct (Hu Hk d cc Hpc) as (cl & -> & Hcl).
  exists cl. split; [done|lia].
Qed.

Lemma tasks_ok_mono hn hn' n n' ts :
  (hn ≤ hn')%nat → (n ≤ n')%nat →
  Forall (task_ok hn n) ts → Forall (task_ok hn' n') ts.
Proof.
  intros Hh Hn Hts. eapply Forall_impl; [exact Hts|].
  intros t. by apply task_ok_mono.
Qed.

Lemma on_conn_frame p f w w' :
  on_conn p f w = ret w' →
  m w' = m w ∧ session_heap w' = session_heap w
  ∧ length (conn_heap w') = length (conn_heap w) ∧ tasks w' = tasks w.
Proof.
  unfold on_conn. intros (c & _ & [= <-])%go_bind_ret. simpl.
  by rewrite length_insert.
Qed.

Lemma pointers_ok_frame w w' :
  sessions (m w') = sessions (m w) → session_heap w' = session_heap w →
  length (conn_heap w') = length (conn_heap w) → tasks w' = tasks w →
  pointers_ok w → pointers_ok w'.
Proof. unfold pointers_ok. by intros -> -> -> ->. Qed.

Lemma pointers_ok_on_conn p f w w' :
  on_conn p f w = ret w' → pointers_ok w → pointers_ok w'.
Proof.
  intros (Hm & ? & ? & ?)%on_conn_frame.
  apply pointers_ok_frame; [by rewrite Hm|done..].
Qed.

Lemma pointers_ok_on_stream s call w w' :
  on_stream s call w = ret w' → pointers_ok w → pointers_ok w'.
Proof. intros [cs ->]%on_stream_shape. by apply pointers_ok_frame. Qed.

Lemma pointers_ok_park k s l key w w' :
  park k s l key w = ret w' → pointers_ok w → pointers_ok w'.
Proof.
  unfold park. intros (sess & Hl%load_inv & [= <-])%go_bind_ret.
  intros (Hatt & Hmap & Hts). unfold pointers_ok. simpl.
  rewrite length_insert. split; [|split; [done|]].
  - destruct (Hatt l sess Hl). by apply attached_ok_insert.
  - apply Forall_app. split; [done|]. apply Forall_singleton.
    split; simpl; [by eapply lookup_lt_Some|]. by intros _ d cc [=].
Qed.

Lemma pointers_ok_new_pending key w l w' :
  new_pending key w = (l, w') → pointers_ok w →
  pointers_ok w' ∧ session_heap w' !! l = Some (mkSession false 0 None).
Proof.
  unfold new_pending. intros [= <- <-] (Hatt & Hmap & Hts).
  unfold pointers_ok. simpl. rewrite length_app. simpl.
  split; [split; [|split]|].
  - apply attached_ok_app; simpl; [done| |done]. by split.
  - intros k l [[_ <-]|[_ Hl]]%lookup_insert_Some; [lia|].
    specialize (Hmap k l Hl). lia.
  - eapply tasks_ok_mono; [| |exact Hts]; lia.
  - rewrite lookup_app_r by done. by rewrite Nat.sub_diag.
Qed.

Lemma pointers_ok_add_stream k (f : Conn → Conn) s key w w' :
  match sessions (m w) !! key with
  | Some l =>
      sess ← load (session_heap w) (Some l);
      match conn sess with
      | Some cl => on_conn (Some cl) f w
      | None => park k s l key w
      end
  | None => let '(l, w) := new_pending key w in park k s l key w
  end = ret w' →
  pointers_ok w → pointers_ok w'.
Proof.
  destruct (sessions (m w) !! key) as [l|].
  - intros (sess & _ & Hrest)%go_bind_ret. destruct (conn sess).
    + by eapply pointers_ok_on_conn.
    + by eapply pointers_ok_park.
  - destruct (new_pending key w) as [l w1] eqn:Hnew. intros Hpark Hok.
    apply (pointers_ok_new_pending _ _ _ _ Hnew) in Hok as [Hok _].
    by eapply pointers_ok_park.
Qed.

Lemma pointers_ok_AddSession qc id cl w w' :
  AddSession qc id (Some cl) w = ret w' →
  (cl < length (conn_heap w))%nat → pointers_ok w → pointers_ok w'.
Proof.
  unfold AddSession. cbv zeta. intros Hadd Hcl (Hatt & Hmap & Hts).
  destruct (sessions (m w) !! _) as [l|] eqn:Hkey.
  - apply go_bind_ret in Hadd as (sess & Hl%load_inv & Hadd).
    apply go_bind_ret in Hadd as (sess' & Hclose & [= <-]).
    unfold close_created in Hclose. simpl in Hclose.
    destruct (created sess); [discriminate|]. injection Hclose as <-.
    unfold pointers_ok. simpl. rewrite length_insert.
    split; [|done]. apply attached_ok_insert; simpl; [done| |by intros ? [= <-]].
    by split.
  - assert (pointers_ok
              (set_m (set_sessions (<[(qc, id) := length (session_heap w)]>
                                      (sessions (m w))) (m w))
                 (set_session_heap (session_heap w ++ [mkSession true 0 (Some cl)])
                    w))) as Hok.
    { unfold pointers_ok. simpl. rewrite length_app. simpl. split; [|split].
      - apply attached_ok_app; simpl; [done| |by intros ? [= <-]]. by split.
      - intros k l [[_ <-]|[_ Hl]]%lookup_insert_Some; [lia|].
        specialize (Hmap k l Hl). lia.
      - eapply tasks_ok_mono; [| |exact Hts]; lia. }
    simpl in Hadd. destruct (decide _); injection Hadd as <-; [done|].
    revert Hok. by apply pointers_ok_frame.
Qed.

Lemma pointers_ok_Dial_register parent qc id rs w w' :
  Dial_register parent qc id rs w = ret w' → pointers_ok w → pointers_ok w'.
Proof.
  unfold Dial_register. cbv zeta. intros Hadd (Hatt & Hmap & Hts).
  apply pointers_ok_AddSession in Hadd; [done| |].
  - simpl. rewrite length_app. simpl. lia.
  - unfold pointers_ok. simpl. rewrite length_app. simpl. split; [|split; [done|]].
    + eapply attached_ok_mono; [|exact Hatt]. lia.
    + eapply tasks_ok_mono; [| |exact Hts]; lia.
Qed.

Lemma pointers_ok_set_task i t t' w :
  tasks w !! i = Some t →
  task_ok (length (session_heap w)) (length (conn_heap w)) t' →
  pointers_ok w → pointers_ok (set_task i t' w).
Proof.
  intros Hi Ht' (Hatt & Hmap & Hts). unfold pointers_ok. simpl.
  split; [done|split; [done|]]. by apply Forall_insert.
Qed.

Lemma pointers_ok_task i t w :
  tasks w !! i = Some t → pointers_ok w →
  task_ok (length (session_heap w)) (length (conn_heap w)) t.
Proof.
  intros Hi (_ & _ & Hts). by eapply Forall_lookup_1.
Qed.

Lemma pointers_ok_leave t w w' :
  handleStream_leave t w = ret w' → pointers_ok w → pointers_ok w'.
Proof.
  unfold handleStream_leave.
  intros (sess & Hl%load_inv & [= <-])%go_bind_ret (Hatt & Hmap & Hts).
  destruct (Hatt _ _ Hl) as [Hiff Hlt].
  assert (attached_ok
            (<[task_session t := set_counter (int (counter sess - 1)) sess]>
               (session_heap w)) (length (conn_heap w))) as Hatt'
    by by apply attached_ok_insert.
  unfold pointers_ok. destruct (decide _); simpl; rewrite length_insert;
    (split; [done|split; [|done]]); [|done].
  intros k l [_ Hk]%lookup_delete_Some. by eapply Hmap.
Qed.

Lemma on_stream_frame s call w w' :
  on_stream s call w = ret w' →
  m w' = m w ∧ session_heap w' = session_heap w
  ∧ length (conn_heap w') = length (conn_heap w) ∧ tasks w' = tasks w.
Proof. by intros [cs ->]%on_stream_shape. Qed.

Lemma handleStream_select_frame k deadline t w w' :
  handleStream_select k deadline t w = Some (ret w') →
  m w' = m w ∧ session_heap w' = session_heap w
  ∧ length (conn_heap w') = length (conn_heap w) ∧ tasks w' = tasks w.
Proof.
  destruct k; unfold handleStream_select; [discriminate| | |].
  - destruct (load (session_heap w) _) as [sess|]; [|discriminate].
    destruct (created sess); [|discriminate]. intros [= H].
    by apply on_conn_frame in H.
  - destruct (_ <=? _); [|discriminate].
    intros [= (w1 & H1 & H2)%go_bind_ret].
    apply on_stream_frame in H1 as (<- & <- & <- & <-).
    by apply on_stream_frame in H2.
  - destruct (ctx_Done _); [|discriminate]. by intros [= <-].
Qed.

Lemma handleUniStream_select_frame k deadline cc t w w' :
  handleUniStream_select k deadline cc t w = Some (ret w') →
  m w' = m w ∧ session_heap w' = session_heap w
  ∧ length (conn_heap w') = length (conn_heap w) ∧ tasks w' = tasks w.
Proof.
  destruct k; unfold handleUniStream_select.
  - destruct (load (conn_heap w) _) as [c|]; [|discriminate].
    destruct (ctx_Done _); [|discriminate]. by intros [= <-].
  - destruct (load (session_heap w) _) as [sess|]; [|discriminate].
    destruct (created sess); [|discriminate]. intros [= H].
    by apply on_conn_frame in H.
  - destruct (_ <=? _); [|discriminate]. intros [= H].
    by apply on_stream_frame in H.
  - destruct (ctx_Done _); [|discriminate]. by intros [= <-].
Qed.

Lemma handleDatagram_frame qc msg w b w' :
  manager.handleDatagram qc msg w = ret (b, w') →
  m w' = m w ∧ session_heap w' = session_heap w
  ∧ length (conn_heap w') = length (conn_heap w) ∧ tasks w' = tasks w.
Proof.
  unfold manager.handleDatagram. destruct msg as [data|e].
  - destruct (quicvarint.Read data) as [[v rest]|].
    + cbv zeta. destruct (sessions (m w) !! _) as [l|].
      * intros (sess & _ & (w1 & Hw1 & [= <- <-])%go_bind_ret)%go_bind_ret.
        by apply on_conn_frame in Hw1.
      * by intros [= <- <-].
    + by intros [= <- <-].
  - by intros [= <- <-].
Qed.

(** Every step that returns keeps the pointers valid. *)
Lemma step_pointers_ok ev w w' :
  step ev w = Some (ret w') → pointers_ok w → pointers_ok w'.
Proof.
  destruct ev as [qc s id|qc s id|parent qc id rs|i|i k|i|i msg|d| |cl ev]; simpl.
  - intros [= H].
    exact (pointers_ok_add_stream Bidi (addStream s) s (qc, id) w w' H).
  - intros [= H].
    exact (pointers_ok_add_stream Uni (addUniStream s) s (qc, id) w w' H).
  - intros [= H]. by eapply pointers_ok_Dial_register.
  - destruct (tasks w !! i) as [t|] eqn:Hi; [|discriminate]. simpl.
    destruct (task_pc t) eqn:Hpc; try discriminate.
    intros [= (t' & Ht' & [= <-])%go_bind_ret] Hok.
    eapply pointers_ok_set_task; [done| |done].
    destruct (pointers_ok_task _ _ _ Hi Hok) as [Hs Hu].
    destruct (task_kind t) eqn:Hk.
    + injection Ht' as <-. split; [done|]. simpl. by rewrite Hk.
    + unfold handleUniStream_enter in Ht'.
      apply go_bind_ret in Ht' as (sess & _ & Ht').
      apply go_bind_ret in Ht' as (c & Hc & [= <-]).
      split; [done|]. simpl. intros _ d cc [= _ <-].
      destruct (conn sess) as [cl|]; [|discriminate].
      apply load_inv in Hc. exists cl. split; [done|].
      by eapply lookup_lt_Some.
  - destruct (tasks w !! i) as [t|] eqn:Hi; [|discriminate]. simpl.
    destruct (task_pc t) as [|deadline cc|]; try discriminate.
    destruct (match task_kind t with Bidi => _ | Uni => _ end) as [r|] eqn:Hsel;
      [|discriminate].
    simpl. intros [= (w1 & -> & [= <-])%go_bind_ret] Hok.
    assert (m w1 = m w ∧ session_heap w1 = session_heap w
            ∧ length (conn_heap w1) = length (conn_heap w) ∧ tasks w1 = tasks w)
      as (Hm & Hh & Hn & Ht).
    { destruct (task_kind t).
      - by eapply handleStream_select_frame.
      - by eapply handleUniStream_select_frame. }
    destruct (pointers_ok_task _ _ _ Hi Hok) as [Hs Hu].
    eapply pointers_ok_set_task;
      [by rewrite Ht| |eapply pointers_ok_frame; [by rewrite Hm|done..]].
    rewrite Hh, Hn. split; [done|]. by intros _ d cc' [=].
  - destruct (tasks w !! i) as [t|] eqn:Hi; [|discriminate]. simpl.
    destruct (task_pc t); try discriminate.
    intros [= (w1 & Hleave & [= <-])%go_bind_ret] Hok.
    apply pointers_ok_leave in Hleave; [|done].
    destruct Hleave as (Hatt & Hmap & Hts). unfold pointers_ok. simpl.
    split; [done|split; [done|]]. by apply Forall_delete.
  - destruct (pumps w !! i) as [qc|] eqn:Hi; [|discriminate]. simpl.
    intros [= ([b w1] & Hd & [= <-])%go_bind_ret] Hok.
    apply handleDatagram_frame in Hd as (Hm & Hh & Hn & Ht).
    assert (pointers_ok w1) as Hok1
      by (eapply pointers_ok_frame; [by rewrite Hm|done..]).
    by destruct b.
  - destruct (decide _); [|discriminate]. by intros [= <-].
  - by intros [= <-].
  - destruct (conn_heap w !! cl) as [c|]; [|discriminate]. simpl.
    destruct (conn_step ev c) as [[o c1]|]; [|discriminate]. simpl.
    intros [= <-]. apply pointers_ok_frame; simpl; try done.
    by rewrite length_insert.
Qed.

End manager_pointers.

(** Reading through a pointer that is known to be valid. *)
Ltac load_goal Hl :=
  let H := fresh in
  pose proof (load_Some _ _ _ Hl) as H; unfold loc in *;
  first [rewrite H|rewrite Hl]; clear H.
Ltac load_in Hl H0 :=
  let H := fresh in
  pose proof (load_Some _ _ _ Hl) as H; unfold loc in *;
  first [rewrite H in H0|rewrite Hl in H0]; clear H.

Section manager_panics.

Implicit Types (w : world) (t : task) (l cl : loc).

Lemma run_pointers_ok evs w w' :
  run evs w = Some (ret w') → pointers_ok w → pointers_ok w'.
Proof.
  revert w. induction evs as [|ev evs IH]; intros w; simpl.
  - by intros [= <-].
  - destruct (step ev w) as [[w1|msg]|] eqn:Hstep; simpl; try discriminate.
    intros Hrun Hok. apply (IH _ Hrun). by eapply step_pointers_ok.
Qed.

Lemma pointers_ok_init T : pointers_ok (init T).
Proof.
  split; [|split]; simpl.
  - by intros l sess Hl.
  - by intros key l Hl.
  - constructor.
Qed.

Lemma on_conn_returns cl f w :
  (cl < length (conn_heap w))%nat → ∃ w', on_conn (Some cl) f w = ret w'.
Proof.
  intros [c Hc]%lookup_lt_is_Some_2. unfold on_conn.
  load_goal Hc. by eexists.
Qed.

Lemma park_returns k s l key w sess :
  session_heap w !! l = Some sess → ∃ w', park k s l key w = ret w'.
Proof. intros Hl. unfold park. load_goal Hl. by eexists. Qed.

(** [AddStream] and [AddUniStream] return. *)
Lemma add_stream_returns k (f : Conn → Conn) s key w :
  pointers_ok w →
  ∃ w', match sessions (m w) !! key with
        | Some l =>
            sess ← load (session_heap w) (Some l);
            match conn sess with
            | Some cl => on_conn (Some cl) f w
            | None => park k s l key w
            end
        | None => let '(l, w) := new_pending key w in park k s l key w
        end = ret w'.
Proof.
  intros Hok. pose proof Hok as (Hatt & Hmap & Hts).
  destruct (sessions (m w) !! key) as [l|] eqn:Hkey.
  - destruct (lookup_lt_is_Some_2 _ _ (Hmap _ _ Hkey)) as [sess Hl].
    load_goal Hl. simpl.
    destruct (conn sess) as [cl|] eqn:Hc.
    + apply on_conn_returns. destruct (Hatt _ _ Hl) as [_ Hlt]. by apply Hlt.
    + by eapply park_returns.
  - destruct (new_pending key w) as [l w1] eqn:Hnew.
    destruct (pointers_ok_new_pending _ _ _ _ Hnew Hok) as [_ Hl].
    by eapply park_returns.
Qed.

Lemma panic_site_Dial parent qc id rs w :
  pointers_ok w →
  (∃ msg, Dial_register parent qc id rs w = panic msg)
  ↔ panic_site (EvDial parent qc id rs) w.
Proof.
  intros (Hatt & Hmap & Hts). unfold Dial_register, AddSession. cbv zeta. simpl.
  destruct (sessions (m w) !! (qc, id)) as [l|] eqn:Hkey.
  - destruct (lookup_lt_is_Some_2 _ _ (Hmap _ _ Hkey)) as [sess Hl].
    unfold loc in *. rewrite Hl. simpl. unfold close_created. simpl.
    destruct (Hatt _ _ Hl) as [Hiff _]. split.
    + intros [msg H]. exists l, sess. split; [done|split; [done|]].
      apply Hiff. by destruct (created sess).
    + intros (l' & sess' & [= <-] & Hl' & Hc).
      assert (sess' = sess) as -> by congruence.
      apply Hiff in Hc. rewrite Hc. by eexists.
  - split.
    + intros [msg H]. by destruct (decide _).
    + by intros (l & sess & [=] & _).
Qed.

Lemma panic_site_Enter i w :
  pointers_ok w →
  (∃ msg, step (EvEnter i) w = Some (panic msg)) ↔ panic_site (EvEnter i) w.
Proof.
  intros Hok. pose proof Hok as (Hatt & Hmap & Hts). simpl.
  destruct (tasks w !! i) as [t|] eqn:Hi; simpl;
    [|split; [by intros [? [=]]|by intros (? & ? & [=] & _)]].
  destruct (pointers_ok_task _ _ _ Hi Hok) as [Hs _].
  destruct (lookup_lt_is_Some_2 _ _ Hs) as [sess Hl].
  destruct (Hatt _ _ Hl) as [_ Hlt].
  destruct (task_pc t) eqn:Hpc;
    try (split; [by intros [? [=]]|by intros (? & ? & [= <-] & ? & _); congruence]).
  destruct (task_kind t) eqn:Hk; simpl.
  - split; [by intros [? [=]]|]. intros (? & ? & [= <-] & _ & ? & _). congruence.
  - unfold handleUniStream_enter. load_goal Hl. simpl. split.
    + intros [msg H]. exists t, sess. repeat split; try done.
      destruct (conn sess) as [cl|]; [|done].
      destruct (lookup_lt_is_Some_2 _ _ (Hlt _ eq_refl)) as [c Hc].
      load_in Hc H. discriminate.
    + intros (t' & sess' & [= <-] & _ & _ & Hl' & Hc).
      assert (sess' = sess) as -> by congruence. rewrite Hc. by eexists.
Qed.

Lemma panic_site_Select i k w :
  pointers_ok w →
  (∃ msg, step (EvSelect i k) w = Some (panic msg)) ↔ panic_site (EvSelect i k) w.
Proof.
  intros Hok. pose proof Hok as (Hatt & Hmap & Hts). simpl.
  destruct (tasks w !! i) as [t|] eqn:Hi; simpl;
    [|split; [by intros [? [=]]|by intros (? & ? & ? & [=] & _)]].
  destruct (pointers_ok_task _ _ _ Hi Hok) as [Hs Hu].
  destruct (lookup_lt_is_Some_2 _ _ Hs) as [sess Hl].
  destruct (Hatt _ _ Hl) as [Hiff Hlt].
  destruct (task_pc t) as [|d cc|] eqn:Hpc;
    try (split; [by intros [? [=]]
                |by intros (? & ? & ? & [= <-] & ? & _); congruence]).
  assert (∀ f, created sess = true → ∃ w', on_conn (conn sess) f w = ret w')
    as Hattached.
  { intros f Hc. apply Hiff in Hc. destruct (conn sess) as [cl|]; [|done].
    apply on_conn_returns. by apply Hlt. }
  split.
  - intros [msg H]. exists t, d, cc. split; [done|split; [done|]].
    destruct (match task_kind t with Bidi => _ | Uni => _ end) as [r|] eqn:Hsel;
      simpl in H; [|discriminate].
    injection H as H. destruct r as [w1|msg']; [discriminate|]. clear H.
    destruct (task_kind t) eqn:Hk.
    + destruct k; unfold handleStream_select in Hsel; try discriminate.
      * load_in Hl Hsel.
        destruct (created sess) eqn:Hc; [|discriminate].
        destruct (Hattached (addStream (task_str t)) eq_refl) as [w' Hw'].
        rewrite Hw' in Hsel. discriminate.
      * destruct (d <=? now w) eqn:Hd; [|discriminate].
        split; [done|]. split; [lia|].
        destruct (task_str t); [discriminate|done].
      * destruct (ctx_Done _); discriminate.
    + destruct (Hu eq_refl d cc eq_refl) as (cl & -> & Hcl).
      destruct (lookup_lt_is_Some_2 _ _ Hcl) as [c Hc].
      destruct k; unfold handleUniStream_select in Hsel.
      * load_in Hc Hsel. destruct (ctx_Done _); discriminate.
      * load_in Hl Hsel.
        destruct (created sess) eqn:Hcr; [|discriminate].
        destruct (Hattached (addUniStream (task_str t)) eq_refl) as [w' Hw'].
        rewrite Hw' in Hsel. discriminate.
      * destruct (d <=? now w) eqn:Hd; [|discriminate].
        split; [done|]. split; [lia|].
        destruct (task_str t); [discriminate|done].
      * destruct (ctx_Done _); discriminate.
  - intros (t' & d' & cc' & [= <-] & Hpc' & -> & Hd & Hnil).
    rewrite Hpc in Hpc'. injection Hpc' as <- <-. apply Z.leb_le in Hd.
    destruct (task_kind t); simpl; rewrite Hd, Hnil; by eexists.
Qed.

Lemma panic_site_Datagram i msg w :
  pointers_ok w →
  (∃ e, step (EvDatagram i msg) w = Some (panic e))
  ↔ panic_site (EvDatagram i msg) w.
Proof.
  intros (Hatt & Hmap & Hts). unfold step, panic_site.
  destruct (pumps w !! i) as [qc|] eqn:Hi; cbn [mbind option_bind].
  2:{ split; [by intros [? [=]]|]. destruct msg; [|done].
      by intros (? & ? & ? & ? & ? & [=] & _). }
  unfold manager.handleDatagram.
  destruct msg as [data|e]; [|split; [by intros [? [=]]|done]].
  destruct (quicvarint.Read data) as [[v rest]|] eqn:Hread.
  2:{ split; [by intros [? [=]]|]. by intros (? & ? & ? & ? & ? & _ & [=] & _). }
  cbv zeta.
  destruct (sessions (m w) !! (qc, v)) as [l|] eqn:Hkey.
  2:{ split; [by intros [? [=]]|].
      intros (? & ? & ? & ? & ? & [= <-] & [= <- <-] & ? & _). congruence. }
  destruct (lookup_lt_is_Some_2 _ _ (Hmap _ _ Hkey)) as [sess Hl].
  destruct (Hatt _ _ Hl) as [_ Hlt].
  load_goal Hl. cbn [mbind go_bind]. split.
  - intros [e H]. exists qc, v, rest, l, sess. repeat split; try done.
    destruct (conn sess) as [cl|]; [|done].
    destruct (on_conn_returns cl (Session.handleDatagram (drop 1 data)) w
                (Hlt _ eq_refl)) as [w' Hw'].
    rewrite Hw' in H. discriminate.
  - intros (? & ? & ? & l' & sess' & [= <-] & [= <- <-] & Hk' & Hl' & Hc).
    assert (l' = l) as -> by congruence.
    assert (sess' = sess) as -> by congruence.
    rewrite Hc. by eexists.
Qed.

End manager_panics.

(** X7.  Where the manager can panic.  In a state reached by any history
    a step panics exactly at a site of [panic_site]: a [Dial] for a
    session that is attached already, a unidirectional stream that
    enters its [select] before its session is attached, the timer of a
    parked stream that is nil, a datagram for a session that is not
    attached yet.  No other step panics: [AddStream], [AddUniStream], a
    bidirectional stream that waits, the critical section of a stream
    that leaves, [Close]. *)
Theorem manager_panics_exactly_at_panic_sites
    (T : Z) (evs : list event) (w : world) (ev : event) :
  run evs (init T) = Some (ret w) →
  (∃ msg, step ev w = Some (panic msg)) ↔ panic_site ev w.
Proof.
  intros Hrun.
  assert (pointers_ok w) as Hok
    by (eapply run_pointers_ok; [exact Hrun|apply pointers_ok_init]).
  destruct ev as [qc s id|qc s id|parent qc id rs|i|i k|i|i msg|d| |cl ev].
  - destruct (add_stream_returns Bidi (addStream s) s (qc, id) w Hok) as [w' Hw'].
    change (AddStream qc s id w = ret w') in Hw'. simpl. rewrite Hw'.
    split; [by intros [? [=]]|done].
  - destruct (add_stream_returns Uni (addUniStream s) s (qc, id) w Hok) as [w' Hw'].
    change (AddUniStream qc s id w = ret w') in Hw'. simpl. rewrite Hw'.
    split; [by intros [? [=]]|done].
  - rewrite <- (panic_site_Dial parent qc id rs w Hok). simpl.
    split; intros [msg H]; exists msg; congruence.
  - by apply panic_site_Enter.
  - by apply panic_site_Select.
  - pose proof Hok as (Hatt & Hmap & Hts). simpl.
    split; [|done]. intros [msg H].
    destruct (tasks w !! i) as [t|] eqn:Hi; [|discriminate]. simpl in H.
    destruct (task_pc t); try discriminate.
    destruct (pointers_ok_task _ _ _ Hi Hok) as [Hs _].
    destruct (lookup_lt_is_Some_2 _ _ Hs) as [sess Hl].
    unfold handleStream_leave in H. load_in Hl H.
    discriminate.
  - by apply panic_site_Datagram.
  - simpl. split; [|done]. intros [msg H]. by destruct (decide _).
  - simpl. split; [by intros [? [=]]|done].
  - simpl. split; [|done]. intros [msg H].
    destruct (conn_heap w !! cl) as [c|]; [|discriminate]. simpl in H.
    by destruct (conn_step ev c) as [[o c1]|].
Qed.

Lemma manager_panics_exactly_at_panic_sites_witness :
  ∃ w, run [EvDial None 1 4 0; EvAddStream 1 (Some 7) 8] (init 5) = Some (ret w)
       ∧ (∃ msg, step (EvDatagram 0 (Ok [8; 1; 2])) w = Some (panic msg))
       ∧ ¬ (∃ msg, step (EvDatagram 0 (Ok [4; 1; 2])) w = Some (panic msg)).
Proof.
  eexists. split; [vm_compute; reflexivity|].
  match goal with
  | |- (∃ msg, step _ ?w = _) ∧ _ =>
      assert (Hrun : run [EvDial None 1 4 0; EvAddStream 1 (Some 7) 8] (init 5)
                     = Some (ret w)) by (vm_compute; reflexivity)
  end.
  split.
  - apply (proj2 (manager_panics_exactly_at_panic_sites 5 _ _ _ Hrun)).
    exists 1, 8, [1; 2], 1%nat, (mkSession false 1 None).
    repeat split; vm_compute; reflexivity.
  - intros Hpanic.
    apply (proj1 (manager_panics_exactly_at_panic_sites 5 _ _ _ Hrun)) in Hpanic.
    destruct Hpanic as (qc & v & rest & l & sess & Hqc & Hread & Hkey & Hl & Hc).
    vm_compute in Hqc, Hread. injection Hqc as <-. injection Hread as <- <-.
    vm_compute in Hkey. injection Hkey as <-.
    vm_compute in Hl. injection Hl as <-. discriminate.
Defined.

(** ** The session manager: streams and sessions in either order *)

Section manager_orders.

Implicit Types (w : world) (t : task) (l cl : loc).

Lemma lookup_snoc {A} (xs : list A) (x : A) : (xs ++ [x]) !! length xs = Some x.
Proof. by rewrite lookup_app_r, Nat.sub_diag. Qed.

Lemma insert_snoc {A} (xs : list A) (x y : A) :
  <[length xs := y]> (xs ++ [x]) = xs ++ [y].
Proof.
  rewrite insert_app_r_alt, Nat.sub_diag by done. reflexivity.
Qed.

Lemma delete_snoc {A} (xs : list A) (x : A) : delete (length xs) (xs ++ [x]) = xs.
Proof.
  induction xs as [|a xs IH]; [done|]. simpl. by rewrite IH.
Qed.

Lemma delete_insert_same {A} (xs : list A) (i : nat) (x : A) :
  delete i (<[i := x]> xs) = delete i xs.
Proof.
  revert i. induction xs as [|a xs IH]; intros [|i]; simpl; [done..|].
  by rewrite IH.
Qed.

Lemma run_step ev evs w w1 :
  step ev w = Some (ret w1) → run (ev :: evs) w = run evs w1.
Proof. intros H. simpl. by rewrite H. Qed.

End manager_orders.

(** Evaluating a step on a world whose new objects are at the end of the
    heaps. *)
Ltac snoc := unfold loc; rewrite ?lookup_snoc, ?insert_snoc, ?delete_snoc.
Ltac world_simpl :=
  unfold set_task, set_m, set_session_heap, set_conn_heap, set_tasks, set_pumps,
    set_now, set_calls, set_refCount, set_m_ctx, set_sessions, set_conns,
    set_counter, set_task_pc;
  cbn [m session_heap conn_heap tasks pumps now calls
       refCount m_ctx timeout sessions conns created counter conn
       task_kind task_str task_session task_key task_pc].

(** X8.  A session whose streams came first gets no datagram pump.  When
    [Dial] registers a session for which streams are parked, the session
    is attached to the entry that is waiting and [created] is closed, but
    [AddSession] returns before it looks at [conns]: no pump is started,
    whether or not the connection has one. *)
Theorem late_session_starts_no_pump
    (T : Z) (evs : list event) (w : world) (parent : context) (qc id rs : Z)
    (l : loc) (sess : session) :
  run evs (init T) = Some (ret w) →
  sessions (m w) !! (qc, id) = Some l →
  session_heap w !! l = Some sess →
  conn sess = None →
  ∃ w', step (EvDial parent qc id rs) w = Some (ret w')
        ∧ pumps w' = pumps w ∧ conns (m w') = conns (m w)
        ∧ session_heap w' !! l
          = Some (mkSession true (counter sess) (Some (length (conn_heap w))))
        ∧ conn_heap w' !! length (conn_heap w) = Some (newConn parent id qc rs).
Proof.
  intros Hrun Hkey Hl Hc.
  assert (pointers_ok w) as (Hatt & _ & _)
    by (eapply run_pointers_ok; [exact Hrun|apply pointers_ok_init]).
  destruct (Hatt _ _ Hl) as [Hiff _].
  assert (created sess = false) as Hcr.
  { destruct (created sess); [|done]. destruct Hiff as [Hiff _]. by destruct Hiff. }
  simpl. unfold Dial_register, AddSession. cbv zeta. simpl.
  unfold loc in *. rewrite Hkey, Hl. simpl. unfold close_created. simpl.
  rewrite Hcr. eexists. split; [reflexivity|]. simpl.
  repeat split; try done.
  - rewrite list_lookup_insert_eq; [done|]. by eapply lookup_lt_Some.
  - apply lookup_snoc.
Qed.

Lemma late_session_starts_no_pump_witness :
  ∃ w w', run [EvAddStream 1 (Some 7) 8] (init 5) = Some (ret w)
          ∧ step (EvDial None 1 8 0) w = Some (ret w')
          ∧ pumps w' = [] ∧ conns (m w') = ∅.
Proof.
  eexists.
  match goal with
  | |- ∃ w', run _ _ = Some (ret ?w) ∧ _ =>
      assert (Hrun : run [EvAddStream 1 (Some 7) 8] (init 5) = Some (ret w))
        by (vm_compute; reflexivity)
  end.
  destruct (late_session_starts_no_pump 5 _ _ None 1 8 0 0%nat
              (mkSession false 1 None) Hrun)
    as (w' & Hstep & Hp & Hc & _); [vm_compute; reflexivity..|].
  exists w'. split; [exact Hrun|]. split; [exact Hstep|]. split; [exact Hp|exact Hc].
Defined.

(** X9.  A stream that arrives before its session is delivered to it.
    From any state in which the session [(qc, id)] is unknown: the
    stream is parked by [AddStream]; once [Dial] has registered the
    session the parked goroutine wakes, hands the stream to the new
    session object and leaves.  The stream is the only one in the accept
    queue of the session, no call was made on it, the wait group and the
    goroutines are as before, and the entry stays in the map. *)
Theorem early_stream_is_delivered
    (w : world) (parent : context) (qc id rs : Z) (s : quic_Stream) :
  sessions (m w) !! (qc, id) = None →
  ∃ w', run [EvAddStream qc s id; EvEnter (length (tasks w));
             EvDial parent qc id rs;
             EvSelect (length (tasks w)) case_session_created;
             EvLeave (length (tasks w))] w = Some (ret w')
        ∧ conn_heap w' = conn_heap w ++ [addStream s (newConn parent id qc rs)]
        ∧ session_heap w'
          = session_heap w ++ [mkSession true 0 (Some (length (conn_heap w)))]
        ∧ sessions (m w') = <[(qc, id) := length (session_heap w)]> (sessions (m w))
        ∧ refCount (m w') = refCount (m w)
        ∧ tasks w' = tasks w ∧ calls w' = calls w.
Proof.
  intros Hkey. destruct w as [[rc mc to ss cs] heap ch ts ps nw cl].
  simpl in Hkey. cbn [tasks conn_heap session_heap m sessions refCount calls].
  eexists. split.
  { erewrite run_step.
    2:{ cbn [step]. unfold AddStream. cbv zeta. cbn [m sessions]. rewrite Hkey.
        unfold new_pending, park. cbv zeta. world_simpl.
        unfold load. snoc. cbn [mbind go_bind]. snoc. world_simpl.
        change (int (0 + 1)) with 1. reflexivity. }
    erewrite run_step.
    2:{ cbn [step tasks]. snoc. cbn [mbind option_bind task_pc task_kind].
        unfold handleStream_enter. cbn [mbind go_bind]. unfold set_task, set_task_pc.
        world_simpl. snoc. reflexivity. }
    erewrite run_step.
    2:{ cbn [step]. unfold Dial_register, AddSession. cbv zeta. world_simpl.
        rewrite lookup_insert_eq. unfold load. snoc. cbn [mbind go_bind].
        unfold close_created. world_simpl. cbn [mbind go_bind]. snoc. reflexivity. }
    erewrite run_step.
    2:{ cbn [step tasks]. snoc. cbn [mbind option_bind task_pc task_kind].
        unfold handleStream_select. world_simpl. unfold load. snoc.
        world_simpl. unfold on_conn, load. world_simpl. snoc. cbn [mbind go_bind option_bind default].
        snoc. unfold set_task, set_task_pc. world_simpl. snoc. reflexivity. }
    erewrite run_step.
    2:{ cbn [step tasks]. snoc. cbn [mbind option_bind task_pc task_kind].
        unfold handleStream_leave. cbv zeta. world_simpl. unfold load. snoc. cbn [mbind go_bind].
        world_simpl. change (int (1 - 1)) with 0.
        rewrite decide_False by (by intros [_ [=]]). world_simpl. snoc. reflexivity. }
    reflexivity. }
  world_simpl. unfold Datatypes.id. snoc. repeat split; try done. lia.
Qed.

Lemma early_stream_is_delivered_witness :
  ∃ w', run [EvAddStream 1 (Some 7) 8; EvEnter 0; EvDial None 1 8 0;
             EvSelect 0 case_session_created; EvLeave 0] (init 5) = Some (ret w')
        ∧ conn_heap w' = [addStream (Some 7) (newConn None 8 1 0)].
Proof.
  destruct (early_stream_is_delivered (init 5) None 1 8 0 (Some 7))
    as (w' & Hrun & Hc & _); [vm_compute; reflexivity|].
  exists w'. split; [exact Hrun|exact Hc].
Defined.

(** X10.  A stream whose session does not come is reset.  From any state
    in which the session [(qc, id)] is unknown: the stream is parked;
    when the timeout has passed the timer case fires, the goroutine
    cancels both directions of the stream with
    [WebTransportBufferedStreamRejectedErrorCode] and, being the last
    waiter, takes the entry out of the map again.  Before the timeout
    has passed the timer case is not ready. *)
Theorem early_stream_times_out
    (w : world) (qc id d : Z) (s : stream_ref) :
  sessions (m w) !! (qc, id) = None →
  0 ≤ d →
  (timeout (m w) ≤ d →
   ∃ w', run [EvAddStream qc (Some s) id; EvEnter (length (tasks w)); EvTick d;
              EvSelect (length (tasks w)) case_timer;
              EvLeave (length (tasks w))] w = Some (ret w')
         ∧ calls w'
           = calls w
             ++ [(s, CallCancelRead WebTransportBufferedStreamRejectedErrorCode);
                 (s, CallCancelWrite WebTransportBufferedStreamRejectedErrorCode)]
         ∧ sessions (m w') = sessions (m w)
         ∧ refCount (m w') = refCount (m w)
         ∧ tasks w' = tasks w ∧ conn_heap w' = conn_heap w)
  ∧ (d < timeout (m w) →
     run [EvAddStream qc (Some s) id; EvEnter (length (tasks w)); EvTick d;
          EvSelect (length (tasks w)) case_timer] w = None).
Proof.
  intros Hkey Hd. destruct w as [[rc mc to ss cs] heap ch ts ps nw cl].
  simpl in Hkey. cbn [tasks conn_heap session_heap m sessions refCount calls timeout].
  assert (∃ w3, (∀ evs, run (EvAddStream qc (Some s) id :: EvEnter (length ts)
                             :: EvTick d :: evs)
                          (mkWorld (mkManager rc mc to ss cs) heap ch ts ps nw cl)
                        = run evs w3)
                ∧ w3 = mkWorld (mkManager (rc + 1) mc to
                                  (<[(qc, id) := length heap]> ss) cs)
                         (heap ++ [mkSession false 1 None]) ch
                         (ts ++ [mkTask Bidi (Some s) (length heap) (qc, id)
                                   (Waiting (nw + to) None)])
                         ps (nw + d) cl) as (w3 & Hprefix & Hw3).
  { eexists. split; [|reflexivity]. intros evs.
    erewrite run_step.
    2:{ cbn [step]. unfold AddStream. cbv zeta. cbn [m sessions]. rewrite Hkey.
        unfold new_pending, park. cbv zeta. world_simpl.
        unfold load. snoc. cbn [mbind go_bind]. snoc. world_simpl.
        change (int (0 + 1)) with 1. reflexivity. }
    erewrite run_step.
    2:{ cbn [step tasks]. snoc. cbn [mbind option_bind task_pc task_kind].
        unfold handleStream_enter. cbn [mbind go_bind]. world_simpl. snoc.
        reflexivity. }
    erewrite run_step.
    2:{ cbn [step]. rewrite decide_True by done. world_simpl. reflexivity. }
    reflexivity. }
  split.
  - intros Hto. rewrite Hprefix, Hw3. eexists. split.
    { erewrite run_step.
      2:{ cbn [step tasks]. snoc. cbn [mbind option_bind task_pc task_kind].
          unfold handleStream_select. world_simpl.
          replace (nw + to <=? nw + d) with true by (symmetry; apply Z.leb_le; lia).
          unfold on_stream. world_simpl. cbn [mbind go_bind option_bind].
          world_simpl. snoc. reflexivity. }
      erewrite run_step.
      2:{ cbn [step tasks]. snoc. cbn [mbind option_bind task_pc task_kind].
          unfold handleStream_leave. cbv zeta. world_simpl. unfold load. snoc.
          cbn [mbind go_bind]. world_simpl. change (int (1 - 1)) with 0.
          rewrite decide_True by done. world_simpl. snoc. reflexivity. }
      reflexivity. }
    world_simpl. rewrite <- app_assoc. repeat split; try done; [|lia].
    by apply delete_insert_id.
  - intros Hto. rewrite Hprefix, Hw3. cbn [run step tasks]. snoc.
    cbn [mbind option_bind task_pc task_kind]. unfold handleStream_select.
    world_simpl.
    replace (nw + to <=? nw + d) with false by (symmetry; apply Z.leb_gt; lia).
    reflexivity.
Qed.

Lemma early_stream_times_out_witness :
  ∃ w', run [EvAddStream 1 (Some 7) 8; EvEnter 0; EvTick 6; EvSelect 0 case_timer;
             EvLeave 0] (init 5) = Some (ret w')
        ∧ calls w' = [(7, CallCancelRead WebTransportBufferedStreamRejectedErrorCode);
                      (7, CallCancelWrite WebTransportBufferedStreamRejectedErrorCode)]
        ∧ sessions (m w') = ∅.
Proof.
  destruct (proj1 (early_stream_times_out (init 5) 1 8 6 7 eq_refl ltac:(lia)))
    as (w' & Hrun & Hc & Hs & _); [vm_compute; discriminate|].
  exists w'. split; [exact Hrun|]. split; [exact Hc|exact Hs].
Defined.

(** ** The dialer *)

Section dialer_facts.

Import dialer.

Implicit Types (w : world) (c : Conn).

Lemma AddSession_fresh qc id (cl : loc) w :
  sessions (m w) !! (qc, id) = None →
  ∃ w', AddSession qc id (Some cl) w = ret w'
        ∧ conn_heap w' = conn_heap w
        ∧ sessions (m w') !! (qc, id) = Some (length (session_heap w))
        ∧ session_heap w' = session_heap w ++ [mkSession true 0 (Some cl)].
Proof.
  intros Hkey. unfold AddSession. cbv zeta. rewrite Hkey.
  destruct (decide _); eexists; (split; [reflexivity|]); simpl;
    by rewrite lookup_insert_eq.
Qed.

Lemma AddSession_attached qc id (cl : loc) w w' :
  AddSession qc id (Some cl) w = ret w' →
  conn_heap w' = conn_heap w
  ∧ ∃ l sess, sessions (m w') !! (qc, id) = Some l
              ∧ session_heap w' !! l = Some sess
              ∧ conn sess = Some cl ∧ created sess = true.
Proof.
  unfold AddSession. cbv zeta.
  destruct (sessions (m w) !! (qc, id)) as [l|] eqn:Hkey.
  - intros (sess & Hl%load_inv & (sess' & Hclose & [= <-])%go_bind_ret)%go_bind_ret.
    unfold close_created in Hclose. simpl in Hclose.
    destruct (created sess); [discriminate|]. injection Hclose as <-.
    split; [done|]. exists l. eexists. simpl. split; [done|].
    split; [apply list_lookup_insert_eq; by eapply lookup_lt_Some|done].
  - intros Hadd. destruct (AddSession_fresh qc id cl w Hkey)
      as (w1 & Hw1 & Hch & Hk & Hh).
    unfold AddSession in Hw1. cbv zeta in Hw1. rewrite Hkey in Hw1.
    rewrite Hw1 in Hadd. injection Hadd as <-. split; [done|].
    exists (length (session_heap w)). eexists. split; [done|].
    rewrite Hh. split; [apply lookup_snoc|done].
Qed.

End dialer_facts.

(** X11.  [Dial] returns a session or an error, never both and never
    neither.  With an error the manager is untouched.  With a session,
    the request was answered with a status in [200, 300) and a body that
    can be hijacked; the session is a new object with the stream id of
    the request as its session id, and the manager has it attached,
    with [created] closed, under the connection and that id.  When the
    session is not registered yet, [Dial] returns. *)
Theorem Dial_returns_session_or_error
    (parsed : option error) (roundTrip : result dialer.response) (w : world) :
  (∀ rsp cl err w',
     dialer.Dial parsed roundTrip w = ret (rsp, cl, err, w') →
     (cl = None ↔ err ≠ None)
     ∧ (err ≠ None → w' = w)
     ∧ (∀ l, cl = Some l →
          ∃ r, parsed = None ∧ roundTrip = Ok r ∧ rsp = Some r
               ∧ 200 ≤ dialer.StatusCode r < 300
               ∧ dialer.Body_is_Hijacker r = true
               ∧ l = length (conn_heap w)
               ∧ conn_heap w'
                 = conn_heap w
                   ++ [newConn (dialer.Stream_Context r) (uint64 (dialer.StreamID r))
                         (dialer.StreamCreator r) (dialer.Body r)]
               ∧ ∃ sl sess,
                   sessions (m w')
                     !! (dialer.StreamCreator r, uint64 (dialer.StreamID r)) = Some sl
                   ∧ session_heap w' !! sl = Some sess
                   ∧ conn sess = Some l ∧ created sess = true))
  ∧ ((∀ r, roundTrip = Ok r →
        sessions (m w) !! (dialer.StreamCreator r, uint64 (dialer.StreamID r)) = None) →
     ∃ res, dialer.Dial parsed roundTrip w = ret res).
Proof.
  split.
  - intros rsp cl err w'. unfold dialer.Dial.
    destruct parsed as [e|]; [by intros [= <- <- <- <-]|].
    destruct roundTrip as [r|e]; [|by intros [= <- <- <- <-]].
    destruct (_ || _) eqn:Hstatus; [by intros [= <- <- <- <-]|].
    destruct (dialer.Body_is_Hijacker r) eqn:Hbody; simpl;
      [|by intros [= <- <- <- <-]].
    cbv zeta. intros (w1 & Hadd & [= <- <- <- <-])%go_bind_ret.
    apply AddSession_attached in Hadd as (Hch & sl & sess & Hk & Hl & Hc & Hcr).
    simpl in Hch. split; [done|]. split; [done|]. intros l [= <-].
    exists r. apply orb_false_iff in Hstatus as [H1%Z.ltb_ge H2%Z.leb_gt].
    repeat split; try done; try lia. by exists sl, sess.
  - intros Hfresh. unfold dialer.Dial.
    destruct parsed as [e|]; [by eexists|].
    destruct roundTrip as [r|e]; [|by eexists].
    destruct (_ || _); [by eexists|].
    destruct (dialer.Body_is_Hijacker r); simpl; [|by eexists].
    cbv zeta.
    edestruct (AddSession_fresh (dialer.StreamCreator r) (uint64 (dialer.StreamID r))
                 (length (conn_heap w))) as (w1 & -> & _); [|by eexists].
    simpl. by apply Hfresh.
Qed.

Lemma Dial_returns_session_or_error_witness :
  ∃ w', dialer.Dial None (Ok (dialer.mkResponse 200 true 1 4 None 0)) (init 5)
        = ret (Some (dialer.mkResponse 200 true 1 4 None 0), Some 0%nat, None, w')
        ∧ conn_heap w' = [newConn None 4 1 0].
Proof.
  eexists. split; [vm_compute; reflexivity|].
  match goal with
  | |- conn_heap ?w' = _ =>
      assert (Hdial : dialer.Dial None (Ok (dialer.mkResponse 200 true 1 4 None 0))
                        (init 5)
                      = ret (Some (dialer.mkResponse 200 true 1 4 None 0),
                             Some 0%nat, None, w')) by (vm_compute; reflexivity)
  end.
  destruct (proj1 (Dial_returns_session_or_error _ _ _) _ _ _ _ Hdial)
    as (_ & _ & Hsession).
  destruct (Hsession 0%nat eq_refl) as (r & _ & Hr & _ & _ & _ & _ & Hheap & _).
  injection Hr as <-. exact Hheap.
Defined.

(** X12.  The header that opens a stream is the header the hijackers
    take.  For a session id that has a varint, [writeStreamHeader] writes
    bytes from which the HTTP/3 layer reads the frame type 0x41; handed
    that type and the rest of the stream, the [StreamHijacker] takes the
    stream, reads the same session id and gives the stream to
    [AddStream] under that id, with the payload left to read.  The same
    holds for [writeUniStreamHeader], the stream type 0x54, the
    [UniStreamHijacker] and [AddUniStream]. *)
Theorem stream_header_reaches_hijacker
    (env : quic_env) (c : Conn) (r : stream_ref) (log : quic_log)
    (qc : Z) (s : stream_ref) (payload : bytes) (w : world) :
  0 ≤ sessionID c ≤ quicvarint.maxVarInt8 →
  (∃ hdr rest,
     writeStreamHeader env c (Some r) log
     = ret (env_Write env r hdr, log ++ [(r, CallWrite hdr)])
     ∧ quicvarint.Read (hdr ++ payload) = Some (webTransportFrameType, rest)
     ∧ dialer.StreamHijacker webTransportFrameType qc (Some s) rest w
       = (w' ← AddStream qc (Some s) (sessionID c) w; ret (true, None, payload, w')))
  ∧ (∃ hdr rest,
       writeUniStreamHeader env c (Some r) log
       = ret (env_Write env r hdr, log ++ [(r, CallWrite hdr)])
       ∧ quicvarint.Read (hdr ++ payload) = Some (webTransportStreamType, rest)
       ∧ dialer.UniStreamHijacker webTransportStreamType qc (Some s) rest w
         = (w' ← AddUniStream qc (Some s) (sessionID c) w; ret (true, payload, w'))).
Proof.
  intros [Hlo Hhi].
  destruct (quicvarint_Write_Some _ Hhi) as [sid Hsid].
  assert (0 ≤ sessionID c < 2 ^ 64) as H64
    by (unfold quicvarint.maxVarInt8 in Hhi; lia).
  pose proof (quicvarint_Read_Write _ _ payload Hlo Hsid) as Hread.
  split.
  - exists ([0x40; 0x41] ++ sid), (sid ++ payload). split; [|split].
    + by apply writeStreamHeader_spec.
    + rewrite <- app_assoc.
      by apply (quicvarint_Read_Write 0x41 [0x40; 0x41] (sid ++ payload)).
    + unfold dialer.StreamHijacker, dialer.read_id.
      rewrite decide_False by (by intros H; apply H).
      rewrite Hread. cbn [mbind go_bind]. by rewrite uint64_small.
  - exists ([0x40; 0x54] ++ sid), (sid ++ payload). split; [|split].
    + by apply writeUniStreamHeader_spec.
    + rewrite <- app_assoc.
      by apply (quicvarint_Read_Write 0x54 [0x40; 0x54] (sid ++ payload)).
    + unfold dialer.UniStreamHijacker, dialer.read_id.
      rewrite decide_False by (by intros H; apply H).
      rewrite Hread. cbn [mbind go_bind]. by rewrite uint64_small.
Qed.

Lemma stream_header_reaches_hijacker_witness :
  ∃ hdr rest,
    writeStreamHeader (mkEnv (Ok 3) (Ok 3) (λ _ _, None)) (newConn None 4 1 0)
      (Some 3) []
    = ret (None, [(3, CallWrite hdr)])
    ∧ quicvarint.Read (hdr ++ [9; 9]) = Some (webTransportFrameType, rest)
    ∧ dialer.StreamHijacker webTransportFrameType 1 (Some 7) rest (init 5)
      = (w' ← AddStream 1 (Some 7) 4 (init 5); ret (true, None, [9; 9], w')).
Proof.
  exact (proj1 (stream_header_reaches_hijacker
                  (mkEnv (Ok 3) (Ok 3) (λ _ _, None)) (newConn None 4 1 0) 3 []
                  1 7 [9; 9] (init 5) ltac:(vm_compute; split; discriminate))).
Defined.

(** ** The stream adapters *)

Section adapters.

Lemma maybeConvertStreamError_hides (answer : option error) (e : error) :
  maybeConvertStreamError answer = Some e → errors_As_StreamError e = None.
Proof.
  unfold maybeConvertStreamError. destruct answer as [e0|]; [|discriminate].
  destruct (errors_As_StreamError e0) as [[id code]|] eqn:Has.
  - unfold httpCodeToWebtransportCode.
    destruct (_ || _); [by intros [= <-]|]. cbv zeta.
    destruct (_ =? _); by intros [= <-].
  - by intros [= <-].
Qed.

Lemma maybeConvertStreamError_idem (answer : option error) :
  maybeConvertStreamError (maybeConvertStreamError answer)
  = maybeConvertStreamError answer.
Proof.
  destruct (maybeConvertStreamError answer) as [e|] eqn:Hconv; [|done].
  apply maybeConvertStreamError_hides in Hconv. simpl. by rewrite Hconv.
Qed.

End adapters.

(** X13.  The adapters never hand a QUIC stream error to the caller.
    Whatever the raw stream answers, the error returned by
    [receiveStream.Read], [sendStream.Write], the two deadline setters of
    the adapters and [stream.Close] has no [*quic.StreamError] on its
    chain ([errors.As] fails), and converting once more changes
    nothing. *)
Theorem adapters_hide_quic_stream_errors (answer : option error) (n : Z) :
  (∀ e, snd (adapter.receiveStream_Read (n, answer)) = Some e →
        errors_As_StreamError e = None)
  ∧ (∀ s b log n' e log',
       adapter.sendStream_Write s b (n, answer) log = ret (n', Some e, log') →
       errors_As_StreamError e = None)
  ∧ (∀ e, adapter.sendStream_SetWriteDeadline answer = Some e →
          errors_As_StreamError e = None)
  ∧ (∀ e, adapter.receiveStream_SetReadDeadline answer = Some e →
          errors_As_StreamError e = None)
  ∧ (∀ e, adapter.stream_Close answer = Some e → errors_As_StreamError e = None)
  ∧ maybeConvertStreamError (maybeConvertStreamError answer)
    = maybeConvertStreamError answer.
Proof.
  split; [|split; [|split; [|split; [|split]]]].
  - intros e. simpl. apply maybeConvertStreamError_hides.
  - intros s b log n' e log'. unfold adapter.sendStream_Write.
    intros (log1 & _ & [= _ Hconv _])%go_bind_ret.
    by eapply maybeConvertStreamError_hides.
  - apply maybeConvertStreamError_hides.
  - apply maybeConvertStreamError_hides.
  - apply maybeConvertStreamError_hides.
  - apply maybeConvertStreamError_idem.
Qed.

Lemma adapters_hide_quic_stream_errors_witness :
  snd (adapter.receiveStream_Read
         (0, Some (wrapError "read" [] (quic_StreamError 4 7))))
  = Some (wrapError "stream reset, but failed to convert stream error %d: %w"
            [7] MappingError)
  ∧ errors_As_StreamError
      (wrapError "stream reset, but failed to convert stream error %d: %w"
         [7] MappingError) = None.
Proof.
  split; [vm_compute; reflexivity|].
  apply (proj1 (adapters_hide_quic_stream_errors
                  (Some (wrapError "read" [] (quic_StreamError 4 7))) 0)).
  vm_compute; reflexivity.
Defined.

(** X14.  A reset code crosses the connection unchanged.  [CancelWrite]
    with an application code [e] of 32 bits resets the raw stream with a
    code that, when it comes back in the stream error of the peer's
    [Read], is converted to [StreamError] with the code [e] again; the
    same for [CancelRead] and the peer's [Write]. *)
Theorem reset_code_reaches_the_peer
    (e : Z) (r : stream_ref) (log : quic_log) (id n : Z) (b : bytes) :
  0 ≤ e < 2 ^ 32 →
  ∃ code,
    adapter.sendStream_CancelWrite (newSendStream (Some r)) e log
    = ret (log ++ [(r, CallCancelWrite code)])
    ∧ adapter.receiveStream_Read (n, Some (quic_StreamError id code))
      = (n, Some (StreamError e))
    ∧ adapter.receiveStream_CancelRead (newReceiveStream (Some r)) e log
      = ret (log ++ [(r, CallCancelRead code)])
    ∧ adapter.sendStream_Write (newSendStream (Some r)) b
        (n, Some (quic_StreamError id code)) log
      = ret (n, Some (StreamError e), log ++ [(r, CallWrite b)]).
Proof.
  intros He. exists (webtransportCodeToHTTPCode e).
  assert (maybeConvertStreamError
            (Some (quic_StreamError id (webtransportCodeToHTTPCode e)))
          = Some (StreamError e)) as Hconv.
  { unfold maybeConvertStreamError. cbn [errors_As_StreamError].
    by rewrite httpCodeToWebtransportCode_forward. }
  split; [done|]. split; [|split; [done|]].
  - unfold adapter.receiveStream_Read. by rewrite Hconv.
  - unfold adapter.sendStream_Write. cbn [adapter.raw_call send_str mbind go_bind].
    by rewrite Hconv.
Qed.

Lemma reset_code_reaches_the_peer_witness :
  ∃ code,
    adapter.sendStream_CancelWrite (newSendStream (Some 3)) 0x41 []
    = ret [(3, CallCancelWrite code)]
    ∧ adapter.receiveStream_Read (0, Some (quic_StreamError 4 code))
      = (0, Some (StreamError 0x41)).
Proof.
  destruct (reset_code_reaches_the_peer 0x41 3 [] 4 0 [] ltac:(lia))
    as (code & Hcancel & Hread & _).
  exists code. split; [exact Hcancel|exact Hread].
Defined.

(** X15.  [OpenStreamSync] and [OpenUniStreamSync] write the header like
    the calls without a context.  When the QUIC layer does not open a
    stream the error is returned and nothing is written.  When a stream
    is returned, exactly one [Write] was issued, on the stream that was
    opened, with the varint of 0x41 (0x54 for a unidirectional stream)
    and the varint of the session id, and it reported no error.  A
    session id that has no varint makes the call panic after the stream
    was opened. *)
Theorem open_stream_sync_writes_header
    (ctx0 : context) (opened : result stream_ref) (env : quic_env) (c : Conn)
    (log : quic_log) :
  0 ≤ sessionID c < 2 ^ 64 →
  (∀ e, opened = Err e →
     OpenStreamSync ctx0 opened env c log = ret (Err e, log)
     ∧ OpenUniStreamSync ctx0 opened env c log = ret (Err e, log))
  ∧ (∀ s log', OpenStreamSync ctx0 opened env c log = ret (Ok s, log') →
       ∃ r sid,
         opened = Ok r ∧ s = newStream (Some r)
         ∧ quicvarint.Write [] (sessionID c) = Some sid
         ∧ log' = log ++ [(r, CallWrite ([0x40; 0x41] ++ sid))]
         ∧ env_Write env r ([0x40; 0x41] ++ sid) = None)
  ∧ (∀ s log', OpenUniStreamSync ctx0 opened env c log = ret (Ok s, log') →
       ∃ r sid,
         opened = Ok r ∧ s = newSendStream (Some r)
         ∧ quicvarint.Write [] (sessionID c) = Some sid
         ∧ log' = log ++ [(r, CallWrite ([0x40; 0x54] ++ sid))]
         ∧ env_Write env r ([0x40; 0x54] ++ sid) = None)
  ∧ (∀ r, opened = Ok r → quicvarint.maxVarInt8 < sessionID c →
       (∃ msg, OpenStreamSync ctx0 opened env c log = panic msg)
       ∧ (∃ msg, OpenUniStreamSync ctx0 opened env c log = panic msg)).
Proof.
  intros Hsid. split; [|split; [|split]].
  - by intros e ->.
  - intros s log'. unfold OpenStreamSync.
    destruct opened as [r|e]; [|discriminate].
    destruct (quicvarint.Write [] (sessionID c)) as [sid|] eqn:Hw.
    + rewrite (writeStreamHeader_spec env c r log sid Hsid Hw). simpl.
      destruct (env_Write env r _) eqn:Hwr; [discriminate|].
      intros [= <- <-]. by exists r, sid.
    + unfold writeStreamHeader. change (uint64 webTransportFrameType) with 0x41.
      rewrite (quicvarint_Write_ret [] 0x41 _ frame_type_varint). simpl.
      rewrite (uint64_small (sessionID c)) by done.
      destruct (quicvarint_Write_None [64; 65] _ Hw) as [msg ->]. discriminate.
  - intros s log'. unfold OpenUniStreamSync.
    destruct opened as [r|e]; [|discriminate].
    destruct (quicvarint.Write [] (sessionID c)) as [sid|] eqn:Hw.
    + rewrite (writeUniStreamHeader_spec env c r log sid Hsid Hw). simpl.
      destruct (env_Write env r _) eqn:Hwr; [discriminate|].
      intros [= <- <-]. by exists r, sid.
    + unfold writeUniStreamHeader. change (uint64 webTransportStreamType) with 0x54.
      rewrite (quicvarint_Write_ret [] 0x54 _ stream_type_varint). simpl.
      rewrite (uint64_small (sessionID c)) by done.
      destruct (quicvarint_Write_None [64; 84] _ Hw) as [msg ->]. discriminate.
  - intros r -> Hbig. apply quicvarint_Write_too_big in Hbig.
    unfold OpenStreamSync, OpenUniStreamSync, writeStreamHeader, writeUniStreamHeader.
    change (uint64 webTransportFrameType) with 0x41.
    change (uint64 webTransportStreamType) with 0x54.
    rewrite (quicvarint_Write_ret [] 0x41 _ frame_type_varint).
    rewrite (quicvarint_Write_ret [] 0x54 _ stream_type_varint). simpl.
    rewrite (uint64_small (sessionID c)) by done.
    destruct (quicvarint_Write_None [64; 65] _ Hbig) as [msg1 ->].
    destruct (quicvarint_Write_None [64; 84] _ Hbig) as [msg2 ->].
    split; by eexists.
Qed.

Lemma open_stream_sync_writes_header_witness :
  OpenStreamSync None (Ok 3) (mkEnv (Ok 3) (Ok 3) (λ _ _, None)) (newConn None 4 1 0) []
  = ret (Ok (newStream (Some 3)), [(3, CallWrite [0x40; 0x41; 4])])
  ∧ ∃ r sid, Ok 3 = Ok r
             ∧ quicvarint.Write [] 4 = Some sid
             ∧ [(3, CallWrite [0x40; 0x41; 4])]
               = [] ++ [(r, CallWrite ([0x40; 0x41] ++ sid))].
Proof.
  split; [vm_compute; reflexivity|].
  destruct (proj1 (proj2 (open_stream_sync_writes_header None (Ok 3)
                            (mkEnv (Ok 3) (Ok 3) (λ _ _, None)) (newConn None 4 1 0) []
                            ltac:(vm_compute; split; [discriminate|reflexivity])))
              (newStream (Some 3)) [(3, CallWrite [0x40; 0x41; 4])]
              ltac:(vm_compute; reflexivity))
    as (r & sid & Hr & _ & Hsid & Hlog & _).
  exists r, sid. split; [exact Hr|]. split; [exact Hsid|exact Hlog].
Defined.

(** ** Closing the manager *)

(** X16.  [Close] releases every parked stream, and abandons it.  In a
    state reached by any history, once [Close] has cancelled the
    context of the manager a stream that waits in its [select] can take
    the case of the context and leave: the goroutine ends and the wait
    group goes down by one, so the [Wait] of [Close] is not held up by
    it.  The stream itself is neither handed to a session nor reset: no
    call is made on it and no session receives it. *)
Theorem Close_releases_parked_streams
    (T : Z) (evs : list event) (w : world) (i : nat) (t : task) (d : Z)
    (cc : option loc) :
  run evs (init T) = Some (ret w) →
  tasks w !! i = Some t →
  task_pc t = Waiting d cc →
  ∃ w', run [EvClose; EvSelect i case_m_ctx_Done; EvLeave i] w = Some (ret w')
        ∧ tasks w' = delete i (tasks w)
        ∧ refCount (m w') = refCount (m w) - 1
        ∧ calls w' = calls w ∧ conn_heap w' = conn_heap w.
Proof.
  intros Hrun Hi Hpc.
  assert (pointers_ok w) as Hok
    by (eapply run_pointers_ok; [exact Hrun|apply pointers_ok_init]).
  destruct (pointers_ok_task _ _ _ Hi Hok) as [Hs _].
  destruct (lookup_lt_is_Some_2 _ _ Hs) as [sess Hl].
  pose proof (lookup_lt_Some _ _ _ Hi) as Hlt.
  erewrite run_step by reflexivity.
  erewrite run_step.
  2:{ cbn [step]. unfold Close. world_simpl. rewrite Hi.
      cbn [mbind option_bind]. rewrite Hpc.
      assert (∀ k1 k2, match task_kind t with
                       | Bidi => handleStream_select case_m_ctx_Done d t k1
                       | Uni => handleUniStream_select case_m_ctx_Done d cc t k2
                       end
                       = match task_kind t with
                         | Bidi => if ctx_Done (m_ctx (m k1)) then Some (ret k1) else None
                         | Uni => if ctx_Done (m_ctx (m k2)) then Some (ret k2) else None
                         end) as Hsel by (intros; by destruct (task_kind t)).
      rewrite Hsel. world_simpl.
      assert (ctx_Done (cancel (m_ctx (m w))) = true) as ->.
      { unfold cancel. by destruct (m_ctx (m w)). }
      replace (match task_kind t with Bidi => _ | Uni => _ end)
        with (Some (ret (mkWorld (mkManager (refCount (m w)) (cancel (m_ctx (m w)))
                                    (timeout (m w)) (sessions (m w)) (conns (m w)))
                           (session_heap w) (conn_heap w) (tasks w) (pumps w)
                           (now w) (calls w))))
        by (by destruct (task_kind t)).
      cbn [mbind option_bind go_bind]. world_simpl. reflexivity. }
  erewrite run_step.
  2:{ cbn [step]. world_simpl. rewrite list_lookup_insert_eq by done.
      cbn [mbind option_bind]. world_simpl.
      unfold handleStream_leave. cbv zeta. world_simpl. load_goal Hl.
      cbn [mbind go_bind]. reflexivity. }
  eexists. split; [reflexivity|]. world_simpl.
  destruct (decide _); world_simpl; rewrite delete_insert_same;
    repeat split; done.
Qed.

Lemma Close_releases_parked_streams_witness :
  ∃ w w', run [EvAddStream 1 (Some 7) 8; EvEnter 0] (init 5) = Some (ret w)
          ∧ run [EvClose; EvSelect 0 case_m_ctx_Done; EvLeave 0] w = Some (ret w')
          ∧ tasks w' = [] ∧ calls w' = [].
Proof.
  eexists.
  match goal with
  | |- ∃ w', run _ _ = Some (ret ?w) ∧ _ =>
      assert (Hrun : run [EvAddStream 1 (Some 7) 8; EvEnter 0] (init 5) = Some (ret w))
        by (vm_compute; reflexivity)
  end.
  destruct (Close_releases_parked_streams 5 _ _ 0%nat
              (mkTask Bidi (Some 7) 0%nat (1, 8) (Waiting 5 None)) 5 None Hrun)
    as (w' & Hrun' & Ht & _ & Hc & _); [vm_compute; reflexivity..|].
  exists w'. split; [exact Hrun|]. split; [exact Hrun'|]. split; [exact Ht|exact Hc].
Defined.
